(** * Coverage path planning on rectilinear polygons: model and properties

    A shallow embedding of the decomposition / sweep / Held-Karp pipeline
    of the [cpp] package ([decomposition.py], [utils/helpers.py],
    [parallel_track.py], [global_optimizer.py], [run.py] and the ring
    conversion of [picklestore.py]).

    Conventions of the model.
    - Python floats are exact rationals ([Q]); [float('inf')] is the extra
      value [Infinity] of [float_inf].  Equality of floats is [Qeq].  Where
      a property depends on rounding, the code is modelled once more with
      the rounding to binary64 written out (module [Binary64]).
    - Python ints are [Z] (the bitmask of the dynamic program, turn
      counts, lane keys) or [nat] (list indices, recursion depths).
    - The functions of libm ([math.sqrt], [math.hypot], [math.atan2],
      [math.pi]) and of the geometry library (intersection, union, split,
      area) are not part of the package: they are the fields of the
      classes [Libm] and [Shapely], and every definition and theorem is
      parametric in them. *)

From Stdlib Require Import QArith Qround Qabs Qminmax Qpower ZArith List Lia Lqa Bool Permutation Sorted.
From Stdlib Require String Ascii.
From stdpp Require Import base gmap list.
Import ListNotations.

Local Open Scope Q_scope.

(** ** Numbers *)

Definition Qltb (a b : Q) : bool := negb (Qle_bool b a).

(** A float that may be [float('inf')]. *)
Inductive float_inf : Type :=
| Finite (q : Q)
| Infinity.

Definition finf_add (q : Q) (x : float_inf) : float_inf :=
  match x with
  | Finite r => Finite (q + r)
  | Infinity => Infinity
  end.

Definition finf_ltb (x y : float_inf) : bool :=
  match x, y with
  | Finite a, Finite b => Qltb a b
  | Finite _, Infinity => true
  | Infinity, _ => false
  end.

Definition finf_le (x y : float_inf) : Prop :=
  match x, y with
  | Finite a, Finite b => a <= b
  | _, Infinity => True
  | Infinity, Finite _ => False
  end.

(** The functions of [math] the package calls. *)
Class Libm : Type := {
  sqrt : Q -> Q;
  hypot : Q -> Q -> Q;
  atan2 : Q -> Q -> Q;
  pi : Q
}.

(** ** Data model ([utils/helpers.py]) *)

Definition Point2D : Type := (Q * Q)%type.

(** [CellID = Tuple[int, int]], (row, col). *)
Definition CellID : Type := (Z * Z)%type.

Record CandidateOption : Type := mkCandidateOption {
  entry : Point2D;
  exit : Point2D;
  cost : Q;
  turns : Z;
  path : option (list Point2D)
}.

(** ** [global_optimizer.py] *)

(** [enumerate(l)] *)
Definition enumerate {A : Type} (l : list A) : list (nat * A) :=
  combine (seq 0 (length l)) l.

(** [min(l) if l else d] *)
Definition min_or (l : list Z) (d : Z) : Z :=
  match l with
  | [] => d
  | t :: ts => fold_left Z.min ts t
  end.

(** [[c.turns for c in partition if abs(c.cost - cand.cost) < tol]] *)
Definition same_cost_turns (tol : Q) (partition : list CandidateOption)
    (cand : CandidateOption) : list Z :=
  map turns (List.filter (fun c => Qltb (Qabs (cost c - cost cand)) tol) partition).

(** One iteration of the inner loop of [adjust_candidate_options]. *)
Definition adjust_candidate (penalty tol : Q)
    (partition : list CandidateOption) (cand : CandidateOption) : CandidateOption :=
  let min_turns := min_or (same_cost_turns tol partition cand) (turns cand) in
  let extra := penalty * inject_Z (Z.max 0 (turns cand - min_turns)) in
  {| entry := entry cand;
     exit := exit cand;
     cost := cost cand + extra;
     turns := turns cand;
     path := path cand |}.

Definition adjust_candidate_options
    (candidate_options : list (list CandidateOption)) (penalty tol : Q)
    : list (list CandidateOption) :=
  map (fun partition => map (adjust_candidate penalty tol partition) partition)
      candidate_options.

(** Default [tol] of [adjust_candidate_options]: [1e-7]. *)
Definition adjust_tol : Q := 1 # 10000000.

(** A tour: [(partition_index, candidate_index)] pairs. *)
Definition Tour : Type := list (nat * nat).

Definition dp_result : Type := (float_inf * option Tour)%type.

(** [if total < best_cost: best_cost = total; best_path = [(j, k)] + sub_path].
    The concatenation would raise on [sub_path = None]; that needs a finite
    [total] with an infinite [sub_cost] and is never reached: [dp] returns
    a path whenever it returns a finite cost (see [dp_correct]). *)
Definition relax (best : dp_result) (total : float_inf) (jk : nat * nat)
    (sub_path : option Tour) : dp_result :=
  if finf_ltb total (fst best) then (total, option_map (cons jk) sub_path)
  else best.

Definition default_candidate : CandidateOption :=
  {| entry := (0, 0); exit := (0, 0); cost := 0; turns := 0%Z; path := None |}.

Section HeldKarp.
Context {M : Libm}.

(** [candidate_options] after the adjustment, as the closure [dp] sees it. *)
Variable candidate_options : list (list CandidateOption).

Definition N_parts : nat := length candidate_options.

(** [candidate_options[i][k]]; [dp] is only called on indices that
    [range] and [enumerate] produced, so the default is never used. *)
Definition cand_at (i k : nat) : CandidateOption :=
  nth k (nth i candidate_options []) default_candidate.

(** [math.hypot(prev.exit[0] - cand.entry[0], prev.exit[1] - cand.entry[1])] *)
Definition connector (prev cand : CandidateOption) : Q :=
  hypot (fst (exit prev) - fst (entry cand)) (snd (exit prev) - snd (entry cand)).

(** [(mask >> j) & 1] is truthy *)
Definition bit_set (mask : Z) (j : nat) : bool :=
  negb (Z.land (Z.shiftr mask (Z.of_nat j)) 1 =? 0)%Z.

(** [(1 << N) - 1] *)
Definition full_mask : Z := (Z.shiftl 1 (Z.of_nat N_parts) - 1)%Z.

(** The memoised closure [dp] of [held_karp].  Every call sets one more
    bit of [mask] below [N], so [fuel] counts the partitions not visited
    yet; [lru_cache] only caches the results of this pure function. *)
Fixpoint dp (fuel : nat) (mask : Z) (last_part last_cand : nat) : dp_result :=
  if (mask =? full_mask)%Z then (Finite 0, Some [])
  else
    match fuel with
    | O => (Infinity, None)
    | S fuel' =>
        let prev_cand := cand_at last_part last_cand in
        fold_left
          (fun best j =>
             if bit_set mask j then best
             else
               fold_left
                 (fun best '(cand_idx, cand) =>
                    let conn := connector prev_cand cand in
                    let new_mask := Z.lor mask (Z.shiftl 1 (Z.of_nat j)) in
                    let '(sub_cost, sub_path) := dp fuel' new_mask j cand_idx in
                    let total := finf_add (conn + cost cand) sub_cost in
                    relax best total (j, cand_idx) sub_path)
                 (enumerate (nth j candidate_options []))
                 best)
          (seq 0 N_parts)
          (Infinity, None)
    end.

(** The top-level loop of [held_karp]. *)
Definition held_karp_loop : dp_result :=
  fold_left
    (fun best i =>
       fold_left
         (fun best '(cand_idx, cand) =>
            let init_mask := Z.shiftl 1 (Z.of_nat i) in
            let '(cost_rest, path_rest) := dp N_parts init_mask i cand_idx in
            let total := finf_add (cost cand) cost_rest in
            relax best total (i, cand_idx) path_rest)
         (enumerate (nth i candidate_options []))
         best)
    (seq 0 N_parts)
    (Infinity, None).

(** *** What a tour costs *)

(** Connectors and candidate costs after the candidate [prev]. *)
Fixpoint rest_cost (prev : CandidateOption) (t : Tour) : Q :=
  match t with
  | [] => 0
  | (j, k) :: t' =>
      connector prev (cand_at j k) + cost (cand_at j k) + rest_cost (cand_at j k) t'
  end.

Definition tour_cost (t : Tour) : Q :=
  match t with
  | [] => 0
  | (i, k) :: t' => cost (cand_at i k) + rest_cost (cand_at i k) t'
  end.

Definition valid_choice (jk : nat * nat) : Prop :=
  (fst jk < N_parts)%nat /\ (snd jk < length (nth (fst jk) candidate_options []))%nat.

(** Every partition exactly once, with one of its candidates. *)
Definition full_tour (t : Tour) : Prop :=
  Permutation (map fst t) (seq 0 N_parts) /\ Forall valid_choice t.
End HeldKarp.

Definition held_karp {M : Libm} (candidate_options : list (list CandidateOption))
    : dp_result :=
  held_karp_loop (adjust_candidate_options candidate_options 1 adjust_tol).

(** The tours and costs the combiner optimises over: those of the
    candidates adjusted with penalty 1. *)
Definition adjusted (candidate_options : list (list CandidateOption))
    : list (list CandidateOption) :=
  adjust_candidate_options candidate_options 1 adjust_tol.

(** ** Geometry data ([shapely.geometry]) *)

(** A [LineString] of two points: the sweep and cut lines. *)
Definition Line : Type := (Point2D * Point2D)%type.

(** One outer ring and the rings of the holes, as [exterior.coords] and
    [interiors[i].coords] list them. *)
Record Polygon : Type := mkPolygon {
  exterior : list Point2D;
  interiors : list (list Point2D)
}.

(** The geometries the package tells apart by [geom_type]. *)
Inductive Geom : Type :=
| GPoint (p : Point2D)
| GMultiPoint (ps : list Point2D)
| GLineString (coords : list Point2D)
| GMultiLineString (ls : list (list Point2D))
| GPolygon (p : Polygon)
| GMultiPolygon (ps : list Polygon)
| GCollection (gs : list Geom).

Definition null {A : Type} (l : list A) : bool :=
  match l with
  | [] => true
  | _ => false
  end.

Definition polygon_is_empty (p : Polygon) : bool := null (exterior p).

(** [g.is_empty]: the geometry has no coordinates. *)
Fixpoint is_empty (g : Geom) : bool :=
  match g with
  | GPoint _ => false
  | GMultiPoint ps => null ps
  | GLineString cs => null cs
  | GMultiLineString ls => forallb null ls
  | GPolygon p => polygon_is_empty p
  | GMultiPolygon ps => forallb polygon_is_empty ps
  | GCollection gs => forallb is_empty gs
  end.

(** The vertices that decide [g.bounds]. *)
Fixpoint geom_coords (g : Geom) : list Point2D :=
  match g with
  | GPoint p => [p]
  | GMultiPoint ps => ps
  | GLineString cs => cs
  | GMultiLineString ls => concat ls
  | GPolygon p => exterior p
  | GMultiPolygon ps => flat_map exterior ps
  | GCollection gs => flat_map geom_coords gs
  end.

(** [(minx, miny, maxx, maxy)] of a list of vertices; shapely answers NaNs
    for an empty geometry, the model zeros. *)
Definition bounds_of (cs : list Point2D) : Q * Q * Q * Q :=
  match cs with
  | [] => (0, 0, 0, 0)
  | (x, y) :: cs' =>
      fold_left
        (fun '(minx, miny, maxx, maxy) '(px, py) =>
           (Qmin minx px, Qmin miny py, Qmax maxx px, Qmax maxy py))
        cs' (x, y, x, y)
  end.

Definition bounds (p : Polygon) : Q * Q * Q * Q := bounds_of (exterior p).
Definition geom_bounds (g : Geom) : Q * Q * Q * Q := bounds_of (geom_coords g).

(** [Polygon(shell)]: the ring is closed when the caller left it open. *)
Definition Polygon_of (shell : list Point2D) : Polygon :=
  match shell with
  | [] => mkPolygon [] []
  | p :: _ =>
      let q := List.last shell p in
      if Qeq_bool (fst p) (fst q) && Qeq_bool (snd p) (snd q)
      then mkPolygon shell []
      else mkPolygon (shell ++ [p]) []
  end.

(** The operations of the geometry library the package calls. *)
Class Shapely : Type := {
  (** [polygon.boundary.intersection(line)] *)
  boundary_cut : Polygon -> Line -> Geom;
  (** [a.boundary.intersection(b.boundary)] *)
  shared_boundary : Polygon -> Polygon -> Geom;
  (** [a.intersection(b)] *)
  intersection : Polygon -> Polygon -> Geom;
  (** [a.union(b)] *)
  union : Geom -> Geom -> Geom;
  (** [shapely.ops.split(polygon, line).geoms]; [None] when it raises *)
  split : Polygon -> Line -> option (list Geom);
  (** [g.area] *)
  area : Geom -> Q;
  (** [LineString(coords).length] *)
  line_length : list Point2D -> Q
}.

(** ** Sorting, rounding, medians (Python built-ins) *)

(** [round(x)] to an int: half goes to the even neighbour. *)
Definition py_round (x : Q) : Z :=
  let f := Qfloor x in
  match Qcompare (x - inject_Z f) (1 # 2) with
  | Lt => f
  | Gt => (f + 1)%Z
  | Eq => if Z.even f then f else (f + 1)%Z
  end.

Fixpoint insert_unique (x : Q) (l : list Q) : list Q :=
  match l with
  | [] => [x]
  | y :: l' =>
      match Qcompare x y with
      | Lt => x :: l
      | Eq => l
      | Gt => y :: insert_unique x l'
      end
  end.

(** [sorted(set(l))] *)
Definition sorted_set (l : list Q) : list Q := fold_right insert_unique [] l.

Fixpoint insert_by {A : Type} (before : A -> A -> bool) (x : A) (l : list A) : list A :=
  match l with
  | [] => [x]
  | y :: l' => if before y x then y :: insert_by before x l' else x :: l
  end.

(** [sorted(l, key=key, reverse=reverse)]: stable in both directions. *)
Definition sorted_by {A : Type} (key : A -> Q) (reverse : bool) (l : list A) : list A :=
  fold_right
    (insert_by (fun y x => if reverse then Qltb (key x) (key y) else Qltb (key y) (key x)))
    [] l.

(** [sorted(keys, reverse=reverse)] on ints *)
Definition sorted_keys (reverse : bool) (l : list Z) : list Z :=
  fold_right
    (insert_by (fun y x => if reverse then (x <? y)%Z else (y <? x)%Z))
    [] l.

(** [statistics.median] of a non-empty list *)
Definition median (l : list Q) : Q :=
  let data := sorted_by (fun x => x) false l in
  let n := length data in
  if Nat.even n
  then (nth (n / 2 - 1) data 0 + nth (n / 2) data 0) / 2
  else nth (n / 2) data 0.

(** The pairs [(l[i], l[i+1])]. *)
Fixpoint consecutive {A : Type} (l : list A) : list (A * A) :=
  match l with
  | [] => []
  | a :: t =>
      match t with
      | [] => []
      | b :: _ => (a, b) :: consecutive t
      end
  end.

Definition Qsum (l : list Q) : Q := fold_left Qplus l 0.

(** ** [decomposition.py] *)

Section Decomposition.
Context {K : Shapely}.

Definition gather_all_ring_coords (polygon : Polygon) : list Point2D :=
  exterior polygon ++ concat (interiors polygon).

Fixpoint extract_points_from_intersection (geom : Geom) : list Point2D :=
  if is_empty geom then []
  else
    match geom with
    | GPoint p => [p]
    | GMultiPoint ps => ps
    | GLineString cs => [nth 0 cs (0, 0); List.last cs (0, 0)]
    | GCollection gs => flat_map extract_points_from_intersection gs
    | _ => []
    end.

(** [round(v / tolerance) * tolerance] *)
Definition snap (tolerance v : Q) : Q := inject_Z (py_round (v / tolerance)) * tolerance.

Definition h_sweep_line (minx maxx y : Q) : Line := ((minx - 1, y), (maxx + 1, y)).
Definition v_sweep_line (miny maxy x : Q) : Line := ((x, miny - 1), (x, maxy + 1)).

(** The points a sweep line shares with the boundary. *)
Definition crossings (polygon : Polygon) (sweep_line : Line) : list Point2D :=
  extract_points_from_intersection (boundary_cut polygon sweep_line).

(** The sweep lines [is_polygon_troublesome] tries, halfway between
    consecutive snapped coordinates of all rings. *)
Definition horizontal_sweeps (polygon : Polygon) (tolerance : Q) : list Line :=
  let '(minx, _, maxx, _) := bounds polygon in
  let coords := gather_all_ring_coords polygon in
  let ys := sorted_set (map (fun pt => snap tolerance (snd pt)) coords) in
  map (fun '(lo, hi) => h_sweep_line minx maxx ((lo + hi) / 2)) (consecutive ys).

Definition vertical_sweeps (polygon : Polygon) (tolerance : Q) : list Line :=
  let '(_, miny, _, maxy) := bounds polygon in
  let coords := gather_all_ring_coords polygon in
  let xs := sorted_set (map (fun pt => snap tolerance (fst pt)) coords) in
  map (fun '(lo, hi) => v_sweep_line miny maxy ((lo + hi) / 2)) (consecutive xs).

(** [(horizontal_trouble, vertical_trouble)]: some sweep meets the
    boundary in more than two points. *)
Definition is_polygon_troublesome (polygon : Polygon) (tolerance : Q) : bool * bool :=
  let horizontal_trouble :=
    existsb (fun sweep_line => (2 <? length (crossings polygon sweep_line))%nat)
            (horizontal_sweeps polygon tolerance) in
  let vertical_trouble :=
    existsb (fun sweep_line => (2 <? length (crossings polygon sweep_line))%nat)
            (vertical_sweeps polygon tolerance) in
  (horizontal_trouble, vertical_trouble).

Inductive CandidateSource : Type := Exterior | AllRings.

(** [aggregated_metrics]; the per-sweep [details] are diagnostics only
    and are left out. *)
Record GapMetrics : Type := mkGapMetrics {
  max_horizontal_gap : Q;
  total_horizontal_gap : Q;
  max_vertical_gap : Q;
  total_vertical_gap : Q;
  combined_gap : Q;
  horizontal_union : option Geom;
  vertical_union : option Geom
}.

(** [pts[j+1] - pts[j]] for [j = 1, 3, ...] with [j + 1 < len(pts)];
    the argument is [pts[1:]]. *)
Fixpoint gap_widths (l : list Q) : list Q :=
  match l with
  | a :: b :: t => (b - a) :: gap_widths t
  | _ => []
  end.

(** One band of a sweep direction: [along] reads the coordinate the
    crossings are sorted by, [band] is the rectangle of the band. *)
Definition band_step (polygon : Polygon) (along : Point2D -> Q)
    (sweep_line : Line) (band : Polygon)
    (acc : Q * Q * option Geom) : Q * Q * option Geom :=
  let '(total_gap, max_gap, band_union) := acc in
  let pts := sorted_by along false (crossings polygon sweep_line) in
  let is_troublesome := (2 <? length pts)%nat in
  let gaps := if is_troublesome then gap_widths (map along (tl pts)) else [] in
  let band_in_poly :=
    let g := intersection polygon band in
    if is_empty g then None else Some g in
  (fold_left Qplus gaps total_gap,
   fold_left Qmax gaps max_gap,
   match is_troublesome, band_in_poly with
   | true, Some b =>
       Some (match band_union with None => b | Some u => union u b end)
   | _, _ => band_union
   end).

Definition quantify_gap_severity (polygon : Polygon) (tolerance : Q)
    (candidate_source : CandidateSource) : GapMetrics :=
  let '(minx, miny, maxx, maxy) := bounds polygon in
  let coords :=
    match candidate_source with
    | AllRings => gather_all_ring_coords polygon
    | Exterior => exterior polygon
    end in
  let ys := sorted_set (map (fun pt => snap tolerance (snd pt)) coords) in
  let xs := sorted_set (map (fun pt => snap tolerance (fst pt)) coords) in
  let '(total_h, max_h, union_h) :=
    fold_left
      (fun acc '(y_low, y_high) =>
         band_step polygon fst
           (h_sweep_line minx maxx ((y_low + y_high) / 2))
           (Polygon_of [(minx, y_low); (maxx, y_low); (maxx, y_high); (minx, y_high)])
           acc)
      (consecutive ys) (0, 0, None) in
  let '(total_v, max_v, union_v) :=
    fold_left
      (fun acc '(x_left, x_right) =>
         band_step polygon snd
           (v_sweep_line miny maxy ((x_left + x_right) / 2))
           (Polygon_of [(x_left, miny); (x_right, miny); (x_right, maxy); (x_left, maxy)])
           acc)
      (consecutive xs) (0, 0, None) in
  {| max_horizontal_gap := max_h;
     total_horizontal_gap := total_h;
     max_vertical_gap := max_v;
     total_vertical_gap := total_v;
     combined_gap := total_h + total_v;
     horizontal_union := union_h;
     vertical_union := union_v |}.

(** A record of [passes], without [details]. *)
Record PassRecord : Type := mkPassRecord {
  pass_depth : nat;
  subject_polygon : Polygon;
  metrics : GapMetrics;
  cut_line : option Line;
  horiz_union : option Geom;
  vert_union : option Geom
}.

(** The cut through the middle of a union of troublesome bands. *)
Definition horizontal_cut (polygon : Polygon) (horiz : Geom) : Line :=
  let '(minx, _, maxx, _) := bounds polygon in
  let '(_, uminy, _, umaxy) := geom_bounds horiz in
  h_sweep_line minx maxx ((uminy + umaxy) / 2).

Definition vertical_cut (polygon : Polygon) (vert : Geom) : Line :=
  let '(_, miny, _, maxy) := bounds polygon in
  let '(uminx, _, umaxx, _) := geom_bounds vert in
  v_sweep_line miny maxy ((uminx + umaxx) / 2).

(** "Choose cut" *)
Definition choose_cut (polygon : Polygon) (m : GapMetrics) : option Line :=
  match horizontal_union m, vertical_union m with
  | Some hu, Some vu =>
      if Qle_bool (total_vertical_gap m) (total_horizontal_gap m)
      then Some (horizontal_cut polygon hu)
      else Some (vertical_cut polygon vu)
  | Some hu, None => Some (horizontal_cut polygon hu)
  | None, Some vu => Some (vertical_cut polygon vu)
  | None, None => None
  end.

(** [cut_line.coords[0][1] == cut_line.coords[1][1]] *)
Definition is_horizontal (l : Line) : bool := Qeq_bool (snd (fst l)) (snd (snd l)).

(** What one call of [_greedy_partition] does with a polygon that passed
    the base case: it gives up and returns the polygon ([NoCut]), or it
    has more than one piece to recurse on ([Cut]).  [None]: the second,
    unprotected [split] raised. *)
Inductive CutOutcome : Type :=
| NoCut (pass : PassRecord)
| Cut (pass : PassRecord) (splitted : list Geom).

Definition cut_polygon (polygon : Polygon) (depth : nat) (tolerance : Q)
    : option CutOutcome :=
  let m := quantify_gap_severity polygon tolerance Exterior in
  let horiz := horizontal_union m in
  let vert := vertical_union m in
  match choose_cut polygon m with
  | None => Some (NoCut (mkPassRecord depth polygon m None None None))
  | Some line =>
      match split polygon line with
      | None => Some (NoCut (mkPassRecord depth polygon m (Some line) horiz vert))
      | Some splitted =>
          let retry :=
            if (length splitted <=? 1)%nat then
              if is_horizontal line then
                match vert with
                | Some vu =>
                    let line' := vertical_cut polygon vu in
                    option_map (fun s => (line', s)) (split polygon line')
                | None => Some (line, splitted)
                end
              else
                match horiz with
                | Some hu =>
                    let line' := horizontal_cut polygon hu in
                    option_map (fun s => (line', s)) (split polygon line')
                | None => Some (line, splitted)
                end
            else Some (line, splitted) in
          match retry with
          | None => None
          | Some (line', splitted') =>
              let pass := mkPassRecord depth polygon m (Some line') horiz vert in
              if (length splitted' <=? 1)%nat then Some (NoCut pass)
              else Some (Cut pass splitted')
          end
      end
  end.

(** The polygons the loop "Recurse on pieces" calls itself on. *)
Definition recursion_targets (splitted : list Geom) : list Polygon :=
  flat_map
    (fun piece =>
       if is_empty piece then []
       else
         match piece with
         | GPolygon p => [p]
         | GMultiPolygon ps => ps
         | _ => []
         end)
    splitted.

Definition both_troublesome (polygon : Polygon) (tolerance : Q) : bool :=
  let '(h_trouble, v_trouble) := is_polygon_troublesome polygon tolerance in
  h_trouble && v_trouble.

(** [_greedy_partition] by recursion on [max_depth - depth]: at 0 the
    test [depth >= max_depth] holds, and a recursive call has
    [depth + 1]. *)
Fixpoint greedy_rec (remaining : nat) (polygon : Polygon) (depth : nat)
    (tolerance : Q) : option (list Polygon * list PassRecord) :=
  match remaining with
  | O => Some ([polygon], [])
  | S remaining' =>
      if negb (both_troublesome polygon tolerance) then Some ([polygon], [])
      else
        match cut_polygon polygon depth tolerance with
        | None => None
        | Some (NoCut pass) => Some ([polygon], [pass])
        | Some (Cut pass splitted) =>
            fold_left
              (fun acc piece =>
                 match acc, greedy_rec remaining' piece (S depth) tolerance with
                 | Some (pieces, passes), Some (child_pieces, child_passes) =>
                     Some (pieces ++ child_pieces, passes ++ child_passes)
                 | _, _ => None
                 end)
              (recursion_targets splitted)
              (Some ([], [pass]))
        end
  end.

Definition _greedy_partition (polygon : Polygon) (depth max_depth : nat)
    (tolerance : Q) : option (list Polygon * list PassRecord) :=
  greedy_rec (max_depth - depth) polygon depth tolerance.

Definition greedy_partition (polygon : Polygon) (max_depth : nat) (tolerance : Q)
    : option (list Polygon * list PassRecord) :=
  _greedy_partition polygon 0 max_depth tolerance.

(** [greedy_rec] with every returned piece paired with the depth of the
    call that returned it (ghost information). *)
Fixpoint greedy_depths (remaining : nat) (polygon : Polygon) (depth : nat)
    (tolerance : Q) : option (list (Polygon * nat)) :=
  match remaining with
  | O => Some [(polygon, depth)]
  | S remaining' =>
      if negb (both_troublesome polygon tolerance) then Some [(polygon, depth)]
      else
        match cut_polygon polygon depth tolerance with
        | None => None
        | Some (NoCut _) => Some [(polygon, depth)]
        | Some (Cut _ splitted) =>
            fold_left
              (fun acc piece =>
                 match acc, greedy_depths remaining' piece (S depth) tolerance with
                 | Some pieces, Some child_pieces => Some (pieces ++ child_pieces)
                 | _, _ => None
                 end)
              (recursion_targets splitted)
              (Some [])
        end
  end.
End Decomposition.

Section Merge.
Context {K : Shapely}.

(** The "Compute shared length" block of [merge_partitions]. *)
Definition shared_length_of (inter : Geom) : Q :=
  if is_empty inter then 0
  else
    match inter with
    | GLineString cs => line_length cs
    | GMultiLineString ls => Qsum (map line_length ls)
    | GCollection gs =>
        fold_left
          (fun acc geom =>
             match geom with
             | GLineString cs => acc + line_length cs
             | GMultiLineString ls => acc + Qsum (map line_length ls)
             | _ => acc
             end)
          gs 0
    | _ => 0
    end.

Inductive MergeStep : Type :=
| Skip
| Merged (candidate_union : Polygon).

Definition accept_union (candidate_union : Polygon) (tolerance : Q) : MergeStep :=
  if both_troublesome candidate_union tolerance then Skip
  else Merged candidate_union.

Definition polygons_of (gs : list Geom) : list Polygon :=
  flat_map (fun g => match g with GPolygon p => [p] | _ => [] end) gs.

(** The body of the inner loop for one pair.  [None]: the union is
    neither a polygon, a multi-polygon nor a collection, and
    [is_polygon_troublesome] raises on its missing [exterior]. *)
Definition try_merge (poly_i poly_j : Polygon) (tolerance : Q) : option MergeStep :=
  let inter := shared_boundary poly_i poly_j in
  if Qltb (shared_length_of inter) tolerance then Some Skip
  else
    let candidate_union := union (GPolygon poly_i) (GPolygon poly_j) in
    if is_empty candidate_union then Some Skip
    else
      match candidate_union with
      | GMultiPolygon _ => Some Skip
      | GCollection gs =>
          match polygons_of gs with
          | [p] => Some (accept_union p tolerance)
          | _ => Some Skip
          end
      | GPolygon p => Some (accept_union p tolerance)
      | _ => None
      end.

(** State of the inner loop: [(poly_i, used_indices, merged_any)]. *)
Definition merge_inner (partitions : list Polygon) (tolerance : Q)
    (st : option (Polygon * gset nat * bool)) (j : nat)
    : option (Polygon * gset nat * bool) :=
  match st with
  | None => None
  | Some (poly_i, used_indices, merged_any) =>
      if decide (j ∈ used_indices) then st
      else
        match partitions !! j with
        | None => None
        | Some poly_j =>
            match try_merge poly_i poly_j tolerance with
            | None => None
            | Some Skip => st
            | Some (Merged candidate_union) =>
                Some (candidate_union, {[j]} ∪ used_indices, true)
            end
        end
  end.

(** State of the outer loop: [(new_partitions, used_indices, merged_any)]. *)
Definition merge_outer (partitions : list Polygon) (tolerance : Q)
    (st : option (list Polygon * gset nat * bool)) (i : nat)
    : option (list Polygon * gset nat * bool) :=
  match st with
  | None => None
  | Some (new_partitions, used_indices, merged_any) =>
      if decide (i ∈ used_indices) then st
      else
        match partitions !! i with
        | None => None
        | Some poly_i =>
            match
              fold_left (merge_inner partitions tolerance)
                (seq (S i) (length partitions - S i))
                (Some (poly_i, used_indices, merged_any))
            with
            | None => None
            | Some (poly_i', used_indices', merged_any') =>
                Some (new_partitions ++ [poly_i'], {[i]} ∪ used_indices', merged_any')
            end
        end
  end.

(** One iteration of [while merged_any]: the new list and the flag. *)
Definition merge_pass (partitions : list Polygon) (tolerance : Q)
    : option (list Polygon * bool) :=
  match
    fold_left (merge_outer partitions tolerance)
      (seq 0 (length partitions)) (Some ([], ∅, false))
  with
  | None => None
  | Some (new_partitions, _, merged_any) => Some (new_partitions, merged_any)
  end.

(** The [while] loop.  A pass that merges shortens the list, so
    [length partitions + 1] iterations are enough
    (see [merge_partitions_fixpoint]). *)
Fixpoint merge_loop (fuel : nat) (partitions : list Polygon) (tolerance : Q)
    : option (list Polygon) :=
  match fuel with
  | O => Some partitions
  | S fuel' =>
      match merge_pass partitions tolerance with
      | None => None
      | Some (new_partitions, merged_any) =>
          if merged_any then merge_loop fuel' new_partitions tolerance
          else Some new_partitions
      end
  end.

(** The partitions [merge_partitions] returns ([merge_log] left out);
    [None] when a pass raised. *)
Definition merge_partitions (partitions : list Polygon) (tolerance : Q)
    : option (list Polygon) :=
  merge_loop (S (length partitions)) partitions tolerance.
End Merge.

(** ** [utils/helpers.py] *)

Section Helpers.
Context {M : Libm} {K : Shapely}.

(** [(theta + pi) % (2 * pi) - pi], with Python's float [%] *)
Definition normalize_angle (dtheta : Q) : Q :=
  let m := 2 * pi in
  let x := dtheta + pi in
  (x - m * inject_Z (Qfloor (x / m))) - pi.

Definition count_turns (path : list Point2D) : Z :=
  if (length path <? 3)%nat then 0%Z
  else
    let orientations :=
      map (fun '(a, b) => atan2 (snd b - snd a) (fst b - fst a)) (consecutive path) in
    fold_left
      (fun turn_count '(o1, o2) =>
         let dtheta := normalize_angle (o2 - o1) in
         if Qltb (1 # 10000000) (Qabs dtheta) then (turn_count + 1)%Z else turn_count)
      (consecutive orientations) 0%Z.

Definition get_cell_polygon (cell_id : CellID) (cell_size : Q) : Polygon :=
  let '(row, col) := cell_id in
  let x0 := inject_Z col * cell_size in
  let y0 := inject_Z row * cell_size in
  let x1 := inject_Z (col + 1) * cell_size in
  let y1 := inject_Z (row + 1) * cell_size in
  Polygon_of [(x0, y0); (x1, y0); (x1, y1); (x0, y1)].

(** [cell_poly.intersection(part_poly).area] *)
Definition overlap (cell_poly part_poly : Polygon) : Q :=
  area (intersection cell_poly part_poly).

(** The inner loop of [distribute_cells_to_subclusters]:
    [(best_idx, best_area)] after all partitions. *)
Definition best_partition (cell_poly : Polygon) (partition_polygons : list Polygon)
    : option nat * Q :=
  fold_left
    (fun '(best_idx, best_area) '(idx, part_poly) =>
       if polygon_is_empty part_poly then (best_idx, best_area)
       else
         let a := overlap cell_poly part_poly in
         if Qltb best_area a then (Some idx, a) else (best_idx, best_area))
    (enumerate partition_polygons) (None, 0).

Definition distribute_cells_to_subclusters (cell_ids : list CellID) (cell_size : Q)
    (partition_polygons : list Polygon) : gmap nat (list CellID) :=
  let out : gmap nat (list CellID) :=
    list_to_map (map (fun i => (i, [])) (seq 0 (length partition_polygons))) in
  if null cell_ids || null partition_polygons then out
  else
    fold_left
      (fun (out : gmap nat (list CellID)) cell_id =>
         let cell_poly := get_cell_polygon cell_id cell_size in
         match fst (best_partition cell_poly partition_polygons) with
         | Some best_idx => alter (fun cells => cells ++ [cell_id]) best_idx out
         | None => out
         end)
      cell_ids out.

End Helpers.

(** ** [parallel_track.py] *)

Section ParallelTrack.
Context {M : Libm} {K : Shapely}.

(** [p[axis_index]] for the indices 0 and 1 the package uses *)
Definition coord (axis_index : nat) (p : Point2D) : Q :=
  match axis_index with
  | O => fst p
  | _ => snd p
  end.

Definition compute_cell_spacing (waypoints : list Point2D) (axis_index : nat) : Q :=
  let epsilon := 1 # 1000000 in
  let coords := sorted_by (fun x => x) false (map (coord axis_index) waypoints) in
  let diffs :=
    List.filter (fun d => Qltb epsilon d)
      (map (fun '(a, b) => b - a) (consecutive coords)) in
  if null diffs then 0 else median diffs.

Definition group_into_lanes (waypoints : list Point2D) (axis_index : nat) (spacing : Q)
    : gmap Z (list Point2D) :=
  match waypoints with
  | [] => ∅
  | p0 :: rest =>
      let min_val := fold_left Qmin (map (coord axis_index) rest) (coord axis_index p0) in
      if Qeq_bool spacing 0 then {[ 0%Z := waypoints ]}
      else
        fold_left
          (fun (lanes : gmap Z (list Point2D)) p =>
             let key := py_round ((coord axis_index p - min_val) / spacing) in
             <[ key := default [] (lanes !! key) ++ [p] ]> lanes)
          waypoints ∅
  end.

Definition compute_sweep_path (waypoints : list Point2D) (bin_axis sort_axis : nat)
    (reverse_bin_order reverse_lane_order : bool) : list Point2D :=
  let spacing := compute_cell_spacing waypoints bin_axis in
  let lanes := group_into_lanes waypoints bin_axis spacing in
  let ordered_keys := sorted_keys reverse_bin_order (map fst (map_to_list lanes)) in
  fold_left
    (fun path '(i, key) =>
       let lane := default [] (lanes !! key) in
       let even_lane_should_ascend :=
         (Nat.even i && negb reverse_lane_order) || (Nat.odd i && reverse_lane_order) in
       path ++ sorted_by (coord sort_axis) (negb even_lane_should_ascend) lane)
    (enumerate ordered_keys) [].

Definition euclidean_distance (p1 p2 : Point2D) : Q :=
  sqrt ((fst p1 - fst p2) ^ 2 + (snd p1 - snd p2) ^ 2).

Definition total_path_length (path : list Point2D) : Q :=
  fold_left (fun len '(a, b) => len + euclidean_distance a b) (consecutive path) 0.

Definition corner_variants_for_direction (waypoints : list Point2D)
    (bin_axis sort_axis : nat) : list (list Point2D) :=
  [ compute_sweep_path waypoints bin_axis sort_axis false false;
    compute_sweep_path waypoints bin_axis sort_axis false true;
    compute_sweep_path waypoints bin_axis sort_axis true false;
    compute_sweep_path waypoints bin_axis sort_axis true true ].

(** "Decide allowed orientations": [(horizontal_ok, vertical_ok)];
    [if polygon] is false for [None] and for an empty polygon. *)
Definition allowed_orientations (polygon : option Polygon) : bool * bool :=
  match polygon with
  | Some p =>
      if polygon_is_empty p then (true, true)
      else
        let '(h_trouble, v_trouble) := is_polygon_troublesome p 1 in
        (negb h_trouble, negb v_trouble)
  | None => (true, true)
  end.

Definition candidate_paths (waypoints : list Point2D) (polygon : option Polygon)
    : list (list Point2D) :=
  let '(horizontal_ok, vertical_ok) := allowed_orientations polygon in
  (if horizontal_ok || (negb horizontal_ok && negb vertical_ok)
   then corner_variants_for_direction waypoints 0 1 else [])
  ++
  (if vertical_ok || (negb vertical_ok && negb horizontal_ok)
   then corner_variants_for_direction waypoints 1 0 else []).

(** "Convert each path to a CandidateOption"; empty paths are skipped. *)
Definition to_candidate_options (paths : list (list Point2D)) : list CandidateOption :=
  flat_map
    (fun path =>
       match path with
       | [] => []
       | entry :: _ =>
           [ {| entry := entry;
                exit := List.last path entry;
                cost := total_path_length path;
                turns := count_turns path;
                path := Some path |} ]
       end)
    paths.

Definition get_candidate_options (waypoints : list Point2D) (polygon : option Polygon)
    : list CandidateOption :=
  to_candidate_options (candidate_paths waypoints polygon).
End ParallelTrack.

(** ** A concrete kernel for the examples

    Exact on the inputs the examples below use: rectilinear polygons met
    by axis-parallel lines through none of their vertices, and
    axis-parallel rectangles that are disjoint, overlap, or share a whole
    side. *)

Definition polygon_edges (p : Polygon) : list (Point2D * Point2D) :=
  flat_map consecutive (exterior p :: interiors p).

Definition strictly_between (c a b : Q) : bool :=
  Qltb (Qmin a b) c && Qltb c (Qmax a b).

Definition within (c a b : Q) : bool :=
  Qle_bool (Qmin a b) c && Qle_bool c (Qmax a b).

(** The edges of the rings that cross an axis-parallel line. *)
Definition rect_boundary_cut (p : Polygon) (l : Line) : Geom :=
  let '((x1, y1), (x2, y2)) := l in
  if Qeq_bool y1 y2 then
    GMultiPoint
      (flat_map
         (fun '((ax, ay), (cx, cy)) =>
            if Qeq_bool ax cx && strictly_between y1 ay cy && within ax x1 x2
            then [(ax, y1)] else [])
         (polygon_edges p))
  else if Qeq_bool x1 x2 then
    GMultiPoint
      (flat_map
         (fun '((ax, ay), (cx, cy)) =>
            if Qeq_bool ay cy && strictly_between x1 ax cx && within ay y1 y2
            then [(x1, ay)] else [])
         (polygon_edges p))
  else GMultiPoint [].

Definition rectangle (minx miny maxx maxy : Q) : Polygon :=
  Polygon_of [(minx, miny); (maxx, miny); (maxx, maxy); (minx, maxy)].

Definition covers (outer inner : Q * Q * Q * Q) : bool :=
  let '(ox0, oy0, ox1, oy1) := outer in
  let '(ix0, iy0, ix1, iy1) := inner in
  Qle_bool ox0 ix0 && Qle_bool oy0 iy0 && Qle_bool ix1 ox1 && Qle_bool iy1 oy1.

(** Intersection with a rectangle: the other polygon itself when the
    rectangle covers it, else the overlap of the bounding rectangles: a
    rectangle, a side, a corner or nothing. *)
Definition rect_intersection (a b : Polygon) : Geom :=
  let '(ax0, ay0, ax1, ay1) := bounds a in
  let '(cx0, cy0, cx1, cy1) := bounds b in
  let x0 := Qmax ax0 cx0 in
  let x1 := Qmin ax1 cx1 in
  let y0 := Qmax ay0 cy0 in
  let y1 := Qmin ay1 cy1 in
  if polygon_is_empty a || polygon_is_empty b || Qltb x1 x0 || Qltb y1 y0
  then GPolygon (mkPolygon [] [])
  else if null (interiors b) && covers (bounds b) (bounds a) then GPolygon a
  else if null (interiors a) && covers (bounds a) (bounds b) then GPolygon b
  else if Qeq_bool x0 x1 && Qeq_bool y0 y1 then GPoint (x0, y0)
  else if Qeq_bool x0 x1 || Qeq_bool y0 y1 then GLineString [(x0, y0); (x1, y1)]
  else GPolygon (rectangle x0 y0 x1 y1).

(** The common part of the outlines of two rectangles whose interiors are
    disjoint. *)
Definition rect_shared_boundary (a b : Polygon) : Geom :=
  match rect_intersection a b with
  | GLineString cs => GLineString cs
  | GPoint p => GPoint p
  | _ => GCollection []
  end.

(** Two rectangles that share a whole side merge into their bounding
    rectangle; any other pair is reported as a multi-polygon. *)
Definition rect_union (g1 g2 : Geom) : Geom :=
  match g1, g2 with
  | GPolygon a, GPolygon b =>
      let '(ax0, ay0, ax1, ay1) := bounds a in
      let '(cx0, cy0, cx1, cy1) := bounds b in
      let same_rows := Qeq_bool ay0 cy0 && Qeq_bool ay1 cy1 in
      let same_cols := Qeq_bool ax0 cx0 && Qeq_bool ax1 cx1 in
      if (same_rows && (Qeq_bool ax1 cx0 || Qeq_bool cx1 ax0))
         || (same_cols && (Qeq_bool ay1 cy0 || Qeq_bool cy1 ay0))
      then GPolygon (rectangle (Qmin ax0 cx0) (Qmin ay0 cy0) (Qmax ax1 cx1) (Qmax ay1 cy1))
      else GMultiPolygon [a; b]
  | _, _ => GCollection [g1; g2]
  end.

(** A rectangle cut by an axis-parallel line strictly inside it falls in
    two; a line that misses leaves the polygon whole. *)
Definition rect_split (p : Polygon) (l : Line) : option (list Geom) :=
  let '(minx, miny, maxx, maxy) := bounds p in
  let '((x1, y1), (x2, y2)) := l in
  if null (interiors p) && Qeq_bool y1 y2 && strictly_between y1 miny maxy then
    Some [GPolygon (rectangle minx miny maxx y1); GPolygon (rectangle minx y1 maxx maxy)]
  else if null (interiors p) && Qeq_bool x1 x2 && strictly_between x1 minx maxx then
    Some [GPolygon (rectangle minx miny x1 maxy); GPolygon (rectangle x1 miny maxx maxy)]
  else Some [GPolygon p].

(** Shoelace formula of a closed ring, without the sign. *)
Definition ring_area (ring : list Point2D) : Q :=
  Qabs (Qsum (map (fun '((ax, ay), (cx, cy)) => ax * cy - cx * ay) (consecutive ring))) / 2.

Definition polygon_area (p : Polygon) : Q :=
  ring_area (exterior p) - Qsum (map ring_area (interiors p)).

Definition rect_area (g : Geom) : Q :=
  match g with
  | GPolygon p => polygon_area p
  | GMultiPolygon ps => Qsum (map polygon_area ps)
  | _ => 0
  end.

(** Length of a polyline with axis-parallel segments. *)
Definition rect_line_length (cs : list Point2D) : Q :=
  Qsum (map (fun '((ax, ay), (cx, cy)) => Qabs (cx - ax) + Qabs (cy - ay)) (consecutive cs)).

Definition rect_kernel : Shapely :=
  {| boundary_cut := rect_boundary_cut;
     shared_boundary := rect_shared_boundary;
     intersection := rect_intersection;
     union := rect_union;
     split := rect_split;
     area := rect_area;
     line_length := rect_line_length |}.

(** Stand-ins for libm that are exact on axis-parallel directions and on
    squares of integers. *)
Definition grid_sqrt (q : Q) : Q :=
  inject_Z (Z.sqrt (Qnum q * Zpos (Qden q))) / inject_Z (Zpos (Qden q)).

Definition grid_pi : Q := 355 # 113.

Definition grid_atan2 (dy dx : Q) : Q :=
  if Qltb 0 dx then (if Qeq_bool dy 0 then 0 else if Qltb 0 dy then grid_pi / 4 else - (grid_pi / 4))
  else if Qltb dx 0 then (if Qeq_bool dy 0 then grid_pi else if Qltb 0 dy then 3 * grid_pi / 4 else - (3 * grid_pi / 4))
  else if Qltb 0 dy then grid_pi / 2
  else if Qltb dy 0 then - (grid_pi / 2)
  else 0.

Definition grid_libm : Libm :=
  {| sqrt := grid_sqrt;
     hypot := fun a b => grid_sqrt (a * a + b * b);
     atan2 := grid_atan2;
     pi := grid_pi |}.

(** *** Example inputs *)

(** The rectangle of scenario S1. *)
Definition rect_10x4 : Polygon := rectangle 0 0 10 4.

(** A 10 by 10 square with the unit hole [1,2] x [1,2]. *)
Definition square_with_hole : Polygon :=
  mkPolygon [(0, 0); (10, 0); (10, 10); (0, 10); (0, 0)]
            [[(1, 1); (1, 2); (2, 2); (2, 1); (1, 1)]].

(** Two 3 by 3 squares side by side. *)
Definition left_square : Polygon := rectangle 0 0 3 3.
Definition right_square : Polygon := rectangle 3 0 6 3.

(** * Specifications and example inputs *)

(** The candidates of [partition] whose cost is within [tol] of [cand]'s. *)
Definition same_cost (tol : Q) (cand c : CandidateOption) : Prop :=
  Qabs (cost c - cost cand) < tol.

(** [m] is the least turn count among the candidates of equal cost. *)
Definition is_min_turns (tol : Q) (partition : list CandidateOption)
    (cand : CandidateOption) (m : Z) : Prop :=
  (exists c, In c partition /\ same_cost tol cand c /\ turns c = m) /\
  (forall c, In c partition -> same_cost tol cand c -> (m <= turns c)%Z).

Definition two_candidates : list (list CandidateOption) :=
  [[ mkCandidateOption (0, 0) (1, 1) 5 2 None;
     mkCandidateOption (0, 1) (1, 0) 5 4 None ]].


(** The "U" of scenario S2. *)
Definition u_shape : Polygon :=
  mkPolygon
    [(0, 0); (10, 0); (10, 10); (6, 10); (6, 4); (4, 4); (4, 10); (0, 10); (0, 0)] [].

(** Cell centres of a 2 by 2 block. *)
Definition four_waypoints : list Point2D :=
  [(1 # 2, 1 # 2); (3 # 2, 1 # 2); (1 # 2, 3 # 2); (3 # 2, 3 # 2)].

Section GreedySpec.
Context {K : Shapely}.

(** What holds of a piece returned by a call at depth [d]: it is not
    troublesome in both axes, or the call found no cut that splits it. *)
Definition settled (tolerance : Q) (pd : Polygon * nat) : Prop :=
  is_polygon_troublesome (fst pd) tolerance <> (true, true) \/
  exists pass, cut_polygon (fst pd) (snd pd) tolerance = Some (NoCut pass).

Definition piece_ok (tolerance : Q) (max_depth : nat) (pd : Polygon * nat) : Prop :=
  (snd pd <= max_depth)%nat /\ ((snd pd < max_depth)%nat -> settled tolerance pd).
End GreedySpec.

Section DistributionSpec.
Context {K : Shapely}.

(** [cell] is in the list of partition [idx]. *)
Definition assigned (out : gmap nat (list CellID)) (idx : nat) (cell : CellID) : Prop :=
  exists cells, out !! idx = Some cells /\ In cell cells.

(** Partition [idx] has the largest overlap with the cell, a positive
    one, and is the first such partition. *)
Definition max_overlap_first (cell_size : Q) (partition_polygons : list Polygon)
    (cell : CellID) (idx : nat) : Prop :=
  exists part,
    partition_polygons !! idx = Some part /\
    0 < overlap (get_cell_polygon cell cell_size) part /\
    (forall j pj, partition_polygons !! j = Some pj ->
       overlap (get_cell_polygon cell cell_size) pj
       <= overlap (get_cell_polygon cell cell_size) part) /\
    (forall j pj, partition_polygons !! j = Some pj -> (j < idx)%nat ->
       overlap (get_cell_polygon cell cell_size) pj
       < overlap (get_cell_polygon cell cell_size) part).

(** What the geometry library guarantees of an overlap area: it is not
    negative, and it is zero when the partition polygon is empty. *)
Definition overlap_sane (cell_poly part_poly : Polygon) : Prop :=
  0 <= overlap cell_poly part_poly /\
  (polygon_is_empty part_poly = true -> overlap cell_poly part_poly == 0).

Definition best_step (cell_poly : Polygon) (acc : option nat * Q)
    (ip : nat * Polygon) : option nat * Q :=
  let '(best_idx, best_area) := acc in
  let '(idx, part_poly) := ip in
  if polygon_is_empty part_poly then (best_idx, best_area)
  else
    let a := overlap cell_poly part_poly in
    if Qltb best_area a then (Some idx, a) else (best_idx, best_area).

(** The loop invariant of the search for the best partition. *)
Definition best_inv (cell_poly : Polygon) (parts : list Polygon)
    (acc : option nat * Q) : Prop :=
  (forall j pj, parts !! j = Some pj -> polygon_is_empty pj = false ->
                overlap cell_poly pj <= snd acc) /\
  match fst acc with
  | None => snd acc == 0
  | Some i =>
      exists part,
        parts !! i = Some part /\ polygon_is_empty part = false /\
        snd acc = overlap cell_poly part /\ 0 < snd acc /\
        (forall j pj, parts !! j = Some pj -> polygon_is_empty pj = false ->
                      (j < i)%nat -> overlap cell_poly pj < snd acc)
  end.

(** The partition a cell goes to. *)
Definition target (cell_size : Q) (parts : list Polygon) (cell : CellID) : option nat :=
  fst (best_partition (get_cell_polygon cell cell_size) parts).
End DistributionSpec.

(** The state of the outer loop before index [k]. *)
Definition outer_inv (partitions : list Polygon) (k : nat)
    (st : list Polygon * gset nat * bool) : Prop :=
  let '(new_partitions, used_indices, merged_any) := st in
  (forall x, x ∈ used_indices -> (x < length partitions)%nat) /\
  (forall x, (x < k)%nat -> x ∈ used_indices) /\
  (length new_partitions <= size used_indices)%nat /\
  (merged_any = true -> (length new_partitions < size used_indices)%nat) /\
  (merged_any = false ->
   new_partitions = take k partitions /\ forall x, x ∈ used_indices -> (x < k)%nat).


(** Cells of the two squares and one cell outside both. *)
Definition some_cells : list CellID := [(0, 0); (0, 3); (1, 2); (0, 7)]%Z.

(** One iteration of a loop that keeps the first strict minimum: [tot],
    [key] and [sub] read the total, the pair and the rest of the path off
    the loop variable. *)
Definition relax_step {X : Type} (tot : X -> float_inf) (key : X -> nat * nat)
    (sub : X -> option Tour) (best : dp_result) (x : X) : dp_result :=
  relax best (tot x) (key x) (sub x).

Section HeldKarpSpec.
Context {M : Libm}.
Variable candidate_options : list (list CandidateOption).

(** The pairs [(j, cand_idx)] with their candidate, in the order in which
  the two nested [for] loops meet them; [skip] tells the partitions the
  loop passes over. *)
Definition choices (skip : nat -> bool) : list (nat * nat * CandidateOption) :=
flat_map
  (fun j =>
     if skip j then []
     else map (fun kc => (j, fst kc, snd kc)) (enumerate (nth j candidate_options [])))
  (seq 0 (N_parts candidate_options)).

(** No bit at or above [N] is set. *)
Definition mask_ok (mask : Z) : Prop :=
forall n : Z, (Z.of_nat (N_parts candidate_options) <= n)%Z -> Z.testbit mask n = false.

(** The partitions a mask leaves to visit. *)
Definition unvisited (mask : Z) : list nat :=
List.filter (fun j => negb (bit_set mask j)) (seq 0 (N_parts candidate_options)).

(** [t] visits every partition that [mask] leaves, once, with one of its
  candidates. *)
Definition completes (mask : Z) (t : Tour) : Prop :=
List.NoDup (map fst t) /\
Forall (valid_choice candidate_options) t /\
(forall j, (j < N_parts candidate_options)%nat ->
           bit_set mask j = false <-> In j (map fst t)).

(** One iteration of the loops of [dp], on a flattened choice. *)
Definition dp_choice (fuel : nat) (mask : Z) (prev_cand : CandidateOption)
  (x : nat * nat * CandidateOption) : dp_result :=
let '(j, k, c) := x in
dp candidate_options fuel (Z.lor mask (Z.shiftl 1 (Z.of_nat j))) j k.

Definition dp_total (fuel : nat) (mask : Z) (prev_cand : CandidateOption)
  (x : nat * nat * CandidateOption) : float_inf :=
finf_add (connector prev_cand (snd x) + cost (snd x))
         (fst (dp_choice fuel mask prev_cand x)).

(** The call of [dp] the top-level loop makes for a choice. *)
Definition top_choice (x : nat * nat * CandidateOption) : dp_result :=
let '(i, k, _) := x in
dp candidate_options (N_parts candidate_options) (Z.shiftl 1 (Z.of_nat i)) i k.
End HeldKarpSpec.

(** Three candidates in two partitions. *)
Definition two_partitions : list (list CandidateOption) :=
  [ [ mkCandidateOption (0, 0) (2, 0) 5 2 None;
      mkCandidateOption (2, 0) (0, 0) 5 4 None ];
    [ mkCandidateOption (3, 0) (5, 0) 4 1 None ] ].

(** * Further specifications *)

(** The list is in ascending order of [key]. *)
Definition ascending {A : Type} (key : A -> Q) (l : list A) : Prop :=
  Sorted (fun a b => key a <= key b) l.

(** What a candidate records of the sweep path [p] it was built from. *)
Definition candidate_of {M : Libm} (c : CandidateOption) (p : list Point2D) : Prop :=
  path c = Some p /\
  (exists first rest, p = first :: rest /\ entry c = first /\ exit c = List.last p first) /\
  cost c = total_path_length p /\
  turns c = count_turns p.

(** The line is horizontal or vertical. *)
Definition axis_parallel (l : Line) : Prop :=
  snd (fst l) = snd (snd l) \/ fst (fst l) = fst (snd l).

Section PassSpec.
Context {K : Shapely}.

(** What a record of [passes] says: it was made at a depth in
    [lo, hi), on a polygon that is troublesome in both axes, with the
    metrics of that polygon, and its cut line, if any, is axis-parallel. *)
Definition pass_ok (tolerance : Q) (lo hi : nat) (pr : PassRecord) : Prop :=
  (lo <= pass_depth pr < hi)%nat /\
  is_polygon_troublesome (subject_polygon pr) tolerance = (true, true) /\
  metrics pr = quantify_gap_severity (subject_polygon pr) tolerance Exterior /\
  (forall l, cut_line pr = Some l -> axis_parallel l).

Definition pass_of (out : CutOutcome) : PassRecord :=
  match out with
  | NoCut pass => pass
  | Cut pass _ => pass
  end.
End PassSpec.

Section ProvenanceSpec.
Context {K : Shapely}.

(** The piece is one of the polygons the partitioner recursed on after
    the pass [pr]: a polygon of the split of the polygon of [pr] along its
    recorded cut line. *)
Definition split_piece (pr : PassRecord) (piece : Polygon) : Prop :=
  exists line splitted,
    cut_line pr = Some line /\
    split (subject_polygon pr) line = Some splitted /\
    (1 < length splitted)%nat /\
    In piece (recursion_targets splitted).

Definition from_split (passes : list PassRecord) (piece : Polygon) : Prop :=
  exists pr, In pr passes /\ split_piece pr piece.
End ProvenanceSpec.

Section MergeSpec.
Context {K : Shapely}.

(** No pair of the list passes the merge test. *)
Definition unmergeable (tolerance : Q) (partitions : list Polygon) : Prop :=
  forall (i j : nat) (poly_i poly_j : Polygon),
    (i < j)%nat -> partitions !! i = Some poly_i -> partitions !! j = Some poly_j ->
    try_merge poly_i poly_j tolerance = Some Skip.
End MergeSpec.

(** ** The rasterizer ([utils/helpers.py]) *)

(** [range(a, b)] *)
Definition zrange (a b : Z) : list Z :=
  map (fun i => (a + Z.of_nat i)%Z) (seq 0 (Z.to_nat (b - a))).

(** [cells_inside_polygon_ids]; [intersects] is the geometry library's
    [square.intersects(polygon_border)]; [None] is the [ValueError] for a
    cell size that is not positive. *)
Definition cells_inside_polygon_ids (intersects : Polygon -> Polygon -> bool)
    (polygon_border : option Polygon) (cell_size : Q) : option (list CellID) :=
  if Qle_bool cell_size 0 then None
  else
    match polygon_border with
    | None => Some []
    | Some border =>
        if polygon_is_empty border then Some []
        else
          let '(min_x, min_y, max_x, max_y) := bounds border in
          let col_min := Qfloor (min_x / cell_size) in
          let row_min := Qfloor (min_y / cell_size) in
          let col_max := Qceiling (max_x / cell_size) in
          let row_max := Qceiling (max_y / cell_size) in
          Some
            (flat_map
               (fun row =>
                  flat_map
                    (fun col =>
                       if intersects (get_cell_polygon (row, col) cell_size) border
                       then [(row, col)] else [])
                    (zrange col_min col_max))
               (zrange row_min row_max))
    end.

(** The open square of a cell meets the open extent of the box
    [(min_x, min_y, max_x, max_y)] in both directions. *)
Definition cell_meets_box (cell_size : Q) (box : Q * Q * Q * Q) (cell : CellID) : Prop :=
  let '(min_x, min_y, max_x, max_y) := box in
  let '(row, col) := cell in
  min_x < inject_Z (col + 1) * cell_size /\ inject_Z col * cell_size < max_x /\
  min_y < inject_Z (row + 1) * cell_size /\ inject_Z row * cell_size < max_y.

(** ** Path assembly ([run.py], the end of [run_pipeline]) *)

(** [path_options[part_idx][cand_idx]]; [None] is the [IndexError]. *)
Definition candidate_at (path_options : list (list CandidateOption)) (pc : nat * nat)
    : option CandidateOption :=
  match path_options !! fst pc with
  | Some partition => partition !! snd pc
  | None => None
  end.

(** [p == q] on tuples of floats *)
Definition same_point (p q : Point2D) : bool :=
  Qeq_bool (fst p) (fst q) && Qeq_bool (snd p) (snd q).

(** One iteration of the loop over [enumerate(best_path)]: the state is
    [(global_path, global_connectors)]; [None] is an exception (an index
    out of range, a candidate without path, [path[0]] or
    [global_path[-1]] of an empty list). *)
Definition assemble_step (path_options : list (list CandidateOption)) (best_path : Tour)
    (st : option (list Point2D * list (Point2D * Point2D)))
    (item : nat * (nat * nat)) : option (list Point2D * list (Point2D * Point2D)) :=
  let '(idx, pc) := item in
  match st with
  | None => None
  | Some (global_path, global_connectors) =>
      match candidate_at path_options pc with
      | None => None
      | Some candidate =>
          match path candidate with
          | None => None
          | Some cpath =>
              let extended :=
                if (idx =? 0)%nat then Some (global_path ++ cpath)
                else
                  match cpath, rev global_path with
                  | first :: rest, last_point :: _ =>
                      if same_point first last_point
                      then Some (global_path ++ rest)
                      else Some (global_path ++ cpath)
                  | _, _ => None
                  end in
              match extended with
              | None => None
              | Some global_path' =>
                  if (0 <? idx)%nat then
                    match best_path !! (idx - 1)%nat with
                    | None => None
                    | Some prev_pc =>
                        match candidate_at path_options prev_pc with
                        | None => None
                        | Some prev_candidate =>
                            Some (global_path',
                                  global_connectors
                                  ++ [(exit prev_candidate, entry candidate)])
                        end
                    end
                  else Some (global_path', global_connectors)
              end
          end
      end
  end.

(** [(global_path, global_connectors)] from the result of [held_karp];
    iterating over [best_path = None] raises. *)
Definition assemble_global_path (path_options : list (list CandidateOption))
    (best_path : option Tour) : option (list Point2D * list (Point2D * Point2D)) :=
  match best_path with
  | None => None
  | Some tour =>
      fold_left (assemble_step path_options tour) (enumerate tour) (Some ([], []))
  end.

(** The candidate carries a path with at least one point. *)
Definition has_path (c : CandidateOption) : Prop :=
  exists first rest, path c = Some (first :: rest).

(** ** Rings of the polygon store ([picklestore.py]) *)

(** [_strip_closure]: the closing point of a ring is dropped; [float(x)]
    is the identity of the model. *)
Definition _strip_closure (coords : list Point2D) : list Point2D :=
  match coords with
  | first :: _ :: _ =>
      if same_point first (List.last coords first) then removelast coords else coords
  | _ => coords
  end.

(** [shapely_to_outer_holes] *)
Definition shapely_to_outer_holes (poly : Polygon) : list Point2D * list (list Point2D) :=
  (_strip_closure (exterior poly), map _strip_closure (interiors poly)).

(** The path passes through the point (up to equality of coordinates). *)
Definition visits (global_path : list Point2D) (p : Point2D) : Prop :=
  exists q, In q global_path /\ same_point p q = true.

(** ** The pipeline ([run.py]) *)

(** [path_options] after the loop of [run_pipeline], from the arguments
    [(cell_list, polygon)] of its calls of [get_candidate_options]. *)
Definition path_options_of {M : Libm} {K : Shapely}
    (subclusters : list (list Point2D * option Polygon)) : list (list CandidateOption) :=
  map (fun wp => get_candidate_options (fst wp) (snd wp)) subclusters.

(** A cell id used as a waypoint: [run_pipeline] passes the lists of
    cells [(row, col)] to [get_candidate_options] as they are, so that
    coordinate 0 of a waypoint is the row and coordinate 1 the column. *)
Definition cell_point (cell : CellID) : Point2D :=
  (inject_Z (fst cell), inject_Z (snd cell)).

(** The arguments of the calls of [get_candidate_options] in the loop
    over [subcluster.items()].  The keys of the dictionary were inserted as
    [range(len(partition_polygons))], which is the order of the loop; an
    empty cell list is skipped with a warning. *)
Definition subcluster_waypoints (subcluster : gmap nat (list CellID))
    (merged_partitions : list Polygon) : list (list Point2D * option Polygon) :=
  flat_map
    (fun subcluster_id =>
       match subcluster !! subcluster_id, merged_partitions !! subcluster_id with
       | Some cell_list, Some polygon =>
           if null cell_list then [] else [(map cell_point cell_list, Some polygon)]
       | _, _ => []
       end)
    (seq 0 (length merged_partitions)).

(** [run_pipeline], the value it returns: [decomposition], [save_path]
    and [store] are not used for it, and the plot is left out.  [None] is
    an exception of one of the steps. *)
Definition run_pipeline {M : Libm} {K : Shapely} (intersects : Polygon -> Polygon -> bool)
    (poly : Polygon) : option (list Point2D) :=
  let cell_size := 1 in
  let max_depth := 40%nat in
  match greedy_partition poly max_depth 1 with
  | None => None
  | Some (partitions, details) =>
      match merge_partitions partitions (1 # 1000000) with
      | None => None
      | Some merged_partitions =>
          match cells_inside_polygon_ids intersects (Some poly) cell_size with
          | None => None
          | Some cell_ids =>
              let subcluster :=
                distribute_cells_to_subclusters cell_ids cell_size merged_partitions in
              let path_options :=
                path_options_of (subcluster_waypoints subcluster merged_partitions) in
              let best_path := snd (held_karp path_options) in
              match assemble_global_path path_options best_path with
              | None => None
              | Some (global_path, global_connectors) => Some global_path
              end
          end
      end
  end.

(** ** The command line ([run.py], the block under [__main__]) *)

Import Ascii.AsciiSyntax String.StringSyntax.
Delimit Scope char_scope with char.
Delimit Scope string_scope with string.

(** [s.split(sep)] for a separator of one character: the pieces between
    the separators, empty ones included. *)
Fixpoint str_split (sep : Ascii.ascii) (s : String.string) : list String.string :=
  match s with
  | String.EmptyString => [String.EmptyString]
  | String.String c rest =>
      if Ascii.eqb c sep then String.EmptyString :: str_split sep rest
      else
        match str_split sep rest with
        | piece :: pieces => String.String c piece :: pieces
        | [] => [String.String c String.EmptyString]
        end
  end.

(** [n in valid_names] *)
Definition name_in (n : String.string) (valid_names : list String.string) : bool :=
  existsb (String.eqb n) valid_names.

(** The names [include] the loop over the polygons runs through:
    [polygon_args] is [args.polygon] ([None] without the option),
    [valid_names] the names of the store. *)
Definition include (polygon_args : option (list String.string))
    (valid_names : list String.string) : list String.string :=
  match polygon_args with
  | Some ((_ :: _) as toks) =>
      let include :=
        flat_map
          (fun tok =>
             List.filter (fun x => negb (String.eqb x String.EmptyString))
                         (str_split ","%char tok))
          toks in
      let include := List.filter (fun n => name_in n valid_names) include in
      if null include then valid_names else include
  | _ => valid_names
  end.

(** *** Further example inputs *)

(** [a.intersects(b)] of the rectangle kernel. *)
Definition rect_intersects (a b : Polygon) : bool := negb (is_empty (rect_intersection a b)).

(** The 2 by 2 square at the origin. *)
Definition square_2x2 : Polygon := rectangle 0 0 2 2.

(** A 10 by 10 square with a notch from the top and a notch from the
    right: troublesome in both axes. *)
Definition notched_square : Polygon :=
  mkPolygon
    [(0, 0); (10, 0); (10, 1); (7, 1); (7, 2); (10, 2); (10, 10);
     (6, 10); (6, 4); (4, 4); (4, 10); (0, 10); (0, 0)] [].

(** A 3 by 3 square away from [left_square]. *)
Definition far_square : Polygon := rectangle 10 0 13 3.

(** A 2 by 2 block of cell centres and two cells further up, without
    polygons. *)
Definition two_subclusters : list (list Point2D * option Polygon) :=
  [(four_waypoints, None); (map cell_point [(5, 5); (5, 6)]%Z, None)].

(** * Binary64 arithmetic

    Where a property depends on the rounding of the float operations, the
    code is modelled once more with the rounding written out: a float is
    the rational it denotes, and an operation of the program is the exact
    operation followed by [round_binary64].  Overflow to infinity and NaN
    are left out. *)

Definition pow2 (e : Z) : Q := 2 ^ e.

(** [floor (log2 q)] of a positive rational. *)
Definition Qlog2 (q : Q) : Z :=
  let k := (Z.log2 (Qnum q) - Z.log2 (Zpos (Qden q)))%Z in
  if Qle_bool (pow2 k) q then k else (k - 1)%Z.

(** The exponent of the last of the 53 bits of the floats next to [q]
    ([-1074] for the subnormal ones). *)
Definition binary64_exponent (q : Q) : Z := Z.max (-1074) (Qlog2 (Qabs q) - 52).

(** Rounding to the grid of the floats around [q]: to the nearest, ties
    to the even one. *)
Definition round_to_grid (q : Q) : Q :=
  if Qeq_bool q 0 then 0
  else
    let e := binary64_exponent q in
    inject_Z (py_round (q / pow2 e)) * pow2 e.

(** The float nearest to [x], ties to even. *)
Definition round_binary64 (x : Q) : Q := round_to_grid (Qred x).

Module Binary64.

(** A Python number: the [penalty] is the int [1] in [held_karp] and the
    float [10] by default. *)
Inductive Number : Type :=
| PyInt (n : Z)
| PyFloat (x : Q).


(** [[c.turns for c in partition if abs(c.cost - cand.cost) < tol]] *)
Definition same_cost_turns (tol : Q) (partition : list CandidateOption)
    (cand : CandidateOption) : list Z :=
  map turns
      (List.filter (fun c => Qltb (Qabs (round_binary64 (cost c - cost cand))) tol)
                   partition).

(** One iteration of the inner loop of [adjust_candidate_options].
    [extra] is an int when the penalty is one, and is converted when it
    is added to the cost; with a float penalty the int
    [max(0, cand.turns - min_turns)] is converted for the product. *)
Definition adjust_candidate (penalty : Number) (tol : Q)
    (partition : list CandidateOption) (cand : CandidateOption) : CandidateOption :=
  let min_turns := min_or (same_cost_turns tol partition cand) (turns cand) in
  let surplus := Z.max 0 (turns cand - min_turns) in
  let extra :=
    match penalty with
    | PyInt p => round_binary64 (inject_Z (p * surplus))
    | PyFloat p => round_binary64 (p * round_binary64 (inject_Z surplus))
    end in
  {| entry := entry cand;
     exit := exit cand;
     cost := round_binary64 (cost cand + extra);
     turns := turns cand;
     path := path cand |}.

Definition adjust_candidate_options
    (candidate_options : list (list CandidateOption)) (penalty : Number) (tol : Q)
    : list (list CandidateOption) :=
  map (fun partition => map (adjust_candidate penalty tol partition) partition)
      candidate_options.

End Binary64.

(** * Properties *)

(** ** Comparisons *)

Lemma Qltb_lt (a b : Q) : Qltb a b = true <-> a < b.
Proof.
  unfold Qltb. rewrite negb_true_iff, <- not_true_iff_false, Qle_bool_iff.
  split; [apply Qnot_le_lt | apply Qlt_not_le].
Qed.

Lemma Qltb_ge (a b : Q) : Qltb a b = false <-> b <= a.
Proof.
  unfold Qltb. rewrite negb_false_iff, Qle_bool_iff. reflexivity.
Qed.

#[export] Instance Qltb_proper : Proper (Qeq ==> Qeq ==> eq) Qltb.
Proof. intros a a' Ha b b' Hb. unfold Qltb. now rewrite Ha, Hb. Qed.

(** ** The turn-penalty adjustment *)

Lemma fold_min_spec (ts : list Z) (t : Z) :
  let m := fold_left Z.min ts t in
  In m (t :: ts) /\ forall x, In x (t :: ts) -> (m <= x)%Z.
Proof.
  revert t. induction ts as [|u ts IH]; intros t; simpl.
  - split; [now left | intros x [<- | []]; lia].
  - destruct (IH (Z.min t u)) as [Hin Hle]. split.
    + destruct Hin as [Heq | Hin]; [ | now right; right].
      rewrite <- Heq. destruct (Z.min_spec t u) as [[_ ->] | [_ ->]]; auto.
    + intros x Hx.
      assert (Hm : (fold_left Z.min ts (Z.min t u) <= Z.min t u)%Z) by (apply Hle; now left).
      destruct Hx as [<- | [<- | Hx]]; [lia | lia | apply Hle; now right].
Qed.

Lemma min_or_spec (l : list Z) (d : Z) :
  l <> [] -> In (min_or l d) l /\ forall x, In x l -> (min_or l d <= x)%Z.
Proof.
  destruct l as [|t ts]; [congruence | intros _]. apply fold_min_spec.
Qed.

Lemma same_cost_turns_in (tol : Q) (partition : list CandidateOption)
    (cand : CandidateOption) (t : Z) :
  In t (same_cost_turns tol partition cand) <->
  exists c, In c partition /\ same_cost tol cand c /\ turns c = t.
Proof.
  unfold same_cost_turns, same_cost. rewrite in_map_iff. split.
  - intros (c & Ht & Hc). apply List.filter_In in Hc as [Hin Hlt].
    apply Qltb_lt in Hlt. eauto.
  - intros (c & Hin & Hlt & Ht). exists c. split; [exact Ht |].
    apply List.filter_In. split; [exact Hin | now apply Qltb_lt].
Qed.

Lemma same_cost_refl (tol : Q) (cand : CandidateOption) :
  0 < tol -> same_cost tol cand cand.
Proof.
  intros Htol. unfold same_cost.
  assert (H : cost cand - cost cand == 0) by ring.
  rewrite H. exact Htol.
Qed.

Lemma min_turns_spec (tol : Q) (partition : list CandidateOption)
    (cand : CandidateOption) :
  0 < tol -> In cand partition ->
  is_min_turns tol partition cand
    (min_or (same_cost_turns tol partition cand) (turns cand)).
Proof.
  intros Htol Hin.
  assert (Hne : same_cost_turns tol partition cand <> []).
  { intros Hnil.
    assert (Hc : In (turns cand) (same_cost_turns tol partition cand)).
    { apply same_cost_turns_in. exists cand. auto using same_cost_refl. }
    rewrite Hnil in Hc. destruct Hc. }
  destruct (min_or_spec _ (turns cand) Hne) as [Hmem Hmin]. split.
  - now apply same_cost_turns_in.
  - intros c Hc Hsame. apply Hmin, same_cost_turns_in. eauto.
Qed.

Lemma adjust_candidate_cost (penalty tol : Q) (partition : list CandidateOption)
    (cand : CandidateOption) :
  cost (adjust_candidate penalty tol partition cand) =
  cost cand
  + penalty * inject_Z (Z.max 0 (turns cand
                                 - min_or (same_cost_turns tol partition cand) (turns cand))).
Proof. reflexivity. Qed.

Lemma adjust_lookup (candidate_options : list (list CandidateOption))
    (penalty tol : Q) (i k : nat) (partition : list CandidateOption)
    (cand : CandidateOption) :
  candidate_options !! i = Some partition -> partition !! k = Some cand ->
  exists partition',
    adjust_candidate_options candidate_options penalty tol !! i = Some partition' /\
    partition' !! k = Some (adjust_candidate penalty tol partition cand).
Proof.
  intros Hi Hk. unfold adjust_candidate_options.
  exists (map (adjust_candidate penalty tol partition) partition). split.
  - change (map ?f ?l) with (f <$> l). rewrite list_lookup_fmap, Hi. reflexivity.
  - change (map ?f ?l) with (f <$> l). rewrite list_lookup_fmap, Hk. reflexivity.
Qed.

Lemma adjust_shape (candidate_options : list (list CandidateOption)) (penalty tol : Q) :
  map (@length _) (adjust_candidate_options candidate_options penalty tol)
  = map (@length _) candidate_options.
Proof.
  unfold adjust_candidate_options. rewrite map_map.
  apply map_ext. intros partition. apply length_map.
Qed.

(** C10.  [adjust_candidate_options] keeps the shape of its input and every
    field of every candidate but [cost]; the new cost is the old one plus
    [penalty * max(0, turns - m)], where [m] is the least turn count among
    the candidates of the same partition whose cost is within [tol] of this
    one's (for the default [tol = 1e-7], as for any positive one); so the
    cost does not decrease when [penalty] is not negative. *)
Theorem adjust_changes_only_cost (candidate_options : list (list CandidateOption))
    (penalty tol : Q) :
  0 < tol ->
  map (@length _) (adjust_candidate_options candidate_options penalty tol)
    = map (@length _) candidate_options /\
  forall (i k : nat) (partition : list CandidateOption) (cand : CandidateOption),
    candidate_options !! i = Some partition -> partition !! k = Some cand ->
    exists partition' cand',
      adjust_candidate_options candidate_options penalty tol !! i = Some partition' /\
      partition' !! k = Some cand' /\
      entry cand' = entry cand /\ exit cand' = exit cand /\
      turns cand' = turns cand /\ path cand' = path cand /\
      (exists m : Z,
          is_min_turns tol partition cand m /\
          cost cand' = cost cand + penalty * inject_Z (Z.max 0 (turns cand - m))) /\
      (0 <= penalty -> cost cand <= cost cand').
Proof.
  intros Htol. split; [apply adjust_shape |].
  intros i k partition cand Hi Hk.
  destruct (adjust_lookup candidate_options penalty tol i k partition cand Hi Hk)
    as (partition' & Hi' & Hk').
  exists partition', (adjust_candidate penalty tol partition cand).
  repeat split; try assumption.
  - exists (min_or (same_cost_turns tol partition cand) (turns cand)). split.
    + apply min_turns_spec; [exact Htol |].
      apply list_elem_of_In, list_elem_of_lookup. eauto.
    + apply adjust_candidate_cost.
  - intros Hpen. rewrite adjust_candidate_cost.
    set (e := Z.max 0 _).
    assert (He : 0 <= inject_Z e).
    { change 0 with (inject_Z 0). rewrite <- Zle_Qle. subst e. lia. }
    assert (Hprod : 0 <= penalty * inject_Z e) by now apply Qmult_le_0_compat.
    lra.
Qed.

(** The adjustment of [two_candidates] with the combiner's parameters. *)
Lemma adjust_changes_only_cost_witness :
  map (@length _) (adjust_candidate_options two_candidates 1 adjust_tol)
    = map (@length _) two_candidates /\
  forall (i k : nat) (partition : list CandidateOption) (cand : CandidateOption),
    two_candidates !! i = Some partition -> partition !! k = Some cand ->
    exists partition' cand',
      adjust_candidate_options two_candidates 1 adjust_tol !! i = Some partition' /\
      partition' !! k = Some cand' /\
      entry cand' = entry cand /\ exit cand' = exit cand /\
      turns cand' = turns cand /\ path cand' = path cand /\
      (exists m : Z,
          is_min_turns adjust_tol partition cand m /\
          cost cand' = cost cand + 1 * inject_Z (Z.max 0 (turns cand - m))) /\
      (0 <= 1 -> cost cand <= cost cand').
Proof.
  apply (adjust_changes_only_cost two_candidates 1 adjust_tol).
  reflexivity.
Defined.

(** ** Rounding to an int *)

Lemma py_round_near (x : Q) : Qabs (inject_Z (py_round x) - x) <= 1 # 2.
Proof.
  unfold py_round.
  pose proof (Qfloor_le x) as Hlo. pose proof (Qlt_floor x) as Hhi.
  rewrite inject_Z_plus in Hhi.
  change (inject_Z 1) with 1 in Hhi.
  set (f := Qfloor x) in *.
  apply Qabs_Qle_condition.
  destruct (Qcompare (x - inject_Z f) (1 # 2)) eqn:E.
  - apply Qeq_alt in E. destruct (Z.even f); [ | rewrite inject_Z_plus; change (inject_Z 1) with 1 ];
      split; lra.
  - apply Qlt_alt in E. split; lra.
  - apply Qgt_alt in E. rewrite inject_Z_plus. change (inject_Z 1) with 1. split; lra.
Qed.

#[export] Instance py_round_proper : Proper (Qeq ==> eq) py_round.
Proof.
  intros x y Hxy. unfold py_round. rewrite (Qfloor_comp x y Hxy).
  assert (H : x - inject_Z (Qfloor y) == y - inject_Z (Qfloor y)) by now rewrite Hxy.
  now rewrite (Qcompare_comp _ _ H (1 # 2) (1 # 2) (Qeq_refl _)).
Qed.


(** ** Rounding to a float *)


























(** The floats of 0.1 and of 2^53 + 1. *)
Lemma round_binary64_examples :
  round_binary64 (1 # 10) == 3602879701896397 # 36028797018963968 /\
  round_binary64 9007199254740993 == 9007199254740992.
Proof. split; vm_compute; reflexivity. Qed.



Lemma cand_at_lookup (candidate_options : list (list CandidateOption)) (i k : nat) :
  (i < length candidate_options)%nat ->
  (k < length (nth i candidate_options []))%nat ->
  candidate_options !! i = Some (nth i candidate_options []) /\
  nth i candidate_options [] !! k = Some (cand_at candidate_options i k).
Proof.
  intros Hi Hk. unfold cand_at. split.
  - destruct (nth_lookup_or_length candidate_options i []) as [H | H]; [exact H | lia].
  - destruct (nth_lookup_or_length (nth i candidate_options []) k default_candidate)
      as [H | H]; [exact H | lia].
Qed.



(** *** The adjustment in binary64 *)








(** ** The combiner on no partitions *)

(** C2 (what the code does).  With [N = 0] neither loop of [held_karp]
    runs: the result is the initial [(float('inf'), None)], not
    [(0, [])]. *)
Theorem held_karp_no_partitions (M : Libm) :
  @held_karp M [] = (Infinity, None).
Proof. reflexivity. Qed.

(** ** The candidate generator *)

Section CandidateGenerator.
Context {M : Libm} {K : Shapely}.

(** C5.  With a (non-empty) polygon, the corner variants of the horizontal
    axis (bin by x, sort by y) are generated exactly when the polygon is
    not horizontally troublesome or is troublesome in both axes, those of
    the vertical axis exactly when it is not vertically troublesome or is
    troublesome in both; with no polygon both axes are generated, and an
    empty polygon counts as none. *)
Theorem axis_eligibility (waypoints : list Point2D) :
  (forall p : Polygon,
      polygon_is_empty p = false ->
      let '(h_trouble, v_trouble) := is_polygon_troublesome p 1 in
      get_candidate_options waypoints (Some p) =
      to_candidate_options
        ((if negb h_trouble || (h_trouble && v_trouble)
          then corner_variants_for_direction waypoints 0 1 else [])
         ++
         (if negb v_trouble || (h_trouble && v_trouble)
          then corner_variants_for_direction waypoints 1 0 else []))) /\
  get_candidate_options waypoints None =
    to_candidate_options
      (corner_variants_for_direction waypoints 0 1
       ++ corner_variants_for_direction waypoints 1 0) /\
  (forall p : Polygon,
      polygon_is_empty p = true ->
      get_candidate_options waypoints (Some p) = get_candidate_options waypoints None).
Proof.
  split; [ | split].
  - intros p Hne.
    unfold get_candidate_options, candidate_paths, allowed_orientations.
    rewrite Hne.
    destruct (is_polygon_troublesome p 1) as [[] []]; reflexivity.
  - reflexivity.
  - intros p Hemp.
    unfold get_candidate_options, candidate_paths, allowed_orientations.
    now rewrite Hemp.
Qed.

Lemma compute_cell_spacing_singleton (p : Point2D) (axis_index : nat) :
  compute_cell_spacing [p] axis_index = 0.
Proof. reflexivity. Qed.

Lemma compute_sweep_path_singleton (p : Point2D) (bin_axis sort_axis : nat)
    (reverse_bin_order reverse_lane_order : bool) :
  compute_sweep_path [p] bin_axis sort_axis reverse_bin_order reverse_lane_order = [p].
Proof.
  unfold compute_sweep_path. rewrite compute_cell_spacing_singleton.
  unfold group_into_lanes.
  change (Qeq_bool 0 0) with true. cbv iota.
  rewrite map_to_list_singleton. cbn [map fst sorted_keys fold_right insert_by].
  cbn [enumerate length seq combine fold_left].
  rewrite lookup_singleton_eq. cbn [default].
  destruct reverse_lane_order; reflexivity.
Qed.

Lemma corner_variants_singleton (p : Point2D) (bin_axis sort_axis : nat) :
  corner_variants_for_direction [p] bin_axis sort_axis = [[p]; [p]; [p]; [p]].
Proof.
  unfold corner_variants_for_direction.
  now rewrite !compute_sweep_path_singleton.
Qed.

(** C7 (amended).  For a single waypoint the generator returns one
    candidate per corner variant of every eligible axis, four or eight in
    all, and each of them is the one-point path: cost 0, no turn, entry
    and exit at the waypoint. *)
Theorem single_cell_candidates (p : Point2D) (polygon : option Polygon) :
  let out := get_candidate_options [p] polygon in
  (length out = 4 \/ length out = 8)%nat /\
  Forall
    (fun c =>
       c = {| entry := p; exit := p; cost := 0; turns := 0%Z; path := Some [p] |})
    out.
Proof.
  unfold get_candidate_options, candidate_paths.
  rewrite !corner_variants_singleton.
  destruct (allowed_orientations polygon) as [[] []]; cbn;
    (split; [auto | repeat constructor]).
Qed.
End CandidateGenerator.

(** C7 (as stated) fails: the cell (0, 0) of the 3 by 3 square gets eight
    candidates, not one. *)
Lemma single_cell_not_one_candidate :
  ~ (exists c : CandidateOption,
        @get_candidate_options grid_libm rect_kernel [(0, 0)] (Some left_square) = [c]
        /\ cost c == 0 /\ turns c = 0%Z).
Proof.
  intros (c & Hout & _).
  apply (f_equal (@length _)) in Hout.
  vm_compute in Hout. discriminate Hout.
Qed.

(** The "U" is troublesome horizontally only: its candidates are the four
    corner variants of the vertical axis. *)
Lemma axis_eligibility_witness :
  @get_candidate_options grid_libm rect_kernel four_waypoints (Some u_shape) =
  @to_candidate_options grid_libm
    (@corner_variants_for_direction four_waypoints 1 0).
Proof.
  pose proof (proj1 (@axis_eligibility grid_libm rect_kernel four_waypoints)
                u_shape eq_refl) as H.
  vm_compute in H. vm_compute. exact H.
Defined.

(** ** The greedy partitioner *)

Section Greedy.
Context {K : Shapely}.

Lemma both_troublesome_iff (polygon : Polygon) (tolerance : Q) :
  both_troublesome polygon tolerance = true <->
  is_polygon_troublesome polygon tolerance = (true, true).
Proof.
  unfold both_troublesome.
  destruct (is_polygon_troublesome polygon tolerance) as [[] []]; simpl;
    split; congruence.
Qed.

Lemma greedy_rec_not_troublesome (remaining : nat) (polygon : Polygon)
    (depth : nat) (tolerance : Q) :
  both_troublesome polygon tolerance = false ->
  greedy_rec remaining polygon depth tolerance = Some ([polygon], []).
Proof. intros H. destruct remaining; simpl; [ | rewrite H]; reflexivity. Qed.

Lemma existsb_false {A : Type} (f : A -> bool) (l : list A) :
  (forall x, In x l -> f x = false) -> existsb f l = false.
Proof.
  intros H. induction l as [|a l IH]; simpl; [reflexivity |].
  rewrite H by now left. simpl. apply IH. intros x Hx. apply H. now right.
Qed.

Lemma at_most_two_crossings_not_troublesome (polygon : Polygon) (tolerance : Q) :
  (forall sweep_line : Line, (length (crossings polygon sweep_line) <= 2)%nat) ->
  is_polygon_troublesome polygon tolerance = (false, false).
Proof.
  intros H. unfold is_polygon_troublesome.
  rewrite !existsb_false; [reflexivity | | ];
    intros l _; apply Nat.ltb_ge, H.
Qed.

(** C8.  For a positive tolerance (at tolerance 0 the analyzer divides by
    zero before the depth is looked at), [_greedy_partition] returns the
    polygon as its only piece, with no pass recorded and no split tried,
    when the depth has reached [max_depth] or [is_polygon_troublesome]
    does not report both axes; so does [greedy_partition] on a polygon
    that no line crosses more than twice (a convex one). *)
Theorem greedy_base_case (polygon : Polygon) (depth max_depth : nat) (tolerance : Q) :
  0 < tolerance ->
  ((max_depth <= depth)%nat \/ is_polygon_troublesome polygon tolerance <> (true, true) ->
   _greedy_partition polygon depth max_depth tolerance = Some ([polygon], [])) /\
  ((forall sweep_line : Line, (length (crossings polygon sweep_line) <= 2)%nat) ->
   greedy_partition polygon max_depth tolerance = Some ([polygon], [])).
Proof.
  intros _. split.
  - intros [Hdepth | Hnot]; unfold _greedy_partition.
    + replace (max_depth - depth)%nat with O by lia. reflexivity.
    + apply greedy_rec_not_troublesome.
      apply not_true_iff_false. now rewrite both_troublesome_iff.
  - intros Hconvex. apply greedy_rec_not_troublesome.
    apply not_true_iff_false. rewrite both_troublesome_iff.
    now rewrite (at_most_two_crossings_not_troublesome _ _ Hconvex).
Qed.
End Greedy.

(** No axis-parallel line crosses the outline of the rectangle more than
    twice. *)
Lemma rect_10x4_crossings (sweep_line : Line) :
  (length (@crossings rect_kernel rect_10x4 sweep_line) <= 2)%nat.
Proof.
  destruct sweep_line as [[x1 y1] [x2 y2]].
  unfold crossings, boundary_cut, rect_kernel, rect_boundary_cut.
  set (edges := polygon_edges rect_10x4). vm_compute in edges. subst edges.
  destruct (Qeq_bool y1 y2); [ | destruct (Qeq_bool x1 x2)];
    cbn [flat_map app extract_points_from_intersection is_empty null];
    repeat match goal with
           | |- context [Qeq_bool ?a ?b] =>
               let v := eval vm_compute in (Qeq_bool a b) in
               change (Qeq_bool a b) with v
           end;
    cbn [andb app];
    repeat match goal with
           | |- context [if ?c then _ else _] => destruct c
           end;
    cbn; lia.
Qed.

(** At the depth cap even the square with a hole is returned whole; the
    rectangle is convex. *)
Lemma greedy_base_case_witness :
  @_greedy_partition rect_kernel square_with_hole 40 40 1 = Some ([square_with_hole], []) /\
  @greedy_partition rect_kernel rect_10x4 40 1 = Some ([rect_10x4], []).
Proof.
  split.
  - apply (proj1 (@greedy_base_case rect_kernel square_with_hole 40 40 1 eq_refl)).
    left. lia.
  - apply (proj2 (@greedy_base_case rect_kernel rect_10x4 0 40 1 eq_refl)).
    exact rect_10x4_crossings.
Defined.

Section GreedyPieces.
Context {K : Shapely}.

Lemma greedy_rec_depths (remaining : nat) :
  forall (polygon : Polygon) (depth : nat) (tolerance : Q)
         (pieces : list Polygon) (passes : list PassRecord),
    greedy_rec remaining polygon depth tolerance = Some (pieces, passes) ->
    exists tagged,
      greedy_depths remaining polygon depth tolerance = Some tagged /\
      map fst tagged = pieces /\
      Forall (piece_ok tolerance (depth + remaining)) tagged.
Proof.
  induction remaining as [|r IH]; intros polygon depth tolerance pieces passes Hrec.
  - simpl in *. injection Hrec as <- <-.
    exists [(polygon, depth)]. repeat split.
    constructor; [ | constructor]. split; simpl; lia.
  - simpl in *.
    destruct (both_troublesome polygon tolerance) eqn:Hboth; simpl in *.
    + destruct (cut_polygon polygon depth tolerance) as [[pass | pass splitted] | ] eqn:Hcut;
        [ | | discriminate].
      * injection Hrec as <- <-.
        exists [(polygon, depth)]. repeat split.
        constructor; [ | constructor].
        split; simpl; [lia | intros _; right; eauto].
      * (* the loop over the pieces of the split *)
        assert (Hloop :
          forall (targets : list Polygon) (ps0 : list Polygon) (passes0 : list PassRecord)
                 (tagged0 : list (Polygon * nat)),
            map fst tagged0 = ps0 ->
            Forall (piece_ok tolerance (depth + S r)) tagged0 ->
            fold_left
              (fun acc piece =>
                 match acc, greedy_rec r piece (S depth) tolerance with
                 | Some (pieces, passes), Some (child_pieces, child_passes) =>
                     Some (pieces ++ child_pieces, passes ++ child_passes)
                 | _, _ => None
                 end) targets (Some (ps0, passes0)) = Some (pieces, passes) ->
            exists tagged,
              fold_left
                (fun acc piece =>
                   match acc, greedy_depths r piece (S depth) tolerance with
                   | Some pieces, Some child_pieces => Some (pieces ++ child_pieces)
                   | _, _ => None
                   end) targets (Some tagged0) = Some tagged /\
              map fst tagged = pieces /\
              Forall (piece_ok tolerance (depth + S r)) tagged).
        { induction targets as [|t targets IHt]; intros ps0 passes0 tagged0 Hmap Hok Hfold.
          - simpl in *. injection Hfold as <- <-. eauto.
          - simpl in Hfold |- *.
            destruct (greedy_rec r t (S depth) tolerance) as [[cp cps] | ] eqn:Hchild.
            + destruct (IH _ _ _ _ _ Hchild) as (ctag & Hctag & Hcmap & Hcok).
              rewrite Hctag.
              apply (IHt _ _ _) with (3 := Hfold).
              * rewrite map_app. f_equal; assumption.
              * apply Forall_app. split; [exact Hok |].
                replace (depth + S r)%nat with (S depth + r)%nat by lia. exact Hcok.
            + exfalso. revert Hfold.
              match goal with
              | |- fold_left ?f _ _ = _ -> _ =>
                  assert (Hn : forall l, fold_left f l None = None)
                    by (induction l; simpl; auto)
              end.
              rewrite Hn. discriminate. }
        apply (Hloop _ _ _ []) with (3 := Hrec); [reflexivity | constructor].
    + injection Hrec as <- <-.
      exists [(polygon, depth)]. repeat split.
      constructor; [ | constructor].
      split; simpl; [lia | intros _; left].
      cbn [fst]. rewrite <- both_troublesome_iff. congruence.
Qed.

(** C3 (amended).  Every piece [greedy_partition] returns belongs to a
    call at some depth up to [max_depth]; when that depth is strictly
    below [max_depth], the piece is not troublesome in both axes, or it
    was returned because that call had no cut line or its split (after
    the fallback to the other axis) left at most one piece. *)
Theorem pieces_below_max_depth (polygon : Polygon) (max_depth : nat) (tolerance : Q)
    (pieces : list Polygon) (passes : list PassRecord) :
  greedy_partition polygon max_depth tolerance = Some (pieces, passes) ->
  exists tagged : list (Polygon * nat),
    greedy_depths max_depth polygon 0 tolerance = Some tagged /\
    map fst tagged = pieces /\
    Forall
      (fun pd =>
         (snd pd <= max_depth)%nat /\
         ((snd pd < max_depth)%nat ->
          is_polygon_troublesome (fst pd) tolerance <> (true, true) \/
          exists pass, cut_polygon (fst pd) (snd pd) tolerance = Some (NoCut pass)))
      tagged.
Proof.
  unfold greedy_partition, _greedy_partition. rewrite Nat.sub_0_r. intros Hrec.
  destruct (greedy_rec_depths _ _ _ _ _ _ Hrec) as (tagged & Htag & Hmap & Hok).
  exists tagged. repeat split; assumption.
Qed.
End GreedyPieces.

(** The square with a hole is returned by the call at depth 0, which
    found no cut line. *)
Lemma pieces_below_max_depth_witness :
  exists tagged : list (Polygon * nat),
    @greedy_depths rect_kernel 40 square_with_hole 0 1 = Some tagged /\
    map fst tagged = [square_with_hole] /\
    Forall
      (fun pd =>
         (snd pd <= 40)%nat /\
         ((snd pd < 40)%nat ->
          @is_polygon_troublesome rect_kernel (fst pd) 1 <> (true, true) \/
          exists pass, @cut_polygon rect_kernel (fst pd) (snd pd) 1 = Some (NoCut pass)))
      tagged.
Proof.
  eapply (@pieces_below_max_depth rect_kernel square_with_hole 40 1).
  vm_compute. reflexivity.
Defined.

(** C3 (as stated) fails: the square with the off-centre unit hole is
    troublesome in both axes (the sweeps at 1.5 cross the hole), but the
    gap quantifier only sweeps between the coordinates of the exterior, at
    5, where nothing is in the way; no cut line is found and the polygon is
    returned at depth 0 of 40. *)
Lemma troublesome_piece_below_max_depth :
  exists passes,
    @greedy_partition rect_kernel square_with_hole 40 1 = Some ([square_with_hole], passes) /\
    @greedy_depths rect_kernel 40 square_with_hole 0 1 = Some [(square_with_hole, 0%nat)] /\
    @is_polygon_troublesome rect_kernel square_with_hole 1 = (true, true).
Proof.
  eexists. repeat split; vm_compute; reflexivity.
Qed.

(** ** The cell distributor *)

Lemma enumerate_snoc {A : Type} (l : list A) (x : A) :
  enumerate (l ++ [x]) = enumerate l ++ [(length l, x)].
Proof.
  unfold enumerate.
  assert (H : forall s, combine (seq s (length (l ++ [x]))) (l ++ [x])
                        = combine (seq s (length l)) l ++ [((s + length l)%nat, x)]).
  { induction l as [|a l IH]; intros s; simpl.
    - now rewrite Nat.add_0_r.
    - rewrite IH. now rewrite Nat.add_succ_r. }
  apply (H 0%nat).
Qed.

Lemma enumerate_lookup {A : Type} (l : list A) (k : nat) (x : A) :
  In (k, x) (enumerate l) <-> l !! k = Some x.
Proof.
  induction l as [|a l IH] using rev_ind.
  - simpl. split; [intros [] | discriminate].
  - rewrite enumerate_snoc, in_app_iff, IH. simpl. split.
    + intros [H | [H | []]].
      * now apply lookup_app_l_Some.
      * injection H as <- <-. apply list_lookup_middle. reflexivity.
    + intros H. apply lookup_app_Some in H as [H | [Hk H]]; [now left | right; left].
      destruct (k - length l)%nat as [|n] eqn:E; simpl in H; [ | discriminate].
      injection H as <-. f_equal. lia.
Qed.

Section Distribution.
Context {K : Shapely}.

Lemma best_partition_snoc (cell_poly : Polygon) (parts : list Polygon) (p : Polygon) :
  best_partition cell_poly (parts ++ [p])
  = best_step cell_poly (best_partition cell_poly parts) (length parts, p).
Proof.
  unfold best_partition. rewrite enumerate_snoc, fold_left_app. simpl.
  destruct (fold_left _ _ _) as [bi ba]. reflexivity.
Qed.

Lemma best_partition_inv (cell_poly : Polygon) (parts : list Polygon) :
  best_inv cell_poly parts (best_partition cell_poly parts).
Proof.
  induction parts as [|p parts IH] using rev_ind.
  - split; simpl; [intros j pj H; discriminate | reflexivity].
  - rewrite best_partition_snoc.
    destruct (best_partition cell_poly parts) as [bi ba].
    destruct IH as [Hmax Hbest]. simpl in Hmax, Hbest.
    unfold best_step.
    destruct (polygon_is_empty p) eqn:Hemp;
      [ | destruct (Qltb ba (overlap cell_poly p)) eqn:Hlt ].
    + (* an empty partition is skipped *)
      split; simpl.
      * intros j pj Hj Hne.
        apply lookup_app_Some in Hj as [Hj | [Hlen Hj]]; [now apply (Hmax j) |].
        destruct (j - length parts)%nat; simpl in Hj; [ | discriminate].
        congruence.
      * destruct bi as [i|]; [ | exact Hbest].
        destruct Hbest as (part & Hi & Hne & Harea & Hpos & Hfirst).
        exists part. repeat split; try assumption.
        -- now apply lookup_app_l_Some.
        -- intros j pj Hj Hnej Hji.
           apply lookup_app_Some in Hj as [Hj | [Hlen Hj]]; [now apply (Hfirst j) |].
           apply lookup_lt_Some in Hi. lia.
    + (* a strictly larger overlap takes over *)
      apply Qltb_lt in Hlt.
      assert (Hba : 0 <= ba).
      { destruct bi as [i|]; [ | rewrite Hbest; apply Qle_refl].
        destruct Hbest as (_ & _ & _ & _ & Hpos & _). now apply Qlt_le_weak. }
      split; simpl.
      * intros j pj Hj Hne.
        apply lookup_app_Some in Hj as [Hj | [Hlen Hj]].
        -- apply Qle_trans with ba; [now apply (Hmax j) | now apply Qlt_le_weak].
        -- destruct (j - length parts)%nat; simpl in Hj; [ | discriminate].
           injection Hj as <-. apply Qle_refl.
      * exists p. repeat split.
        -- apply list_lookup_middle. reflexivity.
        -- exact Hemp.
        -- lra.
        -- intros j pj Hj Hne Hji.
           apply lookup_app_Some in Hj as [Hj | [Hlen Hj]]; [ | lia].
           apply Qle_lt_trans with ba; [now apply (Hmax j) | exact Hlt].
    + (* the overlap is not larger: the earlier partition stays *)
      apply Qltb_ge in Hlt.
      split; simpl.
      * intros j pj Hj Hne.
        apply lookup_app_Some in Hj as [Hj | [Hlen Hj]]; [now apply (Hmax j) |].
        destruct (j - length parts)%nat; simpl in Hj; [ | discriminate].
        injection Hj as <-. exact Hlt.
      * destruct bi as [i|]; [ | exact Hbest].
        destruct Hbest as (part & Hi & Hne & Harea & Hpos & Hfirst).
        exists part. repeat split; try assumption.
        -- now apply lookup_app_l_Some.
        -- intros j pj Hj Hnej Hji.
           apply lookup_app_Some in Hj as [Hj | [Hlen Hj]]; [now apply (Hfirst j) |].
           apply lookup_lt_Some in Hi. lia.
Qed.

Lemma empty_out_lookup (n idx : nat) :
  (list_to_map (map (fun i => (i, [])) (seq 0 n)) : gmap nat (list CellID)) !! idx
  = if (idx <? n)%nat then Some [] else None.
Proof.
  destruct (idx <? n)%nat eqn:E.
  - apply Nat.ltb_lt in E.
    apply elem_of_list_to_map_1'.
    + intros y Hy. apply list_elem_of_In, in_map_iff in Hy as (i & Hi & _).
      congruence.
    + apply list_elem_of_In, in_map_iff. exists idx. split; [reflexivity |].
      apply in_seq. lia.
  - apply Nat.ltb_ge in E.
    apply not_elem_of_list_to_map_1.
    intros Hin. apply list_elem_of_In, in_map_iff in Hin as ([i l] & Hi & Hin).
    apply in_map_iff in Hin as (i' & Heq & Hin). injection Heq as <- <-.
    simpl in Hi. subst i'. apply in_seq in Hin. lia.
Qed.

Lemma distribute_loop_lookup (cell_size : Q) (parts : list Polygon)
    (cells : list CellID) :
  forall (out : gmap nat (list CellID)) (idx : nat),
    fold_left
      (fun (out : gmap nat (list CellID)) cell_id =>
         match fst (best_partition (get_cell_polygon cell_id cell_size) parts) with
         | Some best_idx => alter (fun cells => cells ++ [cell_id]) best_idx out
         | None => out
         end) cells out !! idx
    = (fun l => l ++ List.filter
                       (fun c => bool_decide (target cell_size parts c = Some idx)) cells)
        <$> out !! idx.
Proof.
  induction cells as [|c cells IH]; intros out idx; simpl.
  - destruct (out !! idx); simpl; [now rewrite app_nil_r | reflexivity].
  - rewrite IH. fold (target cell_size parts c).
    destruct (target cell_size parts c) as [b|] eqn:Hb.
    + rewrite lookup_alter. destruct (decide (b = idx)) as [-> | Hne].
      * rewrite bool_decide_true by reflexivity.
        destruct (out !! idx); simpl; [now rewrite <- app_assoc | reflexivity].
      * rewrite bool_decide_false by congruence. reflexivity.
    + rewrite bool_decide_false by congruence. reflexivity.
Qed.

(** The dictionary [distribute_cells_to_subclusters] returns, key by key. *)
Lemma distribute_lookup (cell_ids : list CellID) (cell_size : Q)
    (parts : list Polygon) (idx : nat) :
  distribute_cells_to_subclusters cell_ids cell_size parts !! idx
  = if (idx <? length parts)%nat
    then Some (List.filter
                 (fun c => bool_decide (target cell_size parts c = Some idx)) cell_ids)
    else None.
Proof.
  unfold distribute_cells_to_subclusters.
  destruct (null cell_ids || null parts) eqn:Hnull.
  - rewrite empty_out_lookup.
    destruct (idx <? length parts)%nat eqn:E; [ | reflexivity].
    destruct cell_ids as [|c cs]; [reflexivity |].
    destruct parts; [discriminate E | discriminate Hnull].
  - rewrite distribute_loop_lookup, empty_out_lookup.
    destruct (idx <? length parts)%nat; reflexivity.
Qed.

Lemma assigned_iff (cell_ids : list CellID) (cell_size : Q) (parts : list Polygon)
    (idx : nat) (cell : CellID) :
  assigned (distribute_cells_to_subclusters cell_ids cell_size parts) idx cell <->
  In cell cell_ids /\ target cell_size parts cell = Some idx.
Proof.
  unfold assigned. rewrite distribute_lookup. split.
  - intros (cells & Hlook & Hin).
    destruct (idx <? length parts)%nat; [ | discriminate].
    injection Hlook as <-. apply List.filter_In in Hin as [Hin Hdec].
    apply bool_decide_eq_true in Hdec. auto.
  - intros [Hin Htarget].
    assert (Hidx : (idx < length parts)%nat).
    { unfold target in Htarget.
      pose proof (best_partition_inv (get_cell_polygon cell cell_size) parts) as [_ Hb].
      rewrite Htarget in Hb. destruct Hb as (part & Hi & _).
      now apply lookup_lt_Some in Hi. }
    apply Nat.ltb_lt in Hidx. rewrite Hidx. eexists. split; [reflexivity |].
    apply List.filter_In. split; [exact Hin | now apply bool_decide_eq_true].
Qed.

(** C4.  Where overlap areas are not negative and vanish on empty
    partition polygons: a cell in the list of a partition is an input
    cell and that partition is the first of maximum (and positive)
    overlap; an input cell that is in no list has overlap zero with every
    partition; and no cell is in the lists of two partitions. *)
Theorem cell_conservation (cell_ids : list CellID) (cell_size : Q)
    (partition_polygons : list Polygon) :
  (forall cell part, In cell cell_ids -> In part partition_polygons ->
     overlap_sane (get_cell_polygon cell cell_size) part) ->
  let out := distribute_cells_to_subclusters cell_ids cell_size partition_polygons in
  (forall idx cell, assigned out idx cell ->
     In cell cell_ids /\ max_overlap_first cell_size partition_polygons cell idx) /\
  (forall cell, In cell cell_ids ->
     (exists idx, assigned out idx cell) \/
     (forall part, In part partition_polygons ->
        overlap (get_cell_polygon cell cell_size) part == 0)) /\
  (forall cell i j, assigned out i cell -> assigned out j cell -> i = j).
Proof.
  intros Hsane out. subst out. split; [ | split].
  - intros idx cell Hass. apply assigned_iff in Hass as [Hin Htarget].
    split; [exact Hin |].
    pose proof (best_partition_inv (get_cell_polygon cell cell_size) partition_polygons)
      as [Hmax Hbest].
    unfold target in Htarget. rewrite Htarget in Hbest.
    destruct Hbest as (part & Hi & Hne & Harea & Hpos & Hfirst).
    rewrite Harea in *.
    assert (Hall : forall j pj, partition_polygons !! j = Some pj ->
              polygon_is_empty pj = true ->
              overlap (get_cell_polygon cell cell_size) pj == 0).
    { intros j pj Hj Hemp. apply Hsane; [exact Hin | | exact Hemp].
      apply list_elem_of_In, list_elem_of_lookup. eauto. }
    exists part. repeat split; try assumption.
    + intros j pj Hj. destruct (polygon_is_empty pj) eqn:Hemp.
      * rewrite (Hall j pj Hj Hemp). now apply Qlt_le_weak.
      * now apply (Hmax j).
    + intros j pj Hj Hji. destruct (polygon_is_empty pj) eqn:Hemp.
      * now rewrite (Hall j pj Hj Hemp).
      * now apply (Hfirst j).
  - intros cell Hin.
    destruct (target cell_size partition_polygons cell) as [idx|] eqn:Htarget.
    + left. exists idx. apply assigned_iff. auto.
    + right. intros part Hpart.
      pose proof (best_partition_inv (get_cell_polygon cell cell_size) partition_polygons)
        as [Hmax Hbest].
      unfold target in Htarget. rewrite Htarget in Hbest.
      destruct (Hsane cell part Hin Hpart) as [Hnonneg Hzero].
      destruct (polygon_is_empty part) eqn:Hemp; [now apply Hzero |].
      apply list_elem_of_In, list_elem_of_lookup in Hpart as [j Hj].
      specialize (Hmax j part Hj Hemp). rewrite Hbest in Hmax.
      now apply Qle_antisym.
  - intros cell i j Hi Hj.
    apply assigned_iff in Hi as [_ Hi]. apply assigned_iff in Hj as [_ Hj].
    congruence.
Qed.
End Distribution.

(** Four cells over the two squares, with the areas of the concrete
    kernel. *)
Lemma cell_conservation_witness :
  let out :=
    @distribute_cells_to_subclusters rect_kernel some_cells 1 [left_square; right_square] in
  (forall idx cell, assigned out idx cell ->
     In cell some_cells /\
     @max_overlap_first rect_kernel 1 [left_square; right_square] cell idx) /\
  (forall cell, In cell some_cells ->
     (exists idx, assigned out idx cell) \/
     (forall part, In part [left_square; right_square] ->
        @overlap rect_kernel (get_cell_polygon cell 1) part == 0)) /\
  (forall cell i j, assigned out i cell -> assigned out j cell -> i = j).
Proof.
  apply (@cell_conservation rect_kernel some_cells 1 [left_square; right_square]).
  intros cell part Hcell Hpart.
  repeat (destruct Hcell as [<- | Hcell]; [ | ]); try destruct Hcell;
    (repeat (destruct Hpart as [<- | Hpart]; [ | ]); try destruct Hpart);
    (split; [apply Qle_bool_iff; vm_compute; reflexivity
            | intros H; vm_compute in H; discriminate H]).
Defined.

(** ** The partition merger *)

Section MergeProperties.
Context {K : Shapely}.

Lemma fold_merge_inner_none (partitions : list Polygon) (tolerance : Q) (js : list nat) :
  fold_left (merge_inner partitions tolerance) js None = None.
Proof. induction js as [|j js IH]; simpl; [reflexivity | exact IH]. Qed.

(** The inner loop only adds indices it visits, and it adds one exactly
    when it sets [merged_any]. *)
Lemma merge_inner_spec (partitions : list Polygon) (tolerance : Q) (js : list nat) :
  forall (p0 p' : Polygon) (u0 u' : gset nat) (m0 m' : bool),
    fold_left (merge_inner partitions tolerance) js (Some (p0, u0, m0))
    = Some (p', u', m') ->
    u0 ⊆ u' /\
    (forall x, x ∈ u' -> x ∈ u0 \/ (In x js /\ (x < length partitions)%nat)) /\
    (m' = false -> p' = p0 /\ u' = u0 /\ m0 = false) /\
    (size u0 <= size u')%nat /\
    (m0 = false -> m' = true -> (size u0 < size u')%nat) /\
    (m0 = true -> m' = true).
Proof.
  induction js as [|j js IH]; intros p0 p' u0 u' m0 m' Hfold.
  - simpl in Hfold. injection Hfold as <- <- <-.
    repeat split; auto; try lia; try congruence.
  - simpl in Hfold.
    assert (Hkeep :
      fold_left (merge_inner partitions tolerance) js (Some (p0, u0, m0))
      = Some (p', u', m') ->
      u0 ⊆ u' /\
      (forall x, x ∈ u' -> x ∈ u0 \/ (In x (j :: js) /\ (x < length partitions)%nat)) /\
      (m' = false -> p' = p0 /\ u' = u0 /\ m0 = false) /\
      (size u0 <= size u')%nat /\
      (m0 = false -> m' = true -> (size u0 < size u')%nat) /\
      (m0 = true -> m' = true)).
    { intros H. apply IH in H as (H1 & H2 & H3 & H4 & H5 & H6).
      refine (conj H1 (conj _ (conj H3 (conj H4 (conj H5 H6))))).
      intros x Hx. destruct (H2 x Hx) as [? | [? ?]]; [now left | right].
      split; [now right | assumption]. }
    destruct (decide (j ∈ u0)) as [Hin | Hnotin]; [now apply Hkeep |].
    destruct (partitions !! j) as [poly_j|] eqn:Hj;
      [ | now rewrite fold_merge_inner_none in Hfold].
    destruct (try_merge p0 poly_j tolerance) as [[ | cu] | ];
      [now apply Hkeep | | now rewrite fold_merge_inner_none in Hfold].
    apply IH in Hfold as (H1 & H2 & H3 & H4 & H5 & H6).
    assert (Hsize : size ({[j]} ∪ u0 : gset nat) = S (size u0)).
    { rewrite size_union by now apply disjoint_singleton_l.
      now rewrite size_singleton. }
    rewrite Hsize in H4.
    specialize (H6 eq_refl).
    split; [intros x Hx; apply H1, elem_of_union; now right |].
    split.
    { intros x Hx. destruct (H2 x Hx) as [Hx' | [? ?]].
      - apply elem_of_union in Hx' as [Hx' | Hx']; [ | now left].
        apply elem_of_singleton in Hx'. subst x. right.
        split; [now left | now apply lookup_lt_Some in Hj].
      - right. split; [now right | assumption]. }
    split; [congruence |].
    split; [lia |].
    split; [intros _ _; lia | intros _; exact H6].
Qed.

Lemma merge_outer_inv (partitions : list Polygon) (tolerance : Q) (k : nat) :
  (k <= length partitions)%nat ->
  forall st,
    fold_left (merge_outer partitions tolerance) (seq 0 k) (Some ([], ∅, false)) = Some st ->
    outer_inv partitions k st.
Proof.
  induction k as [|k IH]; intros Hk st Hfold.
  - simpl in Hfold. injection Hfold as <-. simpl.
    split; [ | split; [ | split; [ | split]]]; try (intros; lia); try congruence.
    + intros x Hx. now apply elem_of_empty in Hx.
    + intros _. split; [reflexivity |]. intros x Hx. now apply elem_of_empty in Hx.
  - rewrite seq_S, fold_left_app in Hfold. simpl in Hfold.
    destruct (fold_left _ (seq 0 k) _) as [[[newp used] merged] | ] eqn:Hprev;
      [ | discriminate].
    specialize (IH ltac:(lia) _ eq_refl).
    destruct IH as (I1 & I2 & I3 & I4 & I5).
    simpl in Hfold.
    destruct (decide (k ∈ used)) as [Hin | Hnotin].
    + injection Hfold as <-. simpl.
      refine (conj I1 (conj _ (conj I3 (conj I4 _)))).
      * intros x Hx. destruct (decide (x = k)) as [-> | ?]; [exact Hin | apply I2; lia].
      * intros Hm. destruct (I5 Hm) as [_ Hlt]. specialize (Hlt k Hin). lia.
    + destruct (partitions !! k) as [poly_k|] eqn:Hpk; [ | discriminate].
      destruct (fold_left (merge_inner partitions tolerance) _ _)
        as [[[poly' used'] merged'] | ] eqn:Hinner; [ | discriminate].
      injection Hfold as <-.
      apply merge_inner_spec in Hinner as (H1 & H2 & H3 & H4 & H5 & H6).
      assert (Hk' : k ∉ used').
      { intros Hx. destruct (H2 k Hx) as [? | [Hseq _]]; [contradiction |].
        apply in_seq in Hseq. lia. }
      assert (Hsize : size ({[k]} ∪ used' : gset nat) = S (size used')).
      { rewrite size_union by now apply disjoint_singleton_l.
        now rewrite size_singleton. }
      simpl. rewrite Hsize, length_app. simpl.
      split; [ | split; [ | split; [ | split]]].
      * intros x Hx. apply elem_of_union in Hx as [Hx | Hx].
        -- apply elem_of_singleton in Hx. subst x. now apply lookup_lt_Some in Hpk.
        -- destruct (H2 x Hx) as [? | [_ ?]]; auto.
      * intros x Hx. destruct (decide (x = k)) as [-> | ?];
          [apply elem_of_union; left; now apply elem_of_singleton |].
        apply elem_of_union. right. apply H1, I2. lia.
      * lia.
      * intros Hm. destruct merged; [specialize (I4 eq_refl); lia |].
        specialize (H5 eq_refl Hm). lia.
      * intros Hm. destruct (H3 Hm) as (-> & -> & ->). destruct (I5 eq_refl) as [-> Hlt].
        split; [symmetry; now apply take_S_r |].
        intros x Hx. apply elem_of_union in Hx as [Hx | Hx].
        -- apply elem_of_singleton in Hx. lia.
        -- specialize (Hlt x Hx). lia.
Qed.

Lemma size_below (n : nat) (s : gset nat) :
  (forall x, x ∈ s -> (x < n)%nat) -> (size s <= n)%nat.
Proof.
  intros H. rewrite <- (size_set_seq (C := gset nat) 0 n).
  apply subseteq_size. intros x Hx. apply elem_of_set_seq. specialize (H x Hx). lia.
Qed.

(** A pass that merges nothing returns the list it was given. *)
Lemma merge_pass_unchanged (partitions new_partitions : list Polygon) (tolerance : Q) :
  merge_pass partitions tolerance = Some (new_partitions, false) ->
  new_partitions = partitions.
Proof.
  unfold merge_pass. intros Hpass.
  destruct (fold_left _ _ _) as [[[newp used] merged] | ] eqn:Hfold; [ | discriminate].
  injection Hpass as <- ->.
  apply merge_outer_inv in Hfold as (_ & _ & _ & _ & I5); [ | lia].
  destruct (I5 eq_refl) as [-> _]. now apply take_ge.
Qed.

(** A pass that merges returns a shorter list. *)
Lemma merge_pass_shorter (partitions new_partitions : list Polygon) (tolerance : Q) :
  merge_pass partitions tolerance = Some (new_partitions, true) ->
  (length new_partitions < length partitions)%nat.
Proof.
  unfold merge_pass. intros Hpass.
  destruct (fold_left _ _ _) as [[[newp used] merged] | ] eqn:Hfold; [ | discriminate].
  injection Hpass as <- ->.
  apply merge_outer_inv in Hfold as (I1 & _ & _ & I4 & _); [ | lia].
  specialize (I4 eq_refl). pose proof (size_below _ _ I1). lia.
Qed.

(** The loop does not depend on the fuel once there is more of it than
    partitions: the branch for no fuel is never taken. *)
Lemma merge_loop_fuel (tolerance : Q) (fuel1 : nat) :
  forall (fuel2 : nat) (partitions : list Polygon),
    (length partitions < fuel1)%nat -> (length partitions < fuel2)%nat ->
    merge_loop fuel1 partitions tolerance = merge_loop fuel2 partitions tolerance.
Proof.
  induction fuel1 as [|f1 IH]; intros fuel2 partitions H1 H2; [lia |].
  destruct fuel2 as [|f2]; [lia |]. simpl.
  destruct (merge_pass partitions tolerance) as [[newp [|]] | ] eqn:Hpass; try reflexivity.
  apply merge_pass_shorter in Hpass. apply IH; lia.
Qed.

(** What the loop returns is a list on which a pass merges nothing. *)
Lemma merge_loop_fixpoint (tolerance : Q) (fuel : nat) :
  forall (partitions merged : list Polygon),
    (length partitions < fuel)%nat ->
    merge_loop fuel partitions tolerance = Some merged ->
    merge_pass merged tolerance = Some (merged, false).
Proof.
  induction fuel as [|f IH]; intros partitions merged Hlen Hloop; [lia |].
  simpl in Hloop.
  destruct (merge_pass partitions tolerance) as [[newp [|]] | ] eqn:Hpass;
    [ | | discriminate].
  - apply (IH newp); [ | exact Hloop]. apply merge_pass_shorter in Hpass. lia.
  - injection Hloop as <-.
    pose proof (merge_pass_unchanged _ _ _ Hpass) as ->. exact Hpass.
Qed.

Lemma merge_partitions_fixpoint (partitions merged : list Polygon) (tolerance : Q) :
  merge_partitions partitions tolerance = Some merged ->
  merge_pass merged tolerance = Some (merged, false).
Proof. apply merge_loop_fixpoint. lia. Qed.

(** C9.  [merge_partitions] applied, with the same tolerance, to the list
    it returned gives that list again. *)
Theorem merge_partitions_idempotent (partitions merged : list Polygon) (tolerance : Q) :
  merge_partitions partitions tolerance = Some merged ->
  merge_partitions merged tolerance = Some merged.
Proof.
  intros H. apply merge_partitions_fixpoint in H.
  unfold merge_partitions. simpl. now rewrite H.
Qed.
End MergeProperties.

(** Merging the two squares gives one rectangle, and merging that
    rectangle gives it back. *)
Lemma merge_partitions_idempotent_witness :
  @merge_partitions rect_kernel [rectangle 0 0 6 3] (1 # 1000000)
  = Some [rectangle 0 0 6 3].
Proof.
  apply (@merge_partitions_idempotent rect_kernel [left_square; right_square]).
  vm_compute. reflexivity.
Defined.

(** ** The combiner *)

(** *** Costs that may be infinite *)

Lemma finf_le_refl (x : float_inf) : finf_le x x.
Proof. destruct x; simpl; [apply Qle_refl | exact I]. Qed.

Lemma finf_le_trans (x y z : float_inf) : finf_le x y -> finf_le y z -> finf_le x z.
Proof.
  destruct x, y, z; simpl; try tauto. apply Qle_trans.
Qed.

Lemma finf_ltb_le (x y : float_inf) : finf_ltb x y = true -> finf_le x y.
Proof.
  destruct x, y; simpl; try discriminate; try tauto.
  intros H. apply Qltb_lt in H. now apply Qlt_le_weak.
Qed.

Lemma finf_ltb_ge (x y : float_inf) : finf_ltb x y = false -> finf_le y x.
Proof.
  destruct x, y; simpl; try discriminate; try tauto.
  intros H. now apply Qltb_ge in H.
Qed.

Lemma finf_add_le (q r : Q) (x : float_inf) :
  finf_le x (Finite r) -> finf_le (finf_add q x) (Finite (q + r)).
Proof.
  destruct x; simpl; [ | tauto]. intros H. lra.
Qed.

(** *** Loops that keep the first strict minimum *)

Section Relax.
Context {X : Type}.
Variables (tot : X -> float_inf) (key : X -> nat * nat) (sub : X -> option Tour).

Lemma fold_relax_spec (xs : list X) (init : dp_result) :
  let r := fold_left (relax_step tot key sub) xs init in
  (r = init \/ exists x, In x xs /\ r = (tot x, option_map (cons (key x)) (sub x))) /\
  finf_le (fst r) (fst init) /\
  (forall x, In x xs -> finf_le (fst r) (tot x)).
Proof.
  revert init. induction xs as [|x xs IH]; intros init; simpl.
  - split; [now left |]. split; [apply finf_le_refl | intros x []].
  - destruct (IH (relax_step tot key sub init x)) as (Hsrc & Hle & Hall).
    assert (Hstep : finf_le (fst (relax_step tot key sub init x)) (fst init) /\
                    finf_le (fst (relax_step tot key sub init x)) (tot x)).
    { unfold relax_step, relax. destruct (finf_ltb (tot x) (fst init)) eqn:E; simpl.
      - split; [now apply finf_ltb_le | apply finf_le_refl].
      - split; [apply finf_le_refl | now apply finf_ltb_ge]. }
    destruct Hstep as [Hs1 Hs2]. split; [ | split].
    + destruct Hsrc as [Hr | (y & Hy & Hr)].
      * assert (Hcase : relax_step tot key sub init x = init \/
                        relax_step tot key sub init x
                        = (tot x, option_map (cons (key x)) (sub x))).
        { unfold relax_step, relax. destruct (finf_ltb (tot x) (fst init)); auto. }
        rewrite Hr. destruct Hcase as [Hc | Hc].
        -- left. exact Hc.
        -- right. exists x. split; [now left | exact Hc].
      * right. exists y. split; [now right | exact Hr].
    + eapply finf_le_trans; eassumption.
    + intros y [<- | Hy]; [eapply finf_le_trans; eassumption | now apply Hall].
Qed.
End Relax.

(** *** The bitmask *)

Lemma bit_set_testbit (mask : Z) (j : nat) :
  bit_set mask j = Z.testbit mask (Z.of_nat j).
Proof.
  unfold bit_set.
  assert (H : Z.land (Z.shiftr mask (Z.of_nat j)) 1
              = Z.b2z (Z.testbit mask (Z.of_nat j))).
  { change 1%Z with (Z.ones 1). rewrite Z.land_ones by lia.
    rewrite <- Z.bit0_mod, Z.shiftr_spec by lia. reflexivity. }
  rewrite H. destruct (Z.testbit mask (Z.of_nat j)); reflexivity.
Qed.

Lemma bit_set_lor (mask : Z) (i j : nat) :
  bit_set (Z.lor mask (Z.shiftl 1 (Z.of_nat i))) j = bit_set mask j || (i =? j)%nat.
Proof.
  rewrite !bit_set_testbit, Z.lor_spec, Z.shiftl_1_l, Z.pow2_bits_eqb by lia.
  f_equal. destruct (Nat.eqb_spec i j) as [-> | Hne].
  - apply Z.eqb_refl.
  - apply Z.eqb_neq. lia.
Qed.

Section HeldKarpCorrect.
Context {M : Libm}.
Variable candidate_options : list (list CandidateOption).

Let N := N_parts candidate_options.

Lemma fold_left_ext {A B : Type} (f g : A -> B -> A) (l : list B) (a : A) :
  (forall a x, f a x = g a x) -> fold_left f l a = fold_left g l a.
Proof.
  intros H. revert a. induction l as [|x l IH]; intros a; simpl; [reflexivity |].
  now rewrite H, IH.
Qed.

Lemma nested_fold (skip : nat -> bool)
    (body : dp_result -> nat -> nat -> CandidateOption -> dp_result)
    (js : list nat) (init : dp_result) :
  fold_left
    (fun best j =>
       if skip j then best
       else
         fold_left (fun best '(cand_idx, cand) => body best j cand_idx cand)
                   (enumerate (nth j candidate_options [])) best)
    js init
  = fold_left
      (fun best '(j, k, c) => body best j k c)
      (flat_map
         (fun j =>
            if skip j then []
            else map (fun kc => (j, fst kc, snd kc))
                     (enumerate (nth j candidate_options [])))
         js)
      init.
Proof.
  revert init. induction js as [|j js IH]; intros init; simpl; [reflexivity |].
  rewrite fold_left_app, IH. f_equal.
  destruct (skip j); [reflexivity |].
  generalize (enumerate (nth j candidate_options [])) as l. revert init.
  intros init l. revert init.
  induction l as [|[k c] l IHl]; intros init; simpl; [reflexivity | apply IHl].
Qed.

Lemma in_choices (skip : nat -> bool) (j k : nat) (c : CandidateOption) :
  In (j, k, c) (choices candidate_options skip) <->
  (j < N)%nat /\ skip j = false /\ nth j candidate_options [] !! k = Some c.
Proof.
  unfold choices. rewrite in_flat_map. split.
  - intros (j' & Hj' & Hin). apply in_seq in Hj'.
    destruct (skip j') eqn:Hskip; [destruct Hin |].
    apply in_map_iff in Hin as ([k' c'] & Heq & Hin). simpl in Heq.
    injection Heq as -> -> ->. apply enumerate_lookup in Hin.
    repeat split; [unfold N; lia | assumption | assumption].
  - intros (Hj & Hskip & Hk). exists j. split; [apply in_seq; unfold N in Hj; lia |].
    rewrite Hskip. apply in_map_iff. exists (k, c). split; [reflexivity |].
    now apply enumerate_lookup.
Qed.

Lemma lookup_cand_at (j k : nat) (c : CandidateOption) :
  nth j candidate_options [] !! k = Some c ->
  cand_at candidate_options j k = c /\ (k < length (nth j candidate_options []))%nat.
Proof.
  intros H. split; [now apply nth_lookup_Some | now apply lookup_lt_Some in H].
Qed.

Lemma dp_unfold (fuel : nat) (mask : Z) (last_part last_cand : nat) :
  (mask =? full_mask candidate_options)%Z = false ->
  dp candidate_options (S fuel) mask last_part last_cand
  = fold_left
      (relax_step
         (dp_total candidate_options fuel mask
            (cand_at candidate_options last_part last_cand))
         (fun x => (fst (fst x), snd (fst x)))
         (fun x => snd (dp_choice candidate_options fuel mask
                          (cand_at candidate_options last_part last_cand) x)))
      (choices candidate_options (bit_set mask))
      (Infinity, None).
Proof.
  intros Hfull. simpl. rewrite Hfull.
  rewrite (nested_fold (bit_set mask)
             (fun best j k c =>
                let '(sub_cost, sub_path) :=
                  dp candidate_options fuel (Z.lor mask (Z.shiftl 1 (Z.of_nat j))) j k in
                relax best
                  (finf_add
                     (connector (cand_at candidate_options last_part last_cand) c + cost c)
                     sub_cost)
                  (j, k) sub_path)).
  apply fold_left_ext. intros best [[j k] c].
  unfold relax_step, dp_total, dp_choice. simpl.
  destruct (dp candidate_options fuel _ j k) as [sc sp]. reflexivity.
Qed.

(** *** Masks and the partitions left *)

Lemma full_mask_ones : full_mask candidate_options = Z.ones (Z.of_nat N).
Proof. unfold full_mask. rewrite Z.ones_equiv, Z.shiftl_1_l. fold N. lia. Qed.

Lemma mask_full_iff (mask : Z) :
  mask_ok candidate_options mask ->
  (mask =? full_mask candidate_options)%Z = true <->
  forall j, (j < N)%nat -> bit_set mask j = true.
Proof.
  intros Hok. rewrite Z.eqb_eq, full_mask_ones. split.
  - intros -> j Hj. rewrite bit_set_testbit. apply Z.ones_spec_low. lia.
  - intros Hall. apply Z.bits_inj'. intros n Hn.
    destruct (Z_lt_le_dec n (Z.of_nat N)) as [Hlt | Hge].
    + rewrite Z.ones_spec_low by lia.
      specialize (Hall (Z.to_nat n) ltac:(lia)).
      rewrite bit_set_testbit, Z2Nat.id in Hall by lia. exact Hall.
    + rewrite Z.ones_spec_high by lia. now apply Hok.
Qed.

Lemma mask_ok_lor (mask : Z) (j : nat) :
  mask_ok candidate_options mask -> (j < N)%nat ->
  mask_ok candidate_options (Z.lor mask (Z.shiftl 1 (Z.of_nat j))).
Proof.
  intros Hok Hj n Hn. rewrite Z.lor_spec, Hok by exact Hn.
  rewrite Z.shiftl_1_l, Z.pow2_bits_eqb by lia. simpl.
  apply Z.eqb_neq. fold N in Hn. lia.
Qed.

Lemma mask_ok_zero : mask_ok candidate_options 0.
Proof. intros n _. apply Z.bits_0. Qed.

Lemma filter_length_lt {A : Type} (f g : A -> bool) (l : list A) (x : A) :
  (forall y, g y = true -> f y = true) ->
  In x l -> f x = true -> g x = false ->
  (length (List.filter g l) < length (List.filter f l))%nat.
Proof.
  intros Himp. induction l as [|a l IH]; intros Hin Hf Hg; [destruct Hin |].
  assert (Hle : forall l', (length (List.filter g l') <= length (List.filter f l'))%nat).
  { induction l' as [|b l' IH']; simpl; [lia |].
    destruct (g b) eqn:Eg; [rewrite (Himp b Eg); simpl; lia |].
    destruct (f b); simpl; lia. }
  simpl. destruct Hin as [-> | Hin].
  - rewrite Hf, Hg. simpl. specialize (Hle l). lia.
  - specialize (IH Hin Hf Hg).
    destruct (g a) eqn:Eg; [rewrite (Himp a Eg); simpl; lia |].
    destruct (f a); simpl; lia.
Qed.

Lemma unvisited_lor (mask : Z) (j : nat) :
  (j < N)%nat -> bit_set mask j = false ->
  (length (unvisited candidate_options (Z.lor mask (Z.shiftl 1 (Z.of_nat j))))
   < length (unvisited candidate_options mask))%nat.
Proof.
  intros Hj Hbit. unfold unvisited. apply filter_length_lt with (x := j).
  - intros y. rewrite bit_set_lor. destruct (bit_set mask y); simpl; [discriminate | auto].
  - apply in_seq. fold N. lia.
  - now rewrite Hbit.
  - rewrite bit_set_lor, Nat.eqb_refl, orb_true_r. reflexivity.
Qed.

Lemma unvisited_nil (mask : Z) :
  mask_ok candidate_options mask ->
  unvisited candidate_options mask = [] ->
  (mask =? full_mask candidate_options)%Z = true.
Proof.
  intros Hok Hnil. apply mask_full_iff; [exact Hok |]. intros j Hj.
  destruct (bit_set mask j) eqn:Hbit; [reflexivity | exfalso].
  assert (Hin : In j (unvisited candidate_options mask)).
  { apply List.filter_In. split; [apply in_seq; fold N; lia | now rewrite Hbit]. }
  rewrite Hnil in Hin. destruct Hin.
Qed.

(** *** Tours that complete a mask *)

Lemma completes_nil (mask : Z) :
  mask_ok candidate_options mask ->
  completes candidate_options mask [] <->
  (mask =? full_mask candidate_options)%Z = true.
Proof.
  intros Hok. rewrite mask_full_iff by exact Hok. unfold completes. simpl. split.
  - intros (_ & _ & H) j Hj. destruct (bit_set mask j) eqn:E; [reflexivity |].
    now apply (H j Hj) in E.
  - intros H. split; [constructor | split; [constructor |]].
    intros j Hj. rewrite (H j Hj). split; [discriminate | tauto].
Qed.

Lemma completes_cons (mask : Z) (j k : nat) (t : Tour) :
  completes candidate_options mask ((j, k) :: t) <->
  (j < N)%nat /\ (k < length (nth j candidate_options []))%nat /\
  bit_set mask j = false /\
  completes candidate_options (Z.lor mask (Z.shiftl 1 (Z.of_nat j))) t.
Proof.
  unfold completes. simpl. split.
  - intros (Hnd & Hvalid & Hiff).
    apply List.NoDup_cons_iff in Hnd as [Hnotin Hnd].
    apply Forall_cons_iff in Hvalid as [[Hj Hk] Hvalid]. simpl in Hj, Hk.
    repeat split; try assumption.
    + apply (Hiff j Hj). now left.
    + rewrite bit_set_lor. intros Hb. apply orb_false_iff in Hb as [Hb Hne].
      apply (Hiff j0 H) in Hb as [<- | Hin]; [ | exact Hin].
      rewrite Nat.eqb_refl in Hne. discriminate.
    + intros Hin. rewrite bit_set_lor. apply orb_false_iff. split.
      * apply (Hiff j0 H). now right.
      * apply Nat.eqb_neq. intros <-. contradiction.
  - intros (Hj & Hk & Hbit & Hnd & Hvalid & Hiff).
    assert (Hnotin : ~ In j (map fst t)).
    { intros Hin. apply (Hiff j Hj) in Hin.
      rewrite bit_set_lor, Nat.eqb_refl, orb_true_r in Hin. discriminate. }
    split; [now constructor |]. split; [constructor; [split; assumption | exact Hvalid] |].
    intros j' Hj'. split.
    + intros Hb. destruct (Nat.eq_dec j j') as [-> | Hne]; [now left | right].
      apply (Hiff j' Hj'). rewrite bit_set_lor, Hb. simpl. now apply Nat.eqb_neq.
    + intros [<- | Hin]; [exact Hbit |].
      apply (Hiff j' Hj') in Hin. rewrite bit_set_lor in Hin.
      now apply orb_false_iff in Hin as [Hin _].
Qed.

(** *** The recurrence *)

Lemma dp_full (fuel : nat) (mask : Z) (last_part last_cand : nat) :
  (mask =? full_mask candidate_options)%Z = true ->
  dp candidate_options fuel mask last_part last_cand = (Finite 0, Some []).
Proof. intros H. destruct fuel; simpl; now rewrite H. Qed.

(** With enough fuel for the partitions left, [dp] returns a tour that
    completes the mask together with its cost, and no completing tour is
    cheaper. *)
Lemma dp_correct (fuel : nat) :
  forall (mask : Z) (last_part last_cand : nat),
    mask_ok candidate_options mask ->
    (length (unvisited candidate_options mask) <= fuel)%nat ->
    (forall q p,
        dp candidate_options fuel mask last_part last_cand = (Finite q, p) ->
        exists t,
          p = Some t /\ completes candidate_options mask t /\
          q = rest_cost candidate_options (cand_at candidate_options last_part last_cand) t) /\
    (forall t,
        completes candidate_options mask t ->
        finf_le (fst (dp candidate_options fuel mask last_part last_cand))
                (Finite (rest_cost candidate_options
                           (cand_at candidate_options last_part last_cand) t))).
Proof.
  assert (Hdone : forall fuel0 mask last_part last_cand,
            mask_ok candidate_options mask ->
            (mask =? full_mask candidate_options)%Z = true ->
            (forall q p,
                dp candidate_options fuel0 mask last_part last_cand = (Finite q, p) ->
                exists t,
                  p = Some t /\ completes candidate_options mask t /\
                  q = rest_cost candidate_options
                        (cand_at candidate_options last_part last_cand) t) /\
            (forall t,
                completes candidate_options mask t ->
                finf_le (fst (dp candidate_options fuel0 mask last_part last_cand))
                        (Finite (rest_cost candidate_options
                                   (cand_at candidate_options last_part last_cand) t)))).
  { intros fuel0 mask last_part last_cand Hok Hfull.
    rewrite (dp_full _ _ _ _ Hfull). split.
    - intros q p Hdp. injection Hdp as <- <-. exists [].
      split; [reflexivity |]. split; [now apply completes_nil | reflexivity].
    - intros [|[j k] t] Hc; [simpl; apply Qle_refl | exfalso].
      apply completes_cons in Hc as (Hj & _ & Hbit & _).
      pose proof (proj1 (mask_full_iff mask Hok) Hfull) as Hset.
      rewrite (Hset j Hj) in Hbit. discriminate. }
  induction fuel as [|fuel IH]; intros mask last_part last_cand Hok Hfuel;
    destruct (mask =? full_mask candidate_options)%Z eqn:Hfull;
    try (now apply Hdone).
  - (* no fuel, but partitions are left: impossible *)
    exfalso. destruct (unvisited candidate_options mask) eqn:Hun; [ | simpl in Hfuel; lia].
    rewrite (unvisited_nil mask Hok Hun) in Hfull. discriminate.
  - rewrite (dp_unfold _ _ _ _ Hfull).
    set (prev := cand_at candidate_options last_part last_cand).
    match goal with
    | |- context [fold_left (relax_step ?tot ?key ?sub) ?xs ?init] =>
        pose proof (fold_relax_spec tot key sub xs init) as Hspec;
        set (r := fold_left (relax_step tot key sub) xs init) in *
    end.
    cbv zeta in Hspec. destruct Hspec as (Hsrc & _ & Hall).
    assert (Hsub : forall j,
               (j < N)%nat -> bit_set mask j = false ->
               mask_ok candidate_options (Z.lor mask (Z.shiftl 1 (Z.of_nat j))) /\
               (length (unvisited candidate_options
                          (Z.lor mask (Z.shiftl 1 (Z.of_nat j)))) <= fuel)%nat).
    { intros j Hj Hbit. split; [now apply mask_ok_lor |].
      pose proof (unvisited_lor mask j Hj Hbit). lia. }
    split.
    + intros q p Hr. rewrite Hr in Hsrc.
      destruct Hsrc as [Hinit | ([[j k] c] & Hin & Heq)]; [discriminate |].
      apply in_choices in Hin as (Hj & Hbit & Hk).
      apply lookup_cand_at in Hk as [Hc Hk].
      destruct (Hsub j Hj Hbit) as [Hok' Hfuel'].
      destruct (IH _ j k Hok' Hfuel') as [Hsound _].
      unfold dp_total, dp_choice in Heq. simpl in Heq.
      destruct (dp candidate_options fuel _ j k) as [[q'|] sp] eqn:Hdp;
        simpl in Heq; [ | discriminate].
      injection Heq as -> ->.
      destruct (Hsound q' sp eq_refl) as (t & -> & Hcomp & ->).
      exists ((j, k) :: t). split; [reflexivity |]. split.
      * apply completes_cons. auto.
      * simpl. rewrite Hc. reflexivity.
    + intros [|[j k] t] Hcomp.
      * apply completes_nil in Hcomp; [congruence | exact Hok].
      * apply completes_cons in Hcomp as (Hj & Hk & Hbit & Hcomp).
        destruct (Hsub j Hj Hbit) as [Hok' Hfuel'].
        destruct (IH _ j k Hok' Hfuel') as [_ Hopt].
        specialize (Hopt t Hcomp).
        assert (Hin : In (j, k, cand_at candidate_options j k)
                         (choices candidate_options (bit_set mask))).
        { apply in_choices. repeat split; try assumption.
          now apply cand_at_lookup. }
        specialize (Hall _ Hin). eapply finf_le_trans; [exact Hall |].
        unfold dp_total, dp_choice. simpl. now apply finf_add_le.
Qed.

(** *** The top-level loop *)

Lemma held_karp_loop_unfold :
  held_karp_loop candidate_options
  = fold_left
      (relax_step
         (fun x => finf_add (cost (snd x)) (fst (top_choice candidate_options x)))
         (fun x => (fst (fst x), snd (fst x)))
         (fun x => snd (top_choice candidate_options x)))
      (choices candidate_options (fun _ => false))
      (Infinity, None).
Proof.
  unfold held_karp_loop.
  etransitivity;
    [exact (nested_fold (fun _ => false)
              (fun best i k c =>
                 let '(cost_rest, path_rest) :=
                   dp candidate_options N (Z.shiftl 1 (Z.of_nat i)) i k in
                 relax best (finf_add (cost c) cost_rest) (i, k) path_rest)
              (seq 0 N) (Infinity, None)) |].
  apply fold_left_ext. intros best [[j k] c].
  unfold relax_step, top_choice, N. simpl.
  destruct (dp candidate_options _ _ j k) as [sc sp]. reflexivity.
Qed.

Lemma bit_set_zero (j : nat) : bit_set 0 j = false.
Proof. rewrite bit_set_testbit. apply Z.bits_0. Qed.

Lemma full_tour_completes (t : Tour) :
  full_tour candidate_options t <-> completes candidate_options 0 t.
Proof.
  unfold full_tour, completes. split.
  - intros [Hperm Hvalid]. split; [ | split; [exact Hvalid |]].
    + apply (Permutation_NoDup (Permutation_sym Hperm)), seq_NoDup.
    + intros j Hj. split; [intros _ | intros _; apply bit_set_zero].
      apply (Permutation_in j (Permutation_sym Hperm)), in_seq. fold N. lia.
  - intros (Hnd & Hvalid & Hiff). split; [ | exact Hvalid].
    apply Permutation.NoDup_Permutation; [exact Hnd | apply List.seq_NoDup |].
    intros j. rewrite in_seq. fold N. split.
    + intros Hin. apply in_map_iff in Hin as ([j' k] & <- & Hin).
      rewrite List.Forall_forall in Hvalid. destruct (Hvalid _ Hin) as [Hj _].
      simpl in *. fold N in Hj. lia.
    + intros Hj. apply (Hiff j); [lia | apply bit_set_zero].
Qed.

Lemma first_mask (i : nat) :
  (i < N)%nat ->
  mask_ok candidate_options (Z.shiftl 1 (Z.of_nat i)) /\
  (length (unvisited candidate_options (Z.shiftl 1 (Z.of_nat i))) <= N)%nat.
Proof.
  intros Hi. split.
  - apply (mask_ok_lor 0 i mask_ok_zero Hi).
  - unfold unvisited. etransitivity; [apply List.filter_length_le |].
    rewrite length_seq. reflexivity.
Qed.

(** The loop of [held_karp] on candidates whose costs are fixed: it
    returns a full tour, the cost of that tour, and no full tour is
    cheaper. *)
Lemma held_karp_loop_optimal :
  candidate_options <> [] ->
  Forall (fun partition => partition <> []) candidate_options ->
  exists (q : Q) (tour : Tour),
    held_karp_loop candidate_options = (Finite q, Some tour) /\
    full_tour candidate_options tour /\
    q = tour_cost candidate_options tour /\
    forall tour', full_tour candidate_options tour' ->
                  q <= tour_cost candidate_options tour'.
Proof.
  intros Hne Hparts. rewrite held_karp_loop_unfold.
  match goal with
  | |- context [fold_left (relax_step ?tot ?key ?sub) ?xs ?init] =>
      pose proof (fold_relax_spec tot key sub xs init) as Hspec;
      set (r := fold_left (relax_step tot key sub) xs init) in *
  end.
  cbv zeta in Hspec. destruct Hspec as (Hsrc & _ & Hall).
  (* every full tour bounds the result *)
  assert (Hbound : forall tour', full_tour candidate_options tour' ->
                     finf_le (fst r) (Finite (tour_cost candidate_options tour'))).
  { intros [|[i k] t] Hfull.
    - destruct Hfull as [Hperm _]. simpl in Hperm.
      apply Permutation_nil in Hperm.
      apply (f_equal (@length _)) in Hperm. rewrite length_seq in Hperm.
      exfalso. apply Hne. now apply List.length_zero_iff_nil.
    - apply full_tour_completes, completes_cons in Hfull as (Hi & Hk & _ & Hcomp).
      change (Z.lor 0 (Z.shiftl 1 (Z.of_nat i))) with (Z.shiftl 1 (Z.of_nat i)) in Hcomp.
      destruct (first_mask i Hi) as [Hok Hfuel].
      destruct (dp_correct N _ i k Hok Hfuel) as [_ Hopt].
      specialize (Hopt t Hcomp).
      assert (Hin : In (i, k, cand_at candidate_options i k)
                       (choices candidate_options (fun _ => false))).
      { apply in_choices. repeat split; try assumption. now apply cand_at_lookup. }
      specialize (Hall _ Hin). eapply finf_le_trans; [exact Hall |].
      simpl. now apply finf_add_le. }
  (* there is a full tour *)
  assert (Hex : full_tour candidate_options (map (fun j => (j, 0%nat)) (seq 0 N))).
  { split.
    - rewrite map_map. simpl. rewrite map_id. fold N. apply Permutation_refl.
    - apply List.Forall_forall. intros [j k] Hin.
      apply in_map_iff in Hin as (j' & Heq & Hin). injection Heq as <- <-.
      apply in_seq in Hin. split; simpl; [fold N; lia |].
      rewrite List.Forall_forall in Hparts.
      assert (Hp : nth j' candidate_options [] <> []).
      { apply Hparts, nth_In. unfold N, N_parts in Hin. lia. }
      destruct (nth j' candidate_options []); [congruence | simpl; lia]. }
  specialize (Hbound _ Hex) as Hfin.
  destruct r as [[q|] p] eqn:Hr; simpl in Hfin; [ | destruct Hfin].
  destruct Hsrc as [Hinit | ([[i k] c] & Hin & Heq)]; [discriminate |].
  apply in_choices in Hin as (Hi & _ & Hk).
  apply lookup_cand_at in Hk as [Hc Hk].
  destruct (first_mask i Hi) as [Hok Hfuel].
  destruct (dp_correct N _ i k Hok Hfuel) as [Hsound _].
  unfold top_choice in Heq. fold N in Heq. simpl in Heq.
  destruct (dp candidate_options N _ i k) as [[q'|] sp] eqn:Hdp;
    simpl in Heq; [ | discriminate].
  injection Heq as -> ->.
  destruct (Hsound q' sp eq_refl) as (t & -> & Hcomp & ->).
  exists (cost c + rest_cost candidate_options (cand_at candidate_options i k) t),
         ((i, k) :: t).
  split; [reflexivity |]. split; [ | split].
  - apply full_tour_completes, completes_cons.
    split; [exact Hi |]. split; [exact Hk |]. split; [apply bit_set_zero | exact Hcomp].
  - simpl. rewrite Hc. reflexivity.
  - intros tour' Hfull. specialize (Hbound _ Hfull). exact Hbound.
Qed.
End HeldKarpCorrect.

Lemma adjusted_nonempty (candidate_options : list (list CandidateOption)) :
  candidate_options <> [] ->
  Forall (fun partition => partition <> []) candidate_options ->
  adjusted candidate_options <> [] /\
  Forall (fun partition => partition <> []) (adjusted candidate_options).
Proof.
  intros Hne Hparts. unfold adjusted, adjust_candidate_options. split.
  - destruct candidate_options; [congruence | discriminate].
  - apply List.Forall_forall. intros partition' Hin.
    apply in_map_iff in Hin as (partition & <- & Hin).
    rewrite List.Forall_forall in Hparts. specialize (Hparts _ Hin).
    destruct partition; [congruence | discriminate].
Qed.

(** C1.  On a non-empty sequence of non-empty candidate lists,
    [held_karp] returns a finite cost and a list of (partition, candidate)
    pairs that visits every partition once; the cost is that of this tour
    in visit order, first candidate's adjusted cost, then connector and
    adjusted cost for every following one, and it is the least such cost
    over all orders of the partitions and all choices of candidates (costs
    adjusted with penalty 1). *)
Theorem held_karp_optimal (M : Libm) (candidate_options : list (list CandidateOption)) :
  candidate_options <> [] ->
  Forall (fun partition => partition <> []) candidate_options ->
  exists (q : Q) (tour : Tour),
    held_karp candidate_options = (Finite q, Some tour) /\
    full_tour (adjusted candidate_options) tour /\
    q = tour_cost (adjusted candidate_options) tour /\
    forall tour', full_tour (adjusted candidate_options) tour' ->
                  q <= tour_cost (adjusted candidate_options) tour'.
Proof.
  intros Hne Hparts.
  destruct (adjusted_nonempty candidate_options Hne Hparts) as [Hne' Hparts'].
  exact (held_karp_loop_optimal (adjusted candidate_options) Hne' Hparts').
Qed.

(** The optimum of [two_partitions]. *)
Lemma held_karp_optimal_witness :
  exists (q : Q) (tour : Tour),
    @held_karp grid_libm two_partitions = (Finite q, Some tour) /\
    full_tour (adjusted two_partitions) tour /\
    q = @tour_cost grid_libm (adjusted two_partitions) tour /\
    forall tour', full_tour (adjusted two_partitions) tour' ->
                  q <= @tour_cost grid_libm (adjusted two_partitions) tour'.
Proof.
  apply (held_karp_optimal grid_libm two_partitions).
  - discriminate.
  - repeat constructor; discriminate.
Defined.

(** It starts with the 2-turn candidate of partition 0 and costs
    5 + 1 + 4. *)
Example held_karp_two_partitions :
  @held_karp grid_libm two_partitions = (Finite 10, Some [(0, 0); (1, 0)]%nat).
Proof. vm_compute. reflexivity. Qed.

(** ** The scenarios on the concrete kernel *)

(** S1: the 10 by 4 rectangle is monotone in both axes. *)
Example rectangle_not_troublesome :
  @is_polygon_troublesome rect_kernel rect_10x4 1 = (false, false).
Proof. vm_compute. reflexivity. Qed.

(** S2: the "U" is troublesome horizontally only and stays in one piece. *)
Example u_shape_one_piece :
  @is_polygon_troublesome rect_kernel u_shape 1 = (true, false) /\
  @greedy_partition rect_kernel u_shape 40 1 = Some ([u_shape], []).
Proof. split; vm_compute; reflexivity. Qed.

(** Two squares that share a side merge into one rectangle. *)
Example merge_two_squares :
  @merge_partitions rect_kernel [left_square; right_square] (1 # 1000000)
  = Some [rectangle 0 0 6 3].
Proof. vm_compute. reflexivity. Qed.

(** The cells of [some_cells] go to the square they lie in; the cell
    outside both squares is dropped. *)
Example distribute_some_cells :
  let out :=
    @distribute_cells_to_subclusters rect_kernel some_cells 1 [left_square; right_square] in
  out !! 0%nat = Some [(0, 0); (1, 2)]%Z /\ out !! 1%nat = Some [(0, 3)]%Z.
Proof. split; vm_compute; reflexivity. Qed.

(** * Further properties *)

(** ** Sorting *)

Lemma insert_by_perm {A : Type} (before : A -> A -> bool) (x : A) (l : list A) :
  Permutation (insert_by before x l) (x :: l).
Proof.
  induction l as [|y l IH]; simpl; [reflexivity |].
  destruct (before y x); [ | reflexivity].
  rewrite IH. apply perm_swap.
Qed.

Lemma sorted_by_perm {A : Type} (key : A -> Q) (reverse : bool) (l : list A) :
  Permutation (sorted_by key reverse l) l.
Proof.
  unfold sorted_by. induction l as [|x l IH]; simpl; [reflexivity |].
  rewrite insert_by_perm. now constructor.
Qed.

Lemma sorted_keys_perm (reverse : bool) (l : list Z) :
  Permutation (sorted_keys reverse l) l.
Proof.
  unfold sorted_keys. induction l as [|x l IH]; simpl; [reflexivity |].
  rewrite insert_by_perm. now constructor.
Qed.

Lemma insert_ascending {A : Type} (key : A -> Q) (x : A) (l : list A) :
  ascending key l ->
  ascending key (insert_by (fun y x => Qltb (key y) (key x)) x l).
Proof.
  unfold ascending. induction l as [|y l IH]; intros Hs; simpl.
  - repeat constructor.
  - destruct (Qltb (key y) (key x)) eqn:E.
    + apply Sorted_inv in Hs as [Hs Hhd]. constructor; [now apply IH |].
      destruct l as [|z l]; simpl.
      * constructor. apply Qltb_lt in E. now apply Qlt_le_weak.
      * destruct (Qltb (key z) (key x)).
        -- constructor. now apply HdRel_inv in Hhd.
        -- constructor. apply Qltb_lt in E. now apply Qlt_le_weak.
    + constructor; [exact Hs |]. constructor. now apply Qltb_ge in E.
Qed.

Lemma sorted_by_ascending {A : Type} (key : A -> Q) (l : list A) :
  ascending key (sorted_by key false l).
Proof.
  unfold sorted_by. induction l as [|x l IH]; simpl; [constructor |].
  now apply insert_ascending.
Qed.

(** ** Sweep paths *)

Lemma fold_left_extend {A B : Type} (f : B -> list A) (l : list B) (acc : list A) :
  fold_left (fun path x => path ++ f x) l acc = acc ++ flat_map f l.
Proof.
  revert acc. induction l as [|x l IH]; intros acc; simpl.
  - now rewrite app_nil_r.
  - rewrite IH. now rewrite <- app_assoc.
Qed.

Lemma flat_map_perm_pointwise {A B : Type} (f g : B -> list A) (l : list B) :
  (forall x, Permutation (f x) (g x)) ->
  Permutation (flat_map f l) (flat_map g l).
Proof.
  intros H. induction l as [|x l IH]; simpl; [reflexivity |].
  now apply Permutation_app.
Qed.

Lemma enumerate_flat_map {A B : Type} (f : A -> list B) (l : list A) :
  flat_map (fun ix => f (snd ix)) (enumerate l) = flat_map f l.
Proof.
  induction l as [|x l IH] using rev_ind; [reflexivity |].
  rewrite enumerate_snoc, !flat_map_app, IH. reflexivity.
Qed.

(** The lanes hold the waypoints, each in one lane. *)
Lemma lanes_insert_perm (lanes : gmap Z (list Point2D)) (key : Z) (p : Point2D)
    (seen : list Point2D) :
  Permutation (flat_map snd (map_to_list lanes)) seen ->
  Permutation
    (flat_map snd (map_to_list (<[ key := default [] (lanes !! key) ++ [p] ]> lanes)))
    (seen ++ [p]).
Proof.
  intros Hseen. destruct (lanes !! key) as [l|] eqn:Hkey; simpl.
  - rewrite <- insert_delete_eq.
    rewrite map_to_list_insert by apply lookup_delete_eq.
    rewrite <- (map_to_list_delete lanes key l Hkey) in Hseen. simpl in *.
    rewrite <- Hseen, <- !app_assoc.
    apply Permutation_app_head, Permutation_app_comm.
  - rewrite map_to_list_insert by exact Hkey. simpl.
    rewrite Hseen. apply Permutation_cons_append.
Qed.

Section SweepPath.
Context {M : Libm} {K : Shapely}.

Lemma group_into_lanes_perm (waypoints : list Point2D) (axis_index : nat) (spacing : Q) :
  Permutation
    (flat_map snd (map_to_list (group_into_lanes waypoints axis_index spacing)))
    waypoints.
Proof.
  unfold group_into_lanes. destruct waypoints as [|p0 rest].
  - now rewrite map_to_list_empty.
  - destruct (Qeq_bool spacing 0).
    + rewrite map_to_list_singleton. simpl. now rewrite app_nil_r.
    + set (min_val := fold_left Qmin _ _).
      generalize (p0 :: rest) as waypoints. intros waypoints.
      assert (H : forall (ws seen : list Point2D) (lanes : gmap Z (list Point2D)),
                 Permutation (flat_map snd (map_to_list lanes)) seen ->
                 Permutation
                   (flat_map snd
                      (map_to_list
                         (fold_left
                            (fun (lanes : gmap Z (list Point2D)) p =>
                               let key :=
                                 py_round ((coord axis_index p - min_val) / spacing) in
                               <[ key := default [] (lanes !! key) ++ [p] ]> lanes)
                            ws lanes)))
                   (seen ++ ws)).
      { induction ws as [|w ws IH]; intros seen lanes Hseen; simpl.
        - now rewrite app_nil_r.
        - rewrite (IH (seen ++ [w])); [now rewrite <- app_assoc |].
          now apply lanes_insert_perm. }
      apply (H waypoints [] ∅). now rewrite map_to_list_empty.
Qed.

Lemma lanes_lookup_flat_map (lanes : gmap Z (list Point2D)) :
  flat_map (fun key => default [] (lanes !! key)) (map fst (map_to_list lanes))
  = flat_map snd (map_to_list lanes).
Proof.
  assert (H : forall l : list (Z * list Point2D),
             (forall k v, In (k, v) l -> lanes !! k = Some v) ->
             flat_map (fun key => default [] (lanes !! key)) (map fst l)
             = flat_map snd l).
  { induction l as [|[k v] l IH]; intros Hl; simpl; [reflexivity |].
    rewrite (Hl k v) by now left. simpl. f_equal. apply IH.
    intros k' v' Hin. apply Hl. now right. }
  apply H. intros k v Hin. now apply elem_of_map_to_list, list_elem_of_In.
Qed.

(** The lanes, taken in the order of their keys and each sorted along
    the sweep, hold the waypoints and nothing else. *)
Lemma sweep_path_perm (waypoints : list Point2D) (bin_axis sort_axis : nat)
    (reverse_bin_order reverse_lane_order : bool) :
  Permutation
    (compute_sweep_path waypoints bin_axis sort_axis reverse_bin_order reverse_lane_order)
    waypoints.
Proof.
  unfold compute_sweep_path.
  set (lanes := group_into_lanes _ _ _).
  set (keys := sorted_keys _ _).
  transitivity (flat_map (fun key => default [] (lanes !! key)) keys).
  - pose proof (fold_left_extend
                  (fun ik : nat * Z =>
                     sorted_by (coord sort_axis)
                       (negb ((Nat.even (fst ik) && negb reverse_lane_order)
                              || (Nat.odd (fst ik) && reverse_lane_order)))
                       (default [] (lanes !! snd ik)))
                  (enumerate keys) []) as Hfold.
    simpl in Hfold.
    match goal with
    | |- Permutation ?lhs _ =>
        replace lhs with
          (flat_map
             (fun ik : nat * Z =>
                sorted_by (coord sort_axis)
                  (negb ((Nat.even (fst ik) && negb reverse_lane_order)
                         || (Nat.odd (fst ik) && reverse_lane_order)))
                  (default [] (lanes !! snd ik)))
             (enumerate keys))
    end.
    + rewrite <- (enumerate_flat_map (fun key => default [] (lanes !! key)) keys).
      apply flat_map_perm_pointwise. intros [i key]. apply sorted_by_perm.
    + rewrite <- Hfold. apply fold_left_ext. intros path [i key]. reflexivity.
  - subst keys. rewrite (Permutation_flat_map _ (sorted_keys_perm _ _)).
    rewrite lanes_lookup_flat_map. apply group_into_lanes_perm.
Qed.

(** X1.  A sweep path visits every waypoint exactly once: whatever the
    axis and the two corner flags, [compute_sweep_path] returns a
    rearrangement of its waypoints; it has as many points as there are
    waypoints, a point is on it exactly when it is a waypoint, and it
    repeats no point unless the waypoints do. *)
Theorem compute_sweep_path_perm (waypoints : list Point2D) (bin_axis sort_axis : nat)
    (reverse_bin_order reverse_lane_order : bool) :
  let path :=
    compute_sweep_path waypoints bin_axis sort_axis reverse_bin_order reverse_lane_order in
  Permutation path waypoints /\
  length path = length waypoints /\
  (forall p, In p path <-> In p waypoints) /\
  (List.NoDup waypoints -> List.NoDup path).
Proof.
  intros path.
  pose proof (sweep_path_perm waypoints bin_axis sort_axis reverse_bin_order
                reverse_lane_order) as Hperm.
  fold path in Hperm.
  split; [exact Hperm |].
  split; [now apply Permutation_length |].
  split.
  - intros p. split; apply Permutation_in; [exact Hperm | now symmetry].
  - intros Hnd. eapply Permutation.Permutation_NoDup; [symmetry; exact Hperm | exact Hnd].
Qed.
End SweepPath.

(** ** Candidates *)

Section CandidateProperties.
Context {M : Libm} {K : Shapely}.

Lemma corner_variants_perm (waypoints : list Point2D) (bin_axis sort_axis : nat) :
  length (corner_variants_for_direction waypoints bin_axis sort_axis) = 4%nat /\
  Forall (fun p => Permutation p waypoints)
         (corner_variants_for_direction waypoints bin_axis sort_axis).
Proof.
  split; [reflexivity |].
  unfold corner_variants_for_direction.
  repeat constructor; apply sweep_path_perm.
Qed.

Lemma candidate_paths_perm (waypoints : list Point2D) (polygon : option Polygon) :
  (length (candidate_paths waypoints polygon) = 4 \/
   length (candidate_paths waypoints polygon) = 8)%nat /\
  Forall (fun p => Permutation p waypoints) (candidate_paths waypoints polygon).
Proof.
  unfold candidate_paths.
  destruct (corner_variants_perm waypoints 0 1) as [Hl1 Hp1].
  destruct (corner_variants_perm waypoints 1 0) as [Hl2 Hp2].
  destruct (allowed_orientations polygon) as [[] []]; simpl "||"; simpl "&&"; cbv iota;
    rewrite ?app_nil_r, ?app_nil_l, ?length_app, ?Hl1, ?Hl2;
    (split; [auto | try apply Forall_app; auto]).
Qed.

Lemma to_candidate_options_spec (Q0 : list Point2D -> Prop) (paths : list (list Point2D)) :
  Forall (fun p => p <> [] /\ Q0 p) paths ->
  length (to_candidate_options paths) = length paths /\
  Forall (fun c => exists p, candidate_of c p /\ Q0 p) (to_candidate_options paths).
Proof.
  induction 1 as [|p paths [Hne HQ] Hall [IHl IHf]]; simpl.
  - split; [reflexivity | constructor].
  - destruct p as [|first rest]; [congruence |]. simpl. split; [now rewrite IHl |].
    constructor; [ | exact IHf].
    exists (first :: rest). split; [ | exact HQ].
    unfold candidate_of. simpl. repeat split. now exists first, rest.
Qed.

Lemma candidate_options_spec (waypoints : list Point2D) (polygon : option Polygon) :
  waypoints <> [] ->
  (length (get_candidate_options waypoints polygon) = 4 \/
   length (get_candidate_options waypoints polygon) = 8)%nat /\
  Forall (fun c => exists p, candidate_of c p /\ Permutation p waypoints)
         (get_candidate_options waypoints polygon).
Proof.
  intros Hne. unfold get_candidate_options.
  destruct (candidate_paths_perm waypoints polygon) as [Hlen Hperm].
  destruct (to_candidate_options_spec (fun p => Permutation p waypoints)
              (candidate_paths waypoints polygon)) as [Hl Hf].
  - eapply List.Forall_impl; [ | exact Hperm]. intros p Hp. split; [ | exact Hp].
    intros ->. apply Permutation_nil in Hp. congruence.
  - rewrite Hl. split; assumption.
Qed.

(** X2.  Without waypoints the generator returns no candidate.  With
    waypoints it returns four or eight candidates, and each of them stores
    a path that visits every waypoint exactly once, with the first point
    of the path as entry, the last as exit, the length of the path as cost
    and its number of turns. *)
Theorem candidates_cover_waypoints (waypoints : list Point2D) (polygon : option Polygon) :
  get_candidate_options [] polygon = [] /\
  (waypoints <> [] ->
   (length (get_candidate_options waypoints polygon) = 4 \/
    length (get_candidate_options waypoints polygon) = 8)%nat /\
   Forall (fun c => exists p, candidate_of c p /\ Permutation p waypoints)
          (get_candidate_options waypoints polygon)).
Proof.
  split.
  - unfold get_candidate_options, candidate_paths, corner_variants_for_direction,
      compute_sweep_path.
    unfold group_into_lanes. rewrite map_to_list_empty. simpl.
    destruct (allowed_orientations polygon) as [[] []]; reflexivity.
  - apply candidate_options_spec.
Qed.

Lemma consecutive_length {A : Type} (l : list A) :
  length (consecutive l) = (length l - 1)%nat.
Proof.
  induction l as [|a [|b l] IH]; simpl in *; [reflexivity | reflexivity |].
  rewrite IH. lia.
Qed.

Lemma fold_count_bounds {X : Type} (f : Z -> X -> Z) (l : list X) (acc : Z) :
  (forall a x, f a x = a \/ f a x = (a + 1)%Z) ->
  (acc <= fold_left f l acc <= acc + Z.of_nat (length l))%Z.
Proof.
  intros Hf. revert acc. induction l as [|x l IH]; intros acc.
  - simpl. lia.
  - cbn [fold_left length]. specialize (IH (f acc x)).
    destruct (Hf acc x) as [E | E]; rewrite E in *; lia.
Qed.

(** X3.  The number of turns of a path is not negative and at most its
    number of interior points, [len(path) - 2]; a path of fewer than three
    points has no turn. *)
Theorem count_turns_bounds (path : list Point2D) :
  (0 <= count_turns path <= Z.of_nat (length path - 2))%Z /\
  ((length path < 3)%nat -> count_turns path = 0%Z).
Proof.
  unfold count_turns. split.
  - destruct (length path <? 3)%nat; [lia |].
    set (orientations :=
           map (fun '(a, b) => atan2 (snd b - snd a) (fst b - fst a)) (consecutive path)).
    assert (Hlen : length (consecutive orientations) = (length path - 2)%nat).
    { rewrite consecutive_length. subst orientations.
      rewrite length_map, consecutive_length. now rewrite <- Nat.sub_add_distr. }
    rewrite <- Hlen.
    match goal with
    | |- (_ <= fold_left ?f ?l _ <= _)%Z =>
        pose proof (fold_count_bounds f l 0%Z) as Hb
    end.
    rewrite Z.add_0_l in Hb. apply Hb.
    intros acc [o1 o2]. destruct (Qltb _ _); auto.
  - intros Hlt. apply Nat.ltb_lt in Hlt. now rewrite Hlt.
Qed.

Lemma median_above (lo : Q) (l : list Q) :
  l <> [] -> (forall x, In x l -> lo < x) -> lo < median l.
Proof.
  intros Hne Hall. unfold median.
  set (data := sorted_by (fun x => x) false l).
  assert (Hperm : Permutation data l) by apply sorted_by_perm.
  assert (Hlen : (0 < length data)%nat).
  { rewrite (Permutation_length Hperm). destruct l; [congruence | simpl; lia]. }
  assert (Hnth : forall i, (i < length data)%nat -> lo < nth i data 0).
  { intros i Hi. apply Hall, (Permutation_in _ Hperm), nth_In, Hi. }
  assert (Hhalf : (length data / 2 < length data)%nat)
    by (apply Nat.div_lt; lia).
  destruct (Nat.even (length data)).
  - pose proof (Hnth (length data / 2 - 1)%nat ltac:(lia)).
    pose proof (Hnth (length data / 2)%nat Hhalf).
    apply Qlt_shift_div_l; lra.
  - now apply Hnth.
Qed.

(** X4.  The lane spacing is exactly 0 (all waypoints in one lane) or
    larger than the threshold 1e-6: [group_into_lanes] never divides by a
    spacing between the two. *)
Theorem compute_cell_spacing_zero_or_large (waypoints : list Point2D) (axis_index : nat) :
  compute_cell_spacing waypoints axis_index = 0 \/
  (1 # 1000000) < compute_cell_spacing waypoints axis_index.
Proof.
  unfold compute_cell_spacing.
  set (diffs := List.filter _ _).
  destruct diffs as [|d diffs'] eqn:E; [now left | right].
  simpl null. cbv iota. apply median_above; [discriminate |].
  intros x Hx. rewrite <- E in Hx. subst diffs.
  apply List.filter_In in Hx as [_ Hx]. now apply Qltb_lt.
Qed.
End CandidateProperties.

(** ** The gap quantifier *)

Lemma gap_widths_nonneg {A : Type} (key : A -> Q) (l : list A) :
  ascending key l -> Forall (fun g => 0 <= g) (gap_widths (map key l)).
Proof.
  unfold ascending.
  assert (H : forall n (m : list A), (length m <= n)%nat ->
                Sorted (fun a b => key a <= key b) m ->
                Forall (fun g => 0 <= g) (gap_widths (map key m))).
  { induction n as [|n IH]; intros m Hlen Hs.
    - destruct m; [constructor | simpl in Hlen; lia].
    - destruct m as [|a [|b m]]; [constructor | constructor |].
      simpl. apply Sorted_inv in Hs as [Hs Hab]. apply HdRel_inv in Hab.
      apply Sorted_inv in Hs as [Hs _].
      constructor; [lra |]. apply IH; [simpl in Hlen; lia | exact Hs]. }
  apply (H (length l)). lia.
Qed.

Lemma ascending_tl {A : Type} (key : A -> Q) (l : list A) :
  ascending key l -> ascending key (tl l).
Proof.
  unfold ascending. destruct l; simpl; [auto |]. intros H. now apply Sorted_inv in H.
Qed.

Lemma fold_gaps_inv (gaps : list Q) (total_gap max_gap : Q) :
  Forall (fun g => 0 <= g) gaps ->
  0 <= max_gap <= total_gap ->
  0 <= fold_left Qmax gaps max_gap <= fold_left Qplus gaps total_gap.
Proof.
  intros Hg. revert total_gap max_gap.
  induction Hg as [|g gaps Hg0 Hg IH]; intros total_gap max_gap [H0 H1]; simpl.
  - split; assumption.
  - apply IH. split.
    + apply Qle_trans with max_gap; [exact H0 | apply Q.le_max_l].
    + apply Q.max_lub; lra.
Qed.

Section GapQuantifier.
Context {K : Shapely}.

Lemma band_step_inv (polygon : Polygon) (along : Point2D -> Q) (sweep_line : Line)
    (band : Polygon) (total_gap max_gap : Q) (band_union : option Geom) :
  0 <= max_gap <= total_gap ->
  let '(total', max', _) :=
    band_step polygon along sweep_line band (total_gap, max_gap, band_union) in
  0 <= max' <= total'.
Proof.
  intros H. unfold band_step.
  apply fold_gaps_inv; [ | exact H].
  destruct (2 <? length _)%nat; [ | constructor].
  apply gap_widths_nonneg, ascending_tl, sorted_by_ascending.
Qed.

Lemma fold_band_inv {X : Type} (step : Q * Q * option Geom -> X -> Q * Q * option Geom)
    (l : list X) (acc : Q * Q * option Geom) :
  (forall t m u x, 0 <= m <= t ->
                   let '(t', m', _) := step (t, m, u) x in 0 <= m' <= t') ->
  (let '(t, m, _) := acc in 0 <= m <= t) ->
  let '(t, m, _) := fold_left step l acc in 0 <= m <= t.
Proof.
  intros Hstep. revert acc. induction l as [|x l IH]; intros [[t m] u] Hacc; simpl.
  - exact Hacc.
  - apply IH. apply Hstep. exact Hacc.
Qed.

(** X6.  In the metrics of [quantify_gap_severity] every maximum gap is
    between 0 and the total gap of its direction, so no total is negative,
    and the combined gap is the sum of the two totals. *)
Theorem gap_metrics_ordered (polygon : Polygon) (tolerance : Q)
    (candidate_source : CandidateSource) :
  let m := quantify_gap_severity polygon tolerance candidate_source in
  0 <= max_horizontal_gap m <= total_horizontal_gap m /\
  0 <= max_vertical_gap m <= total_vertical_gap m /\
  combined_gap m = total_horizontal_gap m + total_vertical_gap m.
Proof.
  unfold quantify_gap_severity.
  destruct (bounds polygon) as [[[minx miny] maxx] maxy].
  match goal with
  | |- context [fold_left ?f ?l (0, 0, None)] =>
      pose proof (fold_band_inv f l (0, 0, None)) as Hh;
      destruct (fold_left f l (0, 0, None)) as [[total_h max_h] union_h]
  end.
  match goal with
  | |- context [fold_left ?f ?l (0, 0, None)] =>
      pose proof (fold_band_inv f l (0, 0, None)) as Hv;
      destruct (fold_left f l (0, 0, None)) as [[total_v max_v] union_v]
  end.
  simpl. split; [ | split; [ | reflexivity]].
  - apply Hh; [ | split; apply Qle_refl].
    intros t m u [lo hi] Hm. now apply band_step_inv.
  - apply Hv; [ | split; apply Qle_refl].
    intros t m u [lo hi] Hm. now apply band_step_inv.
Qed.
End GapQuantifier.

Section QuantifierAnalyzer.
Context {K : Shapely}.

Lemma band_step_quiet (polygon : Polygon) (along : Point2D -> Q) (sweep_line : Line)
    (band : Polygon) (acc : Q * Q * option Geom) :
  (2 <? length (crossings polygon sweep_line))%nat = false ->
  band_step polygon along sweep_line band acc = acc.
Proof.
  intros Hq. destruct acc as [[t m] u]. unfold band_step.
  rewrite (Permutation_length (sorted_by_perm along false (crossings polygon sweep_line))).
  rewrite Hq. simpl. reflexivity.
Qed.

Lemma fold_left_quiet {A X : Type} (step : A -> X -> A) (l : list X) (acc : A) :
  (forall a x, In x l -> step a x = a) -> fold_left step l acc = acc.
Proof.
  revert acc. induction l as [|x l IH]; intros acc H; simpl; [reflexivity |].
  rewrite (H acc x) by now left. apply IH. intros a y Hy. apply H. now right.
Qed.

Lemma existsb_false_inv {A : Type} (f : A -> bool) (l : list A) (x : A) :
  existsb f l = false -> In x l -> f x = false.
Proof.
  intros He Hin. destruct (f x) eqn:E; [ | reflexivity].
  assert (Ht : existsb f l = true) by (apply existsb_exists; eauto).
  congruence.
Qed.

(** X7.  When the quantifier sweeps the coordinates of all rings, or the
    polygon has no hole, it agrees with the trouble analyzer: a direction
    that [is_polygon_troublesome] does not report has no union of
    troublesome bands and no gap. *)
Theorem quantifier_agrees_with_analyzer (polygon : Polygon) (tolerance : Q)
    (candidate_source : CandidateSource) :
  candidate_source = AllRings \/ interiors polygon = [] ->
  let m := quantify_gap_severity polygon tolerance candidate_source in
  (fst (is_polygon_troublesome polygon tolerance) = false ->
   horizontal_union m = None /\ total_horizontal_gap m = 0 /\ max_horizontal_gap m = 0) /\
  (snd (is_polygon_troublesome polygon tolerance) = false ->
   vertical_union m = None /\ total_vertical_gap m = 0 /\ max_vertical_gap m = 0).
Proof.
  intros Hsrc.
  assert (Hcoords :
            match candidate_source with
            | AllRings => gather_all_ring_coords polygon
            | Exterior => exterior polygon
            end = gather_all_ring_coords polygon).
  { destruct Hsrc as [-> | Hholes]; [reflexivity |].
    destruct candidate_source; [ | reflexivity].
    unfold gather_all_ring_coords. rewrite Hholes. simpl. now rewrite app_nil_r. }
  unfold quantify_gap_severity, is_polygon_troublesome, horizontal_sweeps, vertical_sweeps.
  rewrite Hcoords.
  destruct (bounds polygon) as [[[minx miny] maxx] maxy]. cbn [fst snd].
  set (ys := sorted_set (map (fun pt => snap tolerance (snd pt)) _)).
  set (xs := sorted_set (map (fun pt => snap tolerance (fst pt)) _)).
  split; intros Hquiet.
  - rewrite fold_left_quiet.
    + destruct (fold_left _ (consecutive xs) _) as [[tv mv] uv]. simpl. auto.
    + intros a [lo hi] Hin. apply band_step_quiet.
      apply (existsb_false_inv _ _ _ Hquiet).
      apply in_map_iff. exists (lo, hi). auto.
  - destruct (fold_left _ (consecutive ys) _) as [[th mh] uh].
    rewrite fold_left_quiet; [simpl; auto |].
    intros a [lo hi] Hin. apply band_step_quiet.
    apply (existsb_false_inv _ _ _ Hquiet).
    apply in_map_iff. exists (lo, hi). auto.
Qed.
End QuantifierAnalyzer.

(** ** The records of the partitioner *)

Section GreedyPasses.
Context {K : Shapely}.

Lemma horizontal_cut_parallel (polygon : Polygon) (g : Geom) :
  axis_parallel (horizontal_cut polygon g).
Proof.
  unfold horizontal_cut.
  destruct (bounds polygon) as [[[minx miny] maxx] maxy].
  destruct (geom_bounds g) as [[[a b] c] d]. left. reflexivity.
Qed.

Lemma vertical_cut_parallel (polygon : Polygon) (g : Geom) :
  axis_parallel (vertical_cut polygon g).
Proof.
  unfold vertical_cut.
  destruct (bounds polygon) as [[[minx miny] maxx] maxy].
  destruct (geom_bounds g) as [[[a b] c] d]. right. reflexivity.
Qed.

Lemma choose_cut_parallel (polygon : Polygon) (m : GapMetrics) (l : Line) :
  choose_cut polygon m = Some l -> axis_parallel l.
Proof.
  unfold choose_cut.
  destruct (horizontal_union m), (vertical_union m); try discriminate;
    try destruct (Qle_bool _ _); intros H; injection H as <-;
    auto using horizontal_cut_parallel, vertical_cut_parallel.
Qed.

Lemma cut_polygon_pass (polygon : Polygon) (depth : nat) (tolerance : Q)
    (out : CutOutcome) :
  cut_polygon polygon depth tolerance = Some out ->
  pass_depth (pass_of out) = depth /\
  subject_polygon (pass_of out) = polygon /\
  metrics (pass_of out) = quantify_gap_severity polygon tolerance Exterior /\
  (forall l, cut_line (pass_of out) = Some l -> axis_parallel l) /\
  (forall pass splitted, out = Cut pass splitted -> (1 < length splitted)%nat).
Proof.
  unfold cut_polygon.
  set (m := quantify_gap_severity polygon tolerance Exterior).
  destruct (choose_cut polygon m) as [line|] eqn:Hline.
  - pose proof (choose_cut_parallel _ _ _ Hline) as Hpar.
    destruct (split polygon line) as [splitted|].
    + set (retry := if (length splitted <=? 1)%nat then _ else _).
      assert (Hretry : forall line' s, retry = Some (line', s) -> axis_parallel line').
      { subst retry. intros line' s.
        destruct (length splitted <=? 1)%nat; [ | intros H; now injection H as <- <-].
        destruct (is_horizontal line).
        - destruct (vertical_union m) as [vu|]; [ | intros H; now injection H as <- <-].
          destruct (split polygon (vertical_cut polygon vu)); simpl; [ | discriminate].
          intros H. injection H as <- <-. apply vertical_cut_parallel.
        - destruct (horizontal_union m) as [hu|]; [ | intros H; now injection H as <- <-].
          destruct (split polygon (horizontal_cut polygon hu)); simpl; [ | discriminate].
          intros H. injection H as <- <-. apply horizontal_cut_parallel. }
      destruct retry as [[line' splitted']|]; [ | discriminate].
      specialize (Hretry line' splitted' eq_refl).
      destruct (length splitted' <=? 1)%nat eqn:Hlen; intros H; injection H as <-; simpl;
        (repeat split; try reflexivity;
         [intros l Hl; now injection Hl as <- | intros pass s Hc; try discriminate Hc]).
      injection Hc as <- <-. apply Nat.leb_gt in Hlen. exact Hlen.
    + intros H. injection H as <-. simpl. repeat split; try reflexivity.
      * intros l Hl. now injection Hl as <-.
      * intros pass s Hc. discriminate Hc.
  - intros H. injection H as <-. simpl. repeat split; try reflexivity.
    + intros l Hl. discriminate Hl.
    + intros pass s Hc. discriminate Hc.
Qed.

Lemma pass_ok_weaken (tolerance : Q) (lo lo' hi hi' : nat) (pr : PassRecord) :
  (lo' <= lo)%nat -> (hi <= hi')%nat ->
  pass_ok tolerance lo hi pr -> pass_ok tolerance lo' hi' pr.
Proof.
  intros Hlo Hhi ([H1 H2] & H3 & H4 & H5). repeat split; try assumption; lia.
Qed.

Lemma greedy_rec_passes (remaining : nat) :
  forall (polygon : Polygon) (depth : nat) (tolerance : Q)
         (pieces : list Polygon) (passes : list PassRecord),
    greedy_rec remaining polygon depth tolerance = Some (pieces, passes) ->
    Forall (pass_ok tolerance depth (depth + remaining)) passes /\
    (passes = [] -> pieces = [polygon]) /\
    (forall pr rest, passes = pr :: rest ->
                     subject_polygon pr = polygon /\ pass_depth pr = depth).
Proof.
  induction remaining as [|r IH]; intros polygon depth tolerance pieces passes Hrec.
  - simpl in Hrec. injection Hrec as <- <-.
    split; [constructor | split; [reflexivity | discriminate]].
  - simpl in Hrec.
    destruct (both_troublesome polygon tolerance) eqn:Hboth; simpl in Hrec.
    + apply both_troublesome_iff in Hboth.
      destruct (cut_polygon polygon depth tolerance) as [out|] eqn:Hcut; [ | discriminate].
      destruct (cut_polygon_pass _ _ _ _ Hcut) as (Hd & Hs & Hm & Hl & _).
      assert (Hpass : pass_ok tolerance depth (depth + S r) (pass_of out)).
      { split; [rewrite Hd; lia |]. split; [rewrite Hs; exact Hboth |].
        split; [rewrite Hm, Hs; reflexivity | exact Hl]. }
      destruct out as [pass | pass splitted]; simpl in Hpass, Hs, Hd.
      * injection Hrec as <- <-.
        split; [constructor; [exact Hpass | constructor] |].
        split; [discriminate | intros pr rest H; injection H as <- <-; auto].
      * assert (Hloop :
          forall (targets : list Polygon) (ps0 : list Polygon) (passes0 : list PassRecord),
            fold_left
              (fun acc piece =>
                 match acc, greedy_rec r piece (S depth) tolerance with
                 | Some (pieces, passes), Some (child_pieces, child_passes) =>
                     Some (pieces ++ child_pieces, passes ++ child_passes)
                 | _, _ => None
                 end) targets (Some (ps0, passes0)) = Some (pieces, passes) ->
            exists extra,
              passes = passes0 ++ extra /\
              Forall (pass_ok tolerance depth (depth + S r)) extra).
        { induction targets as [|t targets IHt]; intros ps0 passes0 Hfold.
          - simpl in Hfold. injection Hfold as <- <-. exists [].
            split; [now rewrite app_nil_r | constructor].
          - simpl in Hfold.
            destruct (greedy_rec r t (S depth) tolerance) as [[cp cps] | ] eqn:Hchild.
            + destruct (IH _ _ _ _ _ Hchild) as (Hok & _ & _).
              destruct (IHt _ _ Hfold) as (extra & -> & Hextra).
              exists (cps ++ extra). split; [now rewrite app_assoc |].
              apply Forall_app. split; [ | exact Hextra].
              eapply List.Forall_impl; [ | exact Hok].
              intros pr. apply pass_ok_weaken; lia.
            + exfalso. revert Hfold.
              match goal with
              | |- fold_left ?f _ _ = _ -> _ =>
                  assert (Hn : forall l, fold_left f l None = None)
                    by (induction l; simpl; auto)
              end.
              rewrite Hn. discriminate. }
        destruct (Hloop _ _ _ Hrec) as (extra & -> & Hextra).
        split; [constructor; [exact Hpass | exact Hextra] |].
        split; [discriminate | intros pr rest H; injection H as <- _; auto].
    + injection Hrec as <- <-.
      split; [constructor | split; [reflexivity | discriminate]].
Qed.

(** X8.  Every record of the passes [greedy_partition] returns was made
    at a depth below [max_depth], on a polygon that is troublesome in both
    axes, holds the gap metrics of that polygon, and its cut line, if any,
    is horizontal or vertical; the first record is about the input polygon
    at depth 0, and when nothing was recorded the input polygon is the
    only piece. *)
Theorem greedy_passes_recorded (polygon : Polygon) (max_depth : nat) (tolerance : Q)
    (pieces : list Polygon) (passes : list PassRecord) :
  greedy_partition polygon max_depth tolerance = Some (pieces, passes) ->
  Forall (pass_ok tolerance 0 max_depth) passes /\
  (passes = [] -> pieces = [polygon]) /\
  (forall pr rest, passes = pr :: rest ->
                   subject_polygon pr = polygon /\ pass_depth pr = 0%nat).
Proof.
  unfold greedy_partition, _greedy_partition. rewrite Nat.sub_0_r.
  apply greedy_rec_passes.
Qed.

(** A cut that is taken is the split of the polygon along the recorded
    line. *)
Lemma cut_polygon_split (polygon : Polygon) (depth : nat) (tolerance : Q)
    (pass : PassRecord) (splitted : list Geom) :
  cut_polygon polygon depth tolerance = Some (Cut pass splitted) ->
  subject_polygon pass = polygon /\
  exists line, cut_line pass = Some line /\ split polygon line = Some splitted /\
               (1 < length splitted)%nat.
Proof.
  unfold cut_polygon.
  set (m := quantify_gap_severity polygon tolerance Exterior).
  destruct (choose_cut polygon m) as [line|]; [ | discriminate].
  destruct (split polygon line) as [splitted0|] eqn:Hsplit; [ | discriminate].
  set (retry := if (length splitted0 <=? 1)%nat then _ else _).
  assert (Hretry : forall line' s, retry = Some (line', s) -> split polygon line' = Some s).
  { subst retry. intros line' s.
    destruct (length splitted0 <=? 1)%nat; [ | intros H; now injection H as <- <-].
    destruct (is_horizontal line).
    - destruct (vertical_union m) as [vu|]; [ | intros H; now injection H as <- <-].
      destruct (split polygon (vertical_cut polygon vu)) eqn:E; simpl; [ | discriminate].
      intros H. now injection H as <- <-.
    - destruct (horizontal_union m) as [hu|]; [ | intros H; now injection H as <- <-].
      destruct (split polygon (horizontal_cut polygon hu)) eqn:E; simpl; [ | discriminate].
      intros H. now injection H as <- <-. }
  destruct retry as [[line' splitted']|]; [ | discriminate].
  specialize (Hretry line' splitted' eq_refl).
  destruct (length splitted' <=? 1)%nat eqn:Hlen; [discriminate |].
  intros H. injection H as <- <-. simpl. split; [reflexivity |].
  exists line'. split; [reflexivity |]. split; [exact Hretry |].
  now apply Nat.leb_gt in Hlen.
Qed.

Lemma from_split_app (passes more : list PassRecord) (piece : Polygon) :
  from_split passes piece \/ from_split more piece -> from_split (passes ++ more) piece.
Proof.
  intros [(pr & Hin & H) | (pr & Hin & H)]; exists pr; (split; [ | exact H]);
    apply in_or_app; auto.
Qed.

Lemma greedy_rec_pieces (remaining : nat) :
  forall (polygon : Polygon) (depth : nat) (tolerance : Q)
         (pieces : list Polygon) (passes : list PassRecord),
    greedy_rec remaining polygon depth tolerance = Some (pieces, passes) ->
    Forall (fun piece => piece = polygon \/ from_split passes piece) pieces.
Proof.
  induction remaining as [|r IH]; intros polygon depth tolerance pieces passes Hrec.
  - simpl in Hrec. injection Hrec as <- <-. constructor; [now left | constructor].
  - simpl in Hrec.
    destruct (both_troublesome polygon tolerance); simpl in Hrec;
      [ | injection Hrec as <- <-; constructor; [now left | constructor]].
    destruct (cut_polygon polygon depth tolerance) as [[pass | pass splitted]|] eqn:Hcut;
      [ | | discriminate].
    + injection Hrec as <- <-. constructor; [now left | constructor].
    + destruct (cut_polygon_split _ _ _ _ _ Hcut) as (Hs & line & Hline & Hsplit & Hlen).
      assert (Hloop :
        forall (targets : list Polygon) (ps0 : list Polygon) (passes0 : list PassRecord),
          fold_left
            (fun acc piece =>
               match acc, greedy_rec r piece (S depth) tolerance with
               | Some (pieces, passes), Some (child_pieces, child_passes) =>
                   Some (pieces ++ child_pieces, passes ++ child_passes)
               | _, _ => None
               end) targets (Some (ps0, passes0)) = Some (pieces, passes) ->
          exists child_pieces extra,
            pieces = ps0 ++ child_pieces /\ passes = passes0 ++ extra /\
            Forall (fun piece => In piece targets \/ from_split extra piece) child_pieces).
      { induction targets as [|t targets IHt]; intros ps0 passes0 Hfold.
        - simpl in Hfold. injection Hfold as <- <-. exists [], [].
          split; [now rewrite app_nil_r |]. split; [now rewrite app_nil_r | constructor].
        - simpl in Hfold.
          destruct (greedy_rec r t (S depth) tolerance) as [[cp cps] | ] eqn:Hchild.
          + pose proof (IH _ _ _ _ _ Hchild) as Hcp.
            destruct (IHt _ _ Hfold) as (child_pieces & extra & -> & -> & Hrest).
            exists (cp ++ child_pieces), (cps ++ extra).
            split; [now rewrite app_assoc |]. split; [now rewrite app_assoc |].
            apply Forall_app. split.
            * eapply List.Forall_impl; [ | exact Hcp].
              intros piece [-> | Hfrom]; [left; now left |].
              right. apply from_split_app. now left.
            * eapply List.Forall_impl; [ | exact Hrest].
              intros piece [Hin | Hfrom]; [left; now right |].
              right. apply from_split_app. now right.
          + exfalso. revert Hfold.
            match goal with
            | |- fold_left ?f _ _ = _ -> _ =>
                assert (Hn : forall l, fold_left f l None = None)
                  by (induction l; simpl; auto)
            end.
            rewrite Hn. discriminate. }
      destruct (Hloop _ _ _ Hrec) as (child_pieces & extra & -> & -> & Hchildren).
      simpl. eapply List.Forall_impl; [ | exact Hchildren].
      intros piece [Hin | Hfrom]; right.
      * exists pass. split; [now left |].
        exists line, splitted. rewrite Hs. auto.
      * apply (from_split_app [pass] extra). now right.
Qed.

(** X21.  Where the pieces come from: every piece [greedy_partition]
    returns is the input polygon itself, or one of the polygons of a
    split, into more than one part, of the polygon of a recorded pass
    along the cut line of that record. *)
Theorem greedy_pieces_provenance (polygon : Polygon) (max_depth : nat) (tolerance : Q)
    (pieces : list Polygon) (passes : list PassRecord) :
  greedy_partition polygon max_depth tolerance = Some (pieces, passes) ->
  Forall (fun piece => piece = polygon \/ from_split passes piece) pieces.
Proof.
  unfold greedy_partition, _greedy_partition. rewrite Nat.sub_0_r.
  apply greedy_rec_pieces.
Qed.
End GreedyPasses.

(** ** More on the merger *)

Section MergeMore.
Context {K : Shapely}.

Lemma fold_merge_outer_none (partitions : list Polygon) (tolerance : Q) (js : list nat) :
  fold_left (merge_outer partitions tolerance) js None = None.
Proof. induction js as [|j js IH]; simpl; [reflexivity | exact IH]. Qed.

Lemma merge_outer_grows (partitions : list Polygon) (tolerance : Q) (idxs : list nat) :
  forall st st',
    fold_left (merge_outer partitions tolerance) idxs (Some st) = Some st' ->
    (length (fst (fst st)) <= length (fst (fst st')))%nat.
Proof.
  induction idxs as [|i idxs IH]; intros [[np u] m] st' Hfold; simpl in Hfold.
  - injection Hfold as <-. simpl. lia.
  - destruct (decide (i ∈ u)); [now apply IH in Hfold |].
    destruct (partitions !! i) as [poly_i|];
      [ | now rewrite fold_merge_outer_none in Hfold].
    destruct (fold_left (merge_inner partitions tolerance) _ _) as [[[p' u'] m'] | ];
      [ | now rewrite fold_merge_outer_none in Hfold].
    apply IH in Hfold. simpl in *. rewrite length_app in Hfold. simpl in Hfold. lia.
Qed.

Lemma merge_pass_nonempty (partitions new_partitions : list Polygon) (tolerance : Q)
    (merged_any : bool) :
  merge_pass partitions tolerance = Some (new_partitions, merged_any) ->
  partitions <> [] -> new_partitions <> [].
Proof.
  unfold merge_pass. intros Hpass Hne.
  destruct partitions as [|p0 rest]; [congruence |].
  cbn [length seq fold_left] in Hpass.
  unfold merge_outer at 2 in Hpass.
  destruct (decide (0%nat ∈ (∅ : gset nat))) as [Hin | _];
    [now apply elem_of_empty in Hin |].
  cbn [lookup list_lookup] in Hpass.
  destruct (fold_left (merge_inner (p0 :: rest) tolerance) _ _) as [[[p' u'] m'] | ];
    [ | now rewrite fold_merge_outer_none in Hpass].
  destruct (fold_left (merge_outer (p0 :: rest) tolerance) _ _) as [[[np u] m] | ] eqn:Hfold;
    [ | discriminate].
  injection Hpass as <- <-.
  apply merge_outer_grows in Hfold. simpl in Hfold.
  intros ->. simpl in Hfold. lia.
Qed.

Lemma merge_loop_length (tolerance : Q) (fuel : nat) :
  forall partitions merged,
    merge_loop fuel partitions tolerance = Some merged ->
    (length merged <= length partitions)%nat /\ (partitions <> [] -> merged <> []).
Proof.
  induction fuel as [|f IH]; intros partitions merged Hloop; simpl in Hloop.
  - injection Hloop as <-. auto.
  - destruct (merge_pass partitions tolerance) as [[newp [|]] | ] eqn:Hpass;
      [ | | discriminate].
    + pose proof (merge_pass_shorter _ _ _ Hpass).
      pose proof (merge_pass_nonempty _ _ _ _ Hpass) as Hne.
      destruct (IH _ _ Hloop) as [Hlen Hne']. split; [lia | auto].
    + injection Hloop as <-.
      pose proof (merge_pass_unchanged _ _ _ Hpass) as ->. auto.
Qed.

(** X9.  Merging never lengthens the list of partitions and never empties
    a non-empty one; a list of fewer than two partitions is returned as it
    is. *)
Theorem merge_partitions_length (partitions : list Polygon) (tolerance : Q) :
  (forall merged,
      merge_partitions partitions tolerance = Some merged ->
      (length merged <= length partitions)%nat /\ (partitions <> [] -> merged <> [])) /\
  ((length partitions < 2)%nat -> merge_partitions partitions tolerance = Some partitions).
Proof.
  split.
  - intros merged. apply merge_loop_length.
  - intros Hlen. destruct partitions as [|p [|q rest]]; [ | | simpl in Hlen; lia].
    + reflexivity.
    + unfold merge_partitions, merge_loop, merge_pass.
      cbn [length seq fold_left]. unfold merge_outer.
      destruct (decide (0%nat ∈ (∅ : gset nat))) as [Hin | _];
        [now apply elem_of_empty in Hin | reflexivity].
Qed.

Lemma merge_inner_skips (partitions : list Polygon) (tolerance : Q) (js : list nat) :
  forall (p0 p' : Polygon) (u0 u' : gset nat) (m0 : bool),
    fold_left (merge_inner partitions tolerance) js (Some (p0, u0, m0))
    = Some (p', u', false) ->
    forall j poly_j,
      In j js -> j ∉ u0 -> partitions !! j = Some poly_j ->
      try_merge p0 poly_j tolerance = Some Skip.
Proof.
  induction js as [|j0 js IH]; intros p0 p' u0 u' m0 Hfold j poly_j Hin Hnot Hj;
    [destruct Hin |].
  simpl in Hfold.
  destruct (decide (j0 ∈ u0)) as [Hused | Hfree].
  - destruct Hin as [-> | Hin]; [contradiction | eauto].
  - destruct (partitions !! j0) as [poly_j0|] eqn:Hj0;
      [ | now rewrite fold_merge_inner_none in Hfold].
    destruct (try_merge p0 poly_j0 tolerance) as [[ | cu] | ] eqn:Htry;
      [ | | now rewrite fold_merge_inner_none in Hfold].
    + destruct Hin as [-> | Hin]; [congruence | eauto].
    + apply merge_inner_spec in Hfold as (_ & _ & _ & _ & _ & H6).
      specialize (H6 eq_refl). discriminate.
Qed.

Lemma merge_outer_skips (partitions : list Polygon) (tolerance : Q) (k : nat) :
  (k <= length partitions)%nat ->
  forall np u,
    fold_left (merge_outer partitions tolerance) (seq 0 k) (Some ([], ∅, false))
    = Some (np, u, false) ->
    forall i j poly_i poly_j,
      (i < k)%nat -> (i < j)%nat ->
      partitions !! i = Some poly_i -> partitions !! j = Some poly_j ->
      try_merge poly_i poly_j tolerance = Some Skip.
Proof.
  induction k as [|k IH]; intros Hk np u Hfold i j poly_i poly_j Hik Hij Hi Hj; [lia |].
  rewrite seq_S, fold_left_app in Hfold. simpl in Hfold.
  destruct (fold_left _ (seq 0 k) _) as [[[np0 u0] m0] | ] eqn:Hprev; [ | discriminate].
  pose proof (merge_outer_inv partitions tolerance k ltac:(lia) _ Hprev)
    as (_ & _ & _ & _ & I5).
  simpl in Hfold.
  destruct (decide (k ∈ u0)) as [Hin | Hnotin].
  - injection Hfold as -> -> ->. destruct (I5 eq_refl) as [_ Hlt].
    specialize (Hlt k Hin). lia.
  - destruct (partitions !! k) as [poly_k|] eqn:Hpk; [ | discriminate].
    destruct (fold_left (merge_inner partitions tolerance) _ _)
      as [[[poly' used'] merged'] | ] eqn:Hinner; [ | discriminate].
    injection Hfold as <- <- ->.
    pose proof (merge_inner_spec _ _ _ _ _ _ _ _ _ Hinner) as (_ & _ & H3 & _).
    destruct (H3 eq_refl) as (_ & _ & ->).
    destruct (I5 eq_refl) as [_ Hlt].
    destruct (Nat.eq_dec i k) as [-> | Hne].
    + assert (poly_i = poly_k) by congruence. subst poly_i.
      apply (merge_inner_skips _ _ _ _ _ _ _ _ Hinner j poly_j); [ | | exact Hj].
      * apply in_seq. apply lookup_lt_Some in Hj. lia.
      * intros Hu. specialize (Hlt j Hu). lia.
    + apply (IH ltac:(lia) _ _ eq_refl i j); auto. lia.
Qed.

(** X10.  In the list [merge_partitions] returns no pair is left to merge:
    for any two of its pieces, in order, the merge test declines (the
    shared border is shorter than the tolerance, the union is empty or not
    a single polygon, or it is troublesome in both axes). *)
Theorem merge_partitions_unmergeable (partitions merged : list Polygon) (tolerance : Q) :
  merge_partitions partitions tolerance = Some merged ->
  unmergeable tolerance merged.
Proof.
  intros H. apply merge_partitions_fixpoint in H. unfold merge_pass in H.
  destruct (fold_left _ _ _) as [[[np u] m] | ] eqn:Hfold; [ | discriminate].
  injection H as -> ->.
  intros i j poly_i poly_j Hij Hi Hj.
  apply (merge_outer_skips merged tolerance (length merged) ltac:(lia) _ _ Hfold i j);
    auto.
  now apply lookup_lt_Some in Hi.
Qed.
End MergeMore.

(** ** The rasterizer and the cell distributor *)

Lemma in_zrange (a b z : Z) : In z (zrange a b) <-> (a <= z < b)%Z.
Proof.
  unfold zrange. rewrite in_map_iff. split.
  - intros (i & <- & Hi). apply in_seq in Hi. lia.
  - intros Hz. exists (Z.to_nat (z - a)). split; [lia | apply in_seq; lia].
Qed.

Lemma NoDup_map_inj {A B : Type} (f : A -> B) (l : list A) :
  (forall x y, f x = f y -> x = y) -> List.NoDup l -> List.NoDup (map f l).
Proof.
  intros Hinj Hl. induction Hl as [|x l Hnotin Hl IH]; simpl; constructor; [ | exact IH].
  intros Hin. apply in_map_iff in Hin as (y & Heq & Hy).
  apply Hinj in Heq. subst y. contradiction.
Qed.

Lemma zrange_NoDup (a b : Z) : List.NoDup (zrange a b).
Proof.
  unfold zrange. apply NoDup_map_inj; [ | apply List.seq_NoDup].
  intros i j H. lia.
Qed.

Lemma floor_le_iff (x : Q) (z : Z) : (Qfloor x <= z)%Z <-> x < inject_Z (z + 1).
Proof.
  split.
  - intros H. apply Qlt_le_trans with (inject_Z (Qfloor x + 1)); [apply Qlt_floor |].
    rewrite <- Zle_Qle. lia.
  - intros H. pose proof (Qfloor_le x) as Hf.
    assert (Hlt : inject_Z (Qfloor x) < inject_Z (z + 1)) by lra.
    rewrite <- Zlt_Qlt in Hlt. lia.
Qed.

Lemma lt_ceiling_iff (x : Q) (z : Z) : (z < Qceiling x)%Z <-> inject_Z z < x.
Proof.
  split.
  - intros H. apply Qle_lt_trans with (inject_Z (Qceiling x - 1)); [ | apply Qceiling_lt].
    rewrite <- Zle_Qle. lia.
  - intros H. pose proof (Qle_ceiling x) as Hc.
    assert (Hlt : inject_Z z < inject_Z (Qceiling x)) by lra.
    now rewrite <- Zlt_Qlt in Hlt.
Qed.

Lemma div_lt_iff (x y s : Q) : 0 < s -> x / s < y <-> x < y * s.
Proof.
  intros Hs. split; intros H.
  - apply Qmult_lt_r with (z := / s); [now apply Qinv_lt_0_compat |].
    assert (E : y * s * / s == y) by (field; lra). now rewrite E.
  - apply Qmult_lt_r with (z := s); [exact Hs |].
    assert (E : x / s * s == x) by (field; lra). now rewrite E.
Qed.

Lemma lt_div_iff (x y s : Q) : 0 < s -> y < x / s <-> y * s < x.
Proof.
  intros Hs. split; intros H.
  - apply Qmult_lt_r with (z := / s); [now apply Qinv_lt_0_compat |].
    assert (E : y * s * / s == y) by (field; lra). now rewrite E.
  - apply Qmult_lt_r with (z := s); [exact Hs |].
    assert (E : x / s * s == x) by (field; lra). now rewrite E.
Qed.

Lemma grid_NoDup (keep : CellID -> bool) (rows cols : list Z) :
  List.NoDup rows -> List.NoDup cols ->
  List.NoDup
    (flat_map
       (fun row => flat_map (fun col => if keep (row, col) then [(row, col)] else []) cols)
       rows).
Proof.
  intros Hrows Hcols.
  assert (Hinner : forall row,
             List.NoDup
               (flat_map (fun col => if keep (row, col) then [(row, col)] else []) cols) /\
             forall c, In c (flat_map (fun col => if keep (row, col) then [(row, col)] else [])
                               cols) -> fst c = row).
  { intros row. split.
    - induction Hcols as [|col cols Hnotin Hcols IH]; simpl; [constructor |].
      destruct (keep (row, col)); [ | exact IH]. simpl. constructor; [ | exact IH].
      intros Hin. apply in_flat_map in Hin as (col' & Hcol' & Hin).
      destruct (keep (row, col')); [ | destruct Hin].
      destruct Hin as [Heq | []]. injection Heq as <-. contradiction.
    - intros c Hin. apply in_flat_map in Hin as (col & _ & Hin).
      destruct (keep (row, col)); [ | destruct Hin].
      destruct Hin as [<- | []]. reflexivity. }
  induction Hrows as [|row rows Hnotin Hrows IH]; simpl; [constructor |].
  apply List.NoDup_app; [apply Hinner | exact IH |].
  intros c Hc Hc'. apply Hinner in Hc.
  apply in_flat_map in Hc' as (row' & Hrow' & Hc'). apply Hinner in Hc'.
  congruence.
Qed.

(** X11.  [cells_inside_polygon_ids] raises for a cell size that is not
    positive, whatever the polygon; with a positive cell size it returns
    no cell for a missing or empty polygon. *)
Theorem raster_error_and_empty (intersects : Polygon -> Polygon -> bool)
    (polygon_border : option Polygon) (cell_size : Q) :
  (cell_size <= 0 ->
   cells_inside_polygon_ids intersects polygon_border cell_size = None) /\
  (0 < cell_size ->
   polygon_border = None \/
   (exists border, polygon_border = Some border /\ polygon_is_empty border = true) ->
   cells_inside_polygon_ids intersects polygon_border cell_size = Some []).
Proof.
  unfold cells_inside_polygon_ids. split.
  - intros Hle. apply Qle_bool_iff in Hle. now rewrite Hle.
  - intros Hpos Hcase.
    assert (Hb : Qle_bool cell_size 0 = false).
    { apply not_true_iff_false. rewrite Qle_bool_iff. now apply Qlt_not_le. }
    rewrite Hb. destruct Hcase as [-> | (border & -> & Hemp)]; [reflexivity |].
    now rewrite Hemp.
Qed.

(** The cells of the scan, where the quotients [min_x / cell_size], ...
    are the exact ones. *)
Lemma raster_cells_exact (intersects : Polygon -> Polygon -> bool)
    (border : Polygon) (cell_size : Q) :
  0 < cell_size -> polygon_is_empty border = false ->
  exists cells,
    cells_inside_polygon_ids intersects (Some border) cell_size = Some cells /\
    List.NoDup cells /\
    forall cell,
      In cell cells <->
      cell_meets_box cell_size (bounds border) cell /\
      intersects (get_cell_polygon cell cell_size) border = true.
Proof.
  intros Hpos Hne. unfold cells_inside_polygon_ids, cell_meets_box.
  assert (Hb : Qle_bool cell_size 0 = false).
  { apply not_true_iff_false. rewrite Qle_bool_iff. now apply Qlt_not_le. }
  rewrite Hb, Hne.
  destruct (bounds border) as [[[min_x min_y] max_x] max_y].
  eexists. split; [reflexivity |]. split.
  - apply (grid_NoDup (fun c => intersects (get_cell_polygon c cell_size) border));
      apply zrange_NoDup.
  - intros [row col]. rewrite in_flat_map. split.
    + intros (row' & Hrow & Hin). apply in_flat_map in Hin as (col' & Hcol & Hin).
      destruct (intersects _ border) eqn:Hint; [ | destruct Hin].
      destruct Hin as [Heq | []]. injection Heq as -> ->.
      apply in_zrange in Hrow as [Hr1 Hr2]. apply in_zrange in Hcol as [Hc1 Hc2].
      apply floor_le_iff in Hr1, Hc1. apply lt_ceiling_iff in Hr2, Hc2.
      apply div_lt_iff in Hr1, Hc1; try exact Hpos.
      apply lt_div_iff in Hr2, Hc2; try exact Hpos.
      auto.
    + intros ((Hc1 & Hc2 & Hr1 & Hr2) & Hint).
      exists row. split.
      * apply in_zrange. split; [apply floor_le_iff | apply lt_ceiling_iff].
        -- now apply div_lt_iff.
        -- now apply lt_div_iff.
      * apply in_flat_map. exists col. split.
        -- apply in_zrange. split; [apply floor_le_iff | apply lt_ceiling_iff].
           ++ now apply div_lt_iff.
           ++ now apply lt_div_iff.
        -- rewrite Hint. now left.
Qed.

(** X12.  For the cell size 1 that [run_pipeline] uses (dividing by it
    is exact) and a non-empty polygon, the rasterizer returns each cell
    at most once, and a cell is returned exactly when its open unit square
    meets the bounding box of the polygon in both directions and the
    geometry library says that it intersects the polygon. *)
Theorem raster_cells (intersects : Polygon -> Polygon -> bool) (border : Polygon) :
  polygon_is_empty border = false ->
  exists cells,
    cells_inside_polygon_ids intersects (Some border) 1 = Some cells /\
    List.NoDup cells /\
    forall cell,
      In cell cells <->
      cell_meets_box 1 (bounds border) cell /\
      intersects (get_cell_polygon cell 1) border = true.
Proof.
  apply raster_cells_exact. reflexivity.
Qed.



Lemma filter_sublist {A : Type} (f : A -> bool) (l : list A) :
  sublist (List.filter f l) l.
Proof.
  induction l as [|x l IH]; simpl; [constructor |].
  destruct (f x); [now apply sublist_skip | now apply sublist_cons].
Qed.

Section DistributionMore.
Context {K : Shapely}.

(** X14.  The dictionary [distribute_cells_to_subclusters] returns has
    exactly the keys [0 .. len(partition_polygons) - 1]; each of its lists
    is a sub-sequence of the input cells, in the input order, and has no
    duplicate when the input has none. *)
Theorem distribute_structure (cell_ids : list CellID) (cell_size : Q)
    (partition_polygons : list Polygon) :
  let out := distribute_cells_to_subclusters cell_ids cell_size partition_polygons in
  (forall idx, is_Some (out !! idx) <-> (idx < length partition_polygons)%nat) /\
  (forall idx cells, out !! idx = Some cells ->
     sublist cells cell_ids /\ (List.NoDup cell_ids -> List.NoDup cells)).
Proof.
  split.
  - intros idx. rewrite distribute_lookup.
    destruct (idx <? length partition_polygons)%nat eqn:E.
    + apply Nat.ltb_lt in E. split; [auto | eauto].
    + apply Nat.ltb_ge in E. split; [intros [x Hx]; discriminate | lia].
  - intros idx cells. rewrite distribute_lookup.
    destruct (idx <? length partition_polygons)%nat; [ | discriminate].
    intros H. injection H as <-. split; [apply filter_sublist | apply List.NoDup_filter].
Qed.
End DistributionMore.

(** ** Path assembly *)

Section Assembly.
Variable path_options : list (list CandidateOption).

Lemma enumerate_take_S {A : Type} (l : list A) (k : nat) (x : A) :
  l !! k = Some x ->
  enumerate (take (S k) l) = enumerate (take k l) ++ [(k, x)].
Proof.
  intros Hk. rewrite (take_S_r l k x Hk), enumerate_snoc.
  rewrite length_take. apply lookup_lt_Some in Hk.
  now replace (k `min` length l)%nat with k by lia.
Qed.

Lemma assemble_none (tour : Tour) (items : list (nat * (nat * nat))) :
  fold_left (assemble_step path_options tour) items None = None.
Proof. induction items as [|[i pc] items IH]; simpl; [reflexivity | exact IH]. Qed.

(** After [k] iterations: [k - 1] connectors, each from the exit of a
    candidate to the entry of the next. *)
Lemma assemble_prefix (tour : Tour) (k : nat) :
  (k <= length tour)%nat ->
  forall gp conns,
    fold_left (assemble_step path_options tour) (enumerate (take k tour)) (Some ([], []))
    = Some (gp, conns) ->
    length conns = (k - 1)%nat /\
    forall i pc pc' c c',
      tour !! i = Some pc -> tour !! S i = Some pc' -> (S i < k)%nat ->
      candidate_at path_options pc = Some c ->
      candidate_at path_options pc' = Some c' ->
      conns !! i = Some (exit c, entry c').
Proof.
  induction k as [|k IH]; intros Hk gp conns Hfold.
  - simpl in Hfold. injection Hfold as <- <-. split; [reflexivity | intros; lia].
  - destruct (tour !! k) as [pck|] eqn:Hpck;
      [ | apply lookup_ge_None in Hpck; lia].
    rewrite (enumerate_take_S _ _ _ Hpck), fold_left_app in Hfold.
    destruct (fold_left _ (enumerate (take k tour)) _) as [[gp0 conns0]|] eqn:Hprev;
      [ | discriminate].
    destruct (IH ltac:(lia) _ _ eq_refl) as [Hlen Hconn].
    simpl in Hfold.
    destruct (candidate_at path_options pck) as [cand|] eqn:Hcand; [ | discriminate].
    destruct (path cand) as [cpath|]; [ | discriminate].
    match type of Hfold with
    | match ?e with _ => _ end = _ => destruct e as [gp'|]; [ | discriminate]
    end.
    destruct k as [|k'].
    + simpl in Hfold. injection Hfold as <- <-.
      split; [exact Hlen | intros; lia].
    + simpl in Hfold. rewrite Nat.sub_0_r in Hfold.
      destruct (tour !! k') as [prev_pc|] eqn:Hprevpc; [ | discriminate].
      destruct (candidate_at path_options prev_pc) as [prev|] eqn:Hprevc; [ | discriminate].
      injection Hfold as <- <-.
      split; [rewrite length_app; simpl; lia |].
      intros i pc pc' c c' Hi HSi Hlt Hc Hc'.
      destruct (Nat.eq_dec i k') as [-> | Hne].
      * rewrite lookup_app_r by lia.
        replace (k' - length conns0)%nat with 0%nat by lia. simpl.
        congruence.
      * rewrite lookup_app_l by lia. apply (Hconn i pc pc'); auto. lia.
Qed.

(** X15.  When the assembly of the global path succeeds on a tour, it
    yields one connector less than the tour has stops, and the connector
    number [i] leads from the exit of stop [i] to the entry of stop
    [i + 1]. *)
Theorem assemble_connectors (tour : Tour) (global_path : list Point2D)
    (global_connectors : list (Point2D * Point2D)) :
  assemble_global_path path_options (Some tour) = Some (global_path, global_connectors) ->
  length global_connectors = (length tour - 1)%nat /\
  forall i pc pc' c c',
    tour !! i = Some pc -> tour !! S i = Some pc' ->
    candidate_at path_options pc = Some c ->
    candidate_at path_options pc' = Some c' ->
    global_connectors !! i = Some (exit c, entry c').
Proof.
  unfold assemble_global_path. intros H.
  rewrite <- (take_ge tour (length tour)) in H at 2 by lia.
  destruct (assemble_prefix tour (length tour) ltac:(lia) _ _ H) as [Hlen Hconn].
  split; [exact Hlen |].
  intros i pc pc' c c' Hi HSi. apply (Hconn i pc pc'); auto.
  now apply lookup_lt_Some in HSi.
Qed.

(** On a tour whose stops exist and carry paths the assembly does not
    fail, and the path is not empty after the first stop. *)
Lemma assemble_succeeds (tour : Tour) (k : nat) :
  (k <= length tour)%nat ->
  (forall pc, In pc tour ->
     exists c, candidate_at path_options pc = Some c /\ has_path c) ->
  exists gp conns,
    fold_left (assemble_step path_options tour) (enumerate (take k tour)) (Some ([], []))
    = Some (gp, conns) /\
    ((0 < k)%nat -> gp <> []).
Proof.
  intros Hk Hall. induction k as [|k IH].
  - exists [], []. split; [reflexivity | lia].
  - destruct (tour !! k) as [pck|] eqn:Hpck;
      [ | apply lookup_ge_None in Hpck; lia].
    destruct (IH ltac:(lia)) as (gp0 & conns0 & Hprev & Hne).
    rewrite (enumerate_take_S _ _ _ Hpck), fold_left_app, Hprev. simpl.
    destruct (Hall pck) as (cand & Hcand & first & rest & Hpath).
    { apply list_elem_of_In, list_elem_of_lookup. eauto. }
    rewrite Hcand, Hpath.
    destruct k as [|k'].
    + simpl. eexists _, _. split; [reflexivity |]. intros _.
      destruct gp0; discriminate.
    + simpl. rewrite Nat.sub_0_r.
      specialize (Hne ltac:(lia)).
      destruct (rev gp0) as [|last_point rest0] eqn:Hrev.
      { apply (f_equal (@rev _)) in Hrev. rewrite rev_involutive in Hrev. contradiction. }
      destruct (tour !! k') as [prev_pc|] eqn:Hprevpc;
        [ | apply lookup_ge_None in Hprevpc; lia].
      destruct (Hall prev_pc) as (prev & Hprevc & _).
      { apply list_elem_of_In, list_elem_of_lookup. eauto. }
      rewrite Hprevc.
      destruct (same_point first last_point); eexists _, _;
        (split; [reflexivity |]); intros _; destruct gp0; try discriminate; contradiction.
Qed.
End Assembly.

Lemma valid_choice_adjusted (candidate_options : list (list CandidateOption))
    (jk : nat * nat) :
  valid_choice (adjusted candidate_options) jk ->
  exists partition c,
    candidate_options !! fst jk = Some partition /\ partition !! snd jk = Some c.
Proof.
  unfold valid_choice, adjusted, adjust_candidate_options, N_parts.
  rewrite length_map. intros [Hj Hk].
  destruct (nth_lookup_or_length candidate_options (fst jk) []) as [Hpart | Hge]; [ | lia].
  exists (nth (fst jk) candidate_options []).
  assert (Hnth : nth (fst jk)
                   (map (fun partition =>
                           map (adjust_candidate 1 adjust_tol partition) partition)
                        candidate_options) []
                 = map (adjust_candidate 1 adjust_tol (nth (fst jk) candidate_options []))
                       (nth (fst jk) candidate_options [])).
  { change (map ?f candidate_options) with (f <$> candidate_options).
    rewrite nth_lookup, list_lookup_fmap, Hpart. reflexivity. }
  rewrite Hnth, length_map in Hk.
  destruct (nth_lookup_or_length (nth (fst jk) candidate_options []) (snd jk)
              default_candidate) as [Hc | Hge]; [ | lia].
  eauto.
Qed.

(** X16.  The pipeline from the combiner to the global path: on a
    non-empty list of non-empty candidate lists whose candidates all carry
    a path of at least one point, the path assembly of [run_pipeline] runs
    through on the tour [held_karp] returns, with a non-empty global path
    and one connector less than there are partitions; on no partition at
    all it fails on the missing tour. *)
Theorem pipeline_assembly (M : Libm) (path_options : list (list CandidateOption)) :
  assemble_global_path [] (snd (@held_karp M [])) = None /\
  (path_options <> [] ->
   Forall (fun partition => partition <> [] /\ Forall has_path partition) path_options ->
   exists global_path global_connectors,
     assemble_global_path path_options (snd (held_karp path_options))
     = Some (global_path, global_connectors) /\
     global_path <> [] /\
     length global_connectors = (length path_options - 1)%nat).
Proof.
  split; [reflexivity |]. intros Hne Hall.
  assert (Hparts : Forall (fun partition => partition <> []) path_options).
  { eapply List.Forall_impl; [ | exact Hall]. intros p [H _]. exact H. }
  destruct (adjusted_nonempty path_options Hne Hparts) as [Hne' Hparts'].
  destruct (held_karp_loop_optimal (adjusted path_options) Hne' Hparts')
    as (q & tour & Hhk & [Hperm Hvalid] & _).
  unfold held_karp. fold (adjusted path_options). rewrite Hhk. cbn [snd].
  assert (Hlen : length tour = length path_options).
  { rewrite <- (length_map fst tour), (Permutation_length Hperm), length_seq.
    unfold N_parts, adjusted, adjust_candidate_options. apply length_map. }
  destruct (assemble_succeeds path_options tour (length tour) ltac:(lia))
    as (gp & conns & Hfold & Hgp).
  { intros pc Hpc. rewrite List.Forall_forall in Hvalid.
    destruct (valid_choice_adjusted _ _ (Hvalid pc Hpc)) as (partition & c & Hp & Hc).
    exists c. split; [unfold candidate_at; now rewrite Hp |].
    rewrite List.Forall_forall in Hall.
    assert (Hin : In partition path_options).
    { apply list_elem_of_In, list_elem_of_lookup. eauto. }
    destruct (Hall partition Hin) as [_ Hpaths].
    rewrite List.Forall_forall in Hpaths. apply Hpaths.
    apply list_elem_of_In, list_elem_of_lookup. eauto. }
  destruct (assemble_prefix path_options tour (length tour) ltac:(lia) _ _ Hfold)
    as [Hc _].
  rewrite take_ge in Hfold by lia.
  exists gp, conns. split; [exact Hfold |]. split.
  - apply Hgp. rewrite Hlen. destruct path_options; [congruence | simpl; lia].
  - now rewrite Hc, Hlen.
Qed.

(** ** The adjustment once more *)

(** X17.  A candidate whose turn count is least among the candidates of
    its partition with the same cost (within the positive tolerance) keeps
    its cost. *)
Theorem adjust_keeps_least_turns (penalty tol : Q) (partition : list CandidateOption)
    (cand : CandidateOption) :
  0 < tol -> In cand partition ->
  (forall c, In c partition -> same_cost tol cand c -> (turns cand <= turns c)%Z) ->
  cost (adjust_candidate penalty tol partition cand) == cost cand.
Proof.
  intros Htol Hin Hleast. rewrite adjust_candidate_cost.
  destruct (min_turns_spec tol partition cand Htol Hin) as [(c & Hc & Hsame & Hturns) _].
  specialize (Hleast c Hc Hsame).
  replace (Z.max 0 (turns cand - min_or (same_cost_turns tol partition cand) (turns cand)))
    with 0%Z by lia.
  change (inject_Z 0) with 0. ring.
Qed.

(** ** Rings of the polygon store *)

Lemma same_point_refl (p : Point2D) : same_point p p = true.
Proof.
  unfold same_point. apply andb_true_iff. split; apply Qeq_bool_iff; reflexivity.
Qed.

Lemma strip_closure_closed (first : Point2D) (rest : list Point2D) :
  _strip_closure ((first :: rest) ++ [first]) = first :: rest.
Proof.
  unfold _strip_closure.
  assert (Hlast : List.last ((first :: rest) ++ [first]) first = first)
    by apply last_last.
  destruct ((first :: rest) ++ [first]) as [|a [|b l]] eqn:E.
  - discriminate.
  - destruct rest; discriminate.
  - injection E as <- E'. rewrite Hlast, same_point_refl.
    change (b :: l) with ([] ++ b :: l). rewrite <- E'.
    rewrite app_assoc. apply (removelast_last (first :: rest)).
Qed.

(** X18.  [_strip_closure] undoes the closing of a ring: a non-empty ring
    followed by a copy of its first point is mapped back to the ring.  It
    never removes more than the last point, and leaves a list of fewer
    than two points as it is. *)
Theorem strip_closure_round_trip (first : Point2D) (rest coords : list Point2D) :
  _strip_closure ((first :: rest) ++ [first]) = first :: rest /\
  (_strip_closure coords = coords \/ _strip_closure coords = removelast coords) /\
  ((length coords < 2)%nat -> _strip_closure coords = coords).
Proof.
  split; [apply strip_closure_closed | split].
  - unfold _strip_closure. destruct coords as [|a [|b l]]; auto.
    destruct (same_point _ _); auto.
  - intros Hlen. destruct coords as [|a [|b l]]; [reflexivity | reflexivity |].
    simpl in Hlen. lia.
Qed.

(** X23.  The export of a polygon for the loader: for a polygon whose
    rings are closed, each a non-empty ring followed by a copy of its
    first point, [shapely_to_outer_holes] gives back the open outer ring
    and the open rings of the holes, in their order. *)
Theorem outer_holes_round_trip (first : Point2D) (rest : list Point2D)
    (holes : list (list Point2D)) :
  Forall (fun hole => hole <> []) holes ->
  shapely_to_outer_holes
    (mkPolygon ((first :: rest) ++ [first])
               (map (fun hole => hole ++ [hd first hole]) holes))
  = (first :: rest, holes).
Proof.
  intros Hholes. unfold shapely_to_outer_holes. cbn [exterior interiors].
  rewrite strip_closure_closed. f_equal.
  induction Hholes as [|hole holes Hne _ IH]; [reflexivity |].
  cbn [map]. rewrite IH. f_equal.
  destruct hole as [|p hole']; [congruence |]. apply strip_closure_closed.
Qed.

(** ** From the cells to the global path *)

Section Coverage.
Variable path_options : list (list CandidateOption).

Lemma visits_app_l (gp more : list Point2D) (p : Point2D) :
  visits gp p -> visits (gp ++ more) p.
Proof. intros (q & Hq & Hs). exists q. split; [apply in_or_app; now left | exact Hs]. Qed.

Lemma visits_in (gp : list Point2D) (p : Point2D) : In p gp -> visits gp p.
Proof. intros H. exists p. split; [exact H | apply same_point_refl]. Qed.

(** After [k] iterations the global path passes through every point of
    the paths of the first [k] stops. *)
Lemma assemble_visits (tour : Tour) (k : nat) :
  (k <= length tour)%nat ->
  forall gp conns,
    fold_left (assemble_step path_options tour) (enumerate (take k tour)) (Some ([], []))
    = Some (gp, conns) ->
    forall i pc c cpath p,
      (i < k)%nat -> tour !! i = Some pc ->
      candidate_at path_options pc = Some c -> path c = Some cpath ->
      In p cpath -> visits gp p.
Proof.
  induction k as [|k IH]; intros Hk gp conns Hfold i pc c cpath p Hi; [lia |].
  destruct (tour !! k) as [pck|] eqn:Hpck;
    [ | apply lookup_ge_None in Hpck; lia].
  rewrite (enumerate_take_S _ _ _ Hpck), fold_left_app in Hfold.
  destruct (fold_left _ (enumerate (take k tour)) _) as [[gp0 conns0]|] eqn:Hprev;
    [ | discriminate].
  specialize (IH ltac:(lia) _ _ eq_refl).
  simpl in Hfold.
  destruct (candidate_at path_options pck) as [cand|] eqn:Hcand; [ | discriminate].
  destruct (path cand) as [kpath|] eqn:Hkpath; [ | discriminate].
  (* the extended path passes through the old path and through the new stop *)
  assert (Hext : forall gp',
             (if (k =? 0)%nat then Some (gp0 ++ kpath)
              else
                match kpath, rev gp0 with
                | first :: rest, last_point :: _ =>
                    if same_point first last_point
                    then Some (gp0 ++ rest) else Some (gp0 ++ kpath)
                | _, _ => None
                end) = Some gp' ->
             (forall q, visits gp0 q -> visits gp' q) /\
             (forall q, In q kpath -> visits gp' q)).
  { intros gp'. destruct (k =? 0)%nat.
    - intros H. injection H as <-. split; [intros q; apply visits_app_l |].
      intros q Hq. apply visits_in, in_or_app. now right.
    - destruct kpath as [|first rest]; [discriminate |].
      destruct (rev gp0) as [|last_point rest0] eqn:Hrev; [discriminate |].
      destruct (same_point first last_point) eqn:Hsame; intros H; injection H as <-.
      + split; [intros q; apply visits_app_l |].
        intros q [<- | Hq].
        * exists last_point. split; [ | exact Hsame].
          apply in_or_app. left. apply in_rev. rewrite Hrev. now left.
        * apply visits_in, in_or_app. now right.
      + split; [intros q; apply visits_app_l |].
        intros q Hq. apply visits_in, in_or_app. now right. }
  match type of Hfold with
  | match ?e with _ => _ end = _ => destruct e as [gp'|] eqn:He; [ | discriminate]
  end.
  destruct (Hext gp' eq_refl) as [Hold Hnew].
  assert (Hgp : gp = gp').
  { destruct (0 <? k)%nat; [ | now injection Hfold as <- _].
    destruct (tour !! (k - 1)%nat); [ | discriminate].
    destruct (candidate_at path_options p0); [ | discriminate].
    now injection Hfold as <- _. }
  subst gp'. intros Hpc Hc Hpath Hp.
  destruct (Nat.eq_dec i k) as [-> | Hne].
  - assert (pc = pck) by congruence. subst pck.
    assert (c = cand) by congruence. subst cand.
    assert (cpath = kpath) by congruence. subst kpath.
    now apply Hnew.
  - apply Hold. apply (IH i pc c cpath p); auto. lia.
Qed.
End Coverage.

(** For a non-empty list of subclusters with non-empty waypoint lists,
    the candidates of [get_candidate_options] combined by [held_karp] and
    assembled as in [run_pipeline] give a global path that passes through
    every waypoint of every subcluster. *)
Lemma assembled_path_covers (M : Libm) (K : Shapely)
    (subclusters : list (list Point2D * option Polygon)) :
  subclusters <> [] ->
  Forall (fun wp => fst wp <> []) subclusters ->
  exists global_path global_connectors,
    assemble_global_path (path_options_of subclusters)
      (snd (held_karp (path_options_of subclusters)))
    = Some (global_path, global_connectors) /\
    forall waypoints polygon p,
      In (waypoints, polygon) subclusters -> In p waypoints -> visits global_path p.
Proof.
  intros Hne Hall.
  set (path_options := path_options_of subclusters).
  assert (Hne' : path_options <> []).
  { subst path_options. unfold path_options_of. destruct subclusters; [congruence | discriminate]. }
  assert (Hcands : forall j wp,
             subclusters !! j = Some wp ->
             path_options !! j = Some (get_candidate_options (fst wp) (snd wp))).
  { intros j wp Hj. subst path_options. unfold path_options_of.
    change (map ?f subclusters) with (f <$> subclusters).
    now rewrite list_lookup_fmap, Hj. }
  assert (Hgen : forall wp, In wp subclusters ->
             get_candidate_options (fst wp) (snd wp) <> [] /\
             Forall (fun c => exists p, candidate_of c p /\ Permutation p (fst wp))
                    (get_candidate_options (fst wp) (snd wp))).
  { intros wp Hwp. rewrite List.Forall_forall in Hall.
    destruct (candidate_options_spec (fst wp) (snd wp) (Hall wp Hwp))
      as [Hlen Hf].
    split; [ | exact Hf]. intros E. rewrite E in Hlen. simpl in Hlen. lia. }
  assert (Hparts : Forall (fun partition => partition <> []) path_options).
  { subst path_options. unfold path_options_of. apply List.Forall_forall.
    intros partition Hin. apply in_map_iff in Hin as (wp & <- & Hwp).
    now apply Hgen. }
  destruct (adjusted_nonempty path_options Hne' Hparts) as [Hane Haparts].
  destruct (held_karp_loop_optimal (adjusted path_options) Hane Haparts)
    as (q & tour & Hhk & [Hperm Hvalid] & _).
  unfold held_karp. fold (adjusted path_options). rewrite Hhk. cbn [snd].
  (* every stop has a candidate of its subcluster *)
  assert (Hstop : forall pc, In pc tour ->
             exists wp c,
               subclusters !! fst pc = Some wp /\
               candidate_at path_options pc = Some c /\
               exists cpath, candidate_of c cpath /\ Permutation cpath (fst wp)).
  { intros pc Hpc. rewrite List.Forall_forall in Hvalid.
    destruct (valid_choice_adjusted _ _ (Hvalid pc Hpc)) as (partition & c & Hp & Hc).
    assert (Hj : (fst pc < length subclusters)%nat).
    { apply lookup_lt_Some in Hp. subst path_options. unfold path_options_of in Hp.
      now rewrite length_map in Hp. }
    destruct (lookup_lt_is_Some_2 subclusters (fst pc) Hj) as [wp Hwp].
    exists wp, c. split; [exact Hwp |].
    rewrite (Hcands _ _ Hwp) in Hp. injection Hp as <-.
    split; [unfold candidate_at; now rewrite (Hcands _ _ Hwp) |].
    assert (Hin : In wp subclusters).
    { apply list_elem_of_In, list_elem_of_lookup. eauto. }
    destruct (Hgen wp Hin) as [_ Hf]. rewrite List.Forall_forall in Hf.
    apply Hf. apply list_elem_of_In, list_elem_of_lookup. eauto. }
  destruct (assemble_succeeds path_options tour (length tour) ltac:(lia))
    as (gp & conns & Hfold & _).
  { intros pc Hpc. destruct (Hstop pc Hpc) as (wp & c & _ & Hc & cpath & Hcand & Hcperm).
    exists c. split; [exact Hc |].
    destruct Hcand as (Hpath & (first & rest & -> & _) & _). now exists first, rest. }
  exists gp, conns. split; [now rewrite take_ge in Hfold by lia |].
  intros waypoints polygon p Hwp Hp.
  apply list_elem_of_In, list_elem_of_lookup in Hwp as [j Hj].
  (* the tour stops at subcluster [j] *)
  assert (Hjin : In j (map fst tour)).
  { apply (Permutation_in j (Permutation_sym Hperm)), in_seq.
    apply lookup_lt_Some in Hj.
    unfold N_parts, adjusted, adjust_candidate_options.
    rewrite length_map. subst path_options. unfold path_options_of.
    rewrite length_map. lia. }
  apply in_map_iff in Hjin as (pc & Hfst & Hpc).
  destruct (Hstop pc Hpc) as (wp & c & Hwp' & Hc & cpath & Hcand & Hcperm).
  rewrite Hfst, Hj in Hwp'. injection Hwp' as <-. simpl in Hcperm.
  apply list_elem_of_In, list_elem_of_lookup in Hpc as [i Hi].
  destruct Hcand as (Hpath & _).
  apply (assemble_visits path_options tour (length tour) ltac:(lia) gp conns Hfold
           i pc c cpath p); auto.
  - now apply lookup_lt_Some in Hi.
  - apply (Permutation_in p (Permutation_sym Hcperm)). exact Hp.
Qed.

(** ** The pipeline *)

Section Pipeline.
Context {M : Libm} {K : Shapely}.

Lemma subcluster_waypoints_in (subcluster : gmap nat (list CellID))
    (merged_partitions : list Polygon) (idx : nat) (cell : CellID) :
  (idx < length merged_partitions)%nat ->
  assigned subcluster idx cell ->
  exists cells polygon,
    In (map cell_point cells, Some polygon)
       (subcluster_waypoints subcluster merged_partitions) /\
    In cell cells.
Proof.
  intros Hidx (cells & Hlook & Hin).
  destruct (lookup_lt_is_Some_2 merged_partitions idx Hidx) as [polygon Hpoly].
  exists cells, polygon. split; [ | exact Hin].
  unfold subcluster_waypoints. apply in_flat_map. exists idx.
  split; [apply in_seq; lia |].
  rewrite Hlook, Hpoly. destruct cells; [contradiction | now left].
Qed.

Lemma subcluster_waypoints_nonempty (subcluster : gmap nat (list CellID))
    (merged_partitions : list Polygon) :
  Forall (fun wp => fst wp <> []) (subcluster_waypoints subcluster merged_partitions).
Proof.
  apply List.Forall_forall. intros wp Hin.
  unfold subcluster_waypoints in Hin. apply in_flat_map in Hin as (idx & _ & Hin).
  destruct (subcluster !! idx) as [cell_list|]; [ | contradiction].
  destruct (merged_partitions !! idx) as [polygon|]; [ | contradiction].
  destruct cell_list as [|cell rest]; [contradiction |].
  destruct Hin as [<- | []]. discriminate.
Qed.

Lemma subcluster_waypoints_nil (subcluster : gmap nat (list CellID))
    (merged_partitions : list Polygon) :
  (forall idx cell, ~ assigned subcluster idx cell) ->
  subcluster_waypoints subcluster merged_partitions = [].
Proof.
  intros Hnone. unfold subcluster_waypoints.
  induction (seq 0 (length merged_partitions)) as [|idx l IH]; [reflexivity |].
  simpl. rewrite IH, app_nil_r.
  destruct (subcluster !! idx) as [cell_list|] eqn:Hlook; [ | reflexivity].
  destruct (merged_partitions !! idx) as [polygon|]; [ | reflexivity].
  destruct cell_list as [|cell rest]; [reflexivity |].
  exfalso. apply (Hnone idx cell). exists (cell :: rest). split; [exact Hlook | now left].
Qed.

(** X19.  Coverage, end to end.  When the partitioner and the merge run
    through on a polygon, [run_pipeline] returns a global path exactly
    when the distribution assigns at least one cell to a partition; that
    path then passes through every assigned cell (as the point
    [(row, col)]).  When no cell is assigned, it fails on the missing
    tour. *)
Theorem run_pipeline_covers (intersects : Polygon -> Polygon -> bool) (poly : Polygon)
    (partitions merged_partitions : list Polygon) (details : list PassRecord)
    (cell_ids : list CellID) :
  greedy_partition poly 40 1 = Some (partitions, details) ->
  merge_partitions partitions (1 # 1000000) = Some merged_partitions ->
  cells_inside_polygon_ids intersects (Some poly) 1 = Some cell_ids ->
  let subcluster := distribute_cells_to_subclusters cell_ids 1 merged_partitions in
  ((exists idx cell, assigned subcluster idx cell) ->
   exists global_path,
     run_pipeline intersects poly = Some global_path /\
     forall idx cell, assigned subcluster idx cell ->
                      visits global_path (cell_point cell)) /\
  ((forall idx cell, ~ assigned subcluster idx cell) ->
   run_pipeline intersects poly = None).
Proof.
  intros Hgreedy Hmerge Hcells subcluster.
  assert (Hkey : forall idx cell, assigned subcluster idx cell ->
                                  (idx < length merged_partitions)%nat).
  { intros idx cell (cells & Hlook & _). subst subcluster.
    rewrite distribute_lookup in Hlook.
    destruct (idx <? length merged_partitions)%nat eqn:E; [ | discriminate].
    now apply Nat.ltb_lt. }
  unfold run_pipeline. rewrite Hgreedy, Hmerge, Hcells. fold subcluster.
  split.
  - intros (idx0 & cell0 & Hassigned0).
    destruct (assembled_path_covers M K (subcluster_waypoints subcluster merged_partitions))
      as (gp & conns & Hasm & Hvisits).
    + destruct (subcluster_waypoints_in subcluster merged_partitions idx0 cell0
                  (Hkey _ _ Hassigned0) Hassigned0) as (cells & polygon & Hin & _).
      intros E. rewrite E in Hin. contradiction.
    + apply subcluster_waypoints_nonempty.
    + exists gp. rewrite Hasm. split; [reflexivity |].
      intros idx cell Hassigned.
      destruct (subcluster_waypoints_in subcluster merged_partitions idx cell
                  (Hkey _ _ Hassigned) Hassigned) as (cells & polygon & Hin & Hcell).
      apply (Hvisits (map cell_point cells) (Some polygon)); [exact Hin |].
      now apply in_map.
  - intros Hnone. rewrite (subcluster_waypoints_nil _ _ Hnone). reflexivity.
Qed.
End Pipeline.

(** ** Ties in the combiner *)

Lemma finf_ltb_trans (a b c : float_inf) :
  finf_ltb a b = true -> finf_ltb b c = true -> finf_ltb a c = true.
Proof.
  destruct a, b, c; simpl; try discriminate; try reflexivity.
  rewrite !Qltb_lt. apply Qlt_trans.
Qed.

Lemma finf_ltb_le_trans (a b c : float_inf) :
  finf_ltb a b = true -> finf_ltb c b = false -> finf_ltb a c = true.
Proof.
  destruct a, b, c; simpl; try discriminate; try reflexivity.
  rewrite !Qltb_lt, Qltb_ge. intros H1 H2. eapply Qlt_le_trans; eassumption.
Qed.

(** A loop that relaxes from [(inf, None)] ends on the first item of
    least total, if any total is finite. *)
Lemma fold_relax_first {X : Type} (tot : X -> float_inf) (key : X -> nat * nat)
    (sub : X -> option Tour) (xs : list X) :
  let r := fold_left (relax_step tot key sub) xs (Infinity, None) in
  (r = (Infinity, None) /\ forall j y, xs !! j = Some y -> tot y = Infinity) \/
  exists i x,
    xs !! i = Some x /\
    r = (tot x, option_map (cons (key x)) (sub x)) /\
    (forall j y, xs !! j = Some y -> (j < i)%nat -> finf_ltb (tot x) (tot y) = true) /\
    (forall j y, xs !! j = Some y -> finf_ltb (tot y) (tot x) = false).
Proof.
  induction xs as [|z xs IH] using rev_ind; simpl.
  - left. split; [reflexivity | intros j y H; discriminate].
  - rewrite fold_left_app. cbn [fold_left]. cbv zeta in IH.
    destruct IH as [[Hr Hinf] | (i & x & Hi & Hr & Hpre & Hall)]; rewrite Hr;
      unfold relax_step, relax; cbn [fst].
    + destruct (tot z) as [q|] eqn:Hz; cbn [finf_ltb].
      * right. exists (length xs), z. rewrite Hz.
        split; [now apply list_lookup_middle |]. split; [reflexivity |]. split.
        -- intros j y Hj Hlt. rewrite lookup_app_l in Hj by exact Hlt.
           now rewrite (Hinf j y Hj).
        -- intros j y Hj. apply lookup_app_Some in Hj as [Hj | [_ Hj]].
           ++ now rewrite (Hinf j y Hj).
           ++ destruct (j - length xs)%nat; simpl in Hj; [ | discriminate].
              injection Hj as <-. rewrite Hz. simpl.
              apply Qltb_ge, Qle_refl.
      * left. split; [reflexivity |]. intros j y Hj.
        apply lookup_app_Some in Hj as [Hj | [_ Hj]]; [now apply (Hinf j) |].
        destruct (j - length xs)%nat; simpl in Hj; [ | discriminate].
        now injection Hj as <-.
    + right. destruct (finf_ltb (tot z) (tot x)) eqn:Hlt.
      * exists (length xs), z.
        split; [now apply list_lookup_middle |]. split; [reflexivity |]. split.
        -- intros j y Hj Hji. rewrite lookup_app_l in Hj by exact Hji.
           apply finf_ltb_le_trans with (tot x); [exact Hlt | now apply (Hall j)].
        -- intros j y Hj. apply lookup_app_Some in Hj as [Hj | [_ Hj]].
           ++ specialize (Hall j y Hj).
              destruct (finf_ltb (tot y) (tot z)) eqn:E; [ | reflexivity].
              rewrite (finf_ltb_trans _ _ _ E Hlt) in Hall. discriminate.
           ++ destruct (j - length xs)%nat; simpl in Hj; [ | discriminate].
              injection Hj as <-.
              destruct (tot z); simpl; [apply Qltb_ge, Qle_refl | reflexivity].
      * exists i, x.
        split; [now apply lookup_app_l_Some |]. split; [reflexivity |]. split.
        -- intros j y Hj Hji. apply (Hpre j y); [ | exact Hji].
           apply lookup_lt_Some in Hi. now rewrite lookup_app_l in Hj by lia.
        -- intros j y Hj. apply lookup_app_Some in Hj as [Hj | [_ Hj]];
             [now apply (Hall j) |].
           destruct (j - length xs)%nat; simpl in Hj; [ | discriminate].
           now injection Hj as <-.
Qed.

Lemma enumerate_lookup_idx {A : Type} (l : list A) (j : nat) :
  enumerate l !! j = (fun c => (j, c)) <$> l !! j.
Proof.
  induction l as [|a l IH] using rev_ind; [reflexivity |].
  rewrite enumerate_snoc.
  assert (Hlen : length (enumerate l) = length l).
  { unfold enumerate. rewrite length_combine, length_seq. lia. }
  destruct (Nat.lt_ge_cases j (length l)) as [Hlt | Hge].
  - rewrite !lookup_app_l by lia. exact IH.
  - rewrite !lookup_app_r by lia. rewrite Hlen.
    destruct (j - length l)%nat as [|n] eqn:E; simpl; [ | reflexivity].
    f_equal. f_equal. lia.
Qed.

(** X20.  With a single partition [held_karp] returns the first candidate
    of least adjusted cost: its index [k] as the tour [[(0, k)]], its
    adjusted cost as the total, and every candidate before it is strictly
    more expensive. *)
Theorem held_karp_single_partition (M : Libm) (partition : list CandidateOption) :
  partition <> [] ->
  exists (k : nat) (c : CandidateOption),
    map (adjust_candidate 1 adjust_tol partition) partition !! k = Some c /\
    held_karp [partition] = (Finite (cost c + 0), Some [(0%nat, k)]) /\
    (forall k' c',
        map (adjust_candidate 1 adjust_tol partition) partition !! k' = Some c' ->
        cost c <= cost c' /\ ((k' < k)%nat -> cost c < cost c')).
Proof.
  intros Hne. unfold held_karp.
  set (adj := map (adjust_candidate 1 adjust_tol partition) partition).
  change (adjust_candidate_options [partition] 1 adjust_tol) with [adj].
  rewrite held_karp_loop_unfold.
  assert (Hchoices : choices [adj] (fun _ => false)
                     = map (fun kc => (0%nat, fst kc, snd kc)) (enumerate adj)).
  { unfold choices. simpl. now rewrite app_nil_r. }
  rewrite Hchoices.
  match goal with
  | |- context [fold_left (relax_step ?tot ?key ?sub) ?xs _] =>
      pose proof (fold_relax_first tot key sub xs) as Hfirst
  end.
  cbv zeta in Hfirst.
  assert (Hitem : forall j y,
             map (fun kc => (0%nat, fst kc, snd kc)) (enumerate adj) !! j = Some y ->
             exists c', adj !! j = Some c' /\ y = (0%nat, j, c')).
  { intros j y Hj.
    change (map ?f (enumerate adj)) with (f <$> enumerate adj) in Hj.
    rewrite list_lookup_fmap, enumerate_lookup_idx in Hj.
    destruct (adj !! j) as [c'|]; simpl in Hj; [ | discriminate].
    injection Hj as <-. eauto. }
  assert (Htot : forall j c',
             finf_add (cost c') (fst (top_choice [adj] (0%nat, j, c')))
             = Finite (cost c' + 0)).
  { intros j c'. reflexivity. }
  destruct Hfirst as [[_ Hinf] | (i & x & Hi & Hr & Hpre & Hall)].
  - exfalso. destruct adj as [|c0 adj'] eqn:E.
    + subst adj. destruct partition; [congruence | discriminate].
    + specialize (Hinf 0%nat (0%nat, 0%nat, c0) eq_refl). discriminate Hinf.
  - destruct (Hitem i x Hi) as (c & Hc & ->).
    exists i, c. split; [exact Hc |]. split; [exact Hr |].
    intros k' c' Hc'.
    assert (Hk' : map (fun kc => (0%nat, fst kc, snd kc)) (enumerate adj) !! k'
                  = Some (0%nat, k', c')).
    { change (map ?f (enumerate adj)) with (f <$> enumerate adj).
      now rewrite list_lookup_fmap, enumerate_lookup_idx, Hc'. }
    split.
    + specialize (Hall k' _ Hk'). cbn [snd] in Hall.
      rewrite !Htot in Hall. simpl in Hall. apply Qltb_ge in Hall. lra.
    + intros Hlt. specialize (Hpre k' _ Hk' Hlt). cbn [snd] in Hpre.
      rewrite !Htot in Hpre. simpl in Hpre. apply Qltb_lt in Hpre. lra.
Qed.

(** ** The polygons selected on the command line *)

Lemma name_in_spec (n : String.string) (valid_names : list String.string) :
  name_in n valid_names = true <-> In n valid_names.
Proof.
  unfold name_in. rewrite existsb_exists. split.
  - intros (x & Hin & Heq). apply String.eqb_eq in Heq. now subst.
  - intros Hin. exists n. split; [exact Hin | apply String.eqb_refl].
Qed.

(** A string without the separator is its own single piece. *)
Lemma str_split_no_sep (sep : Ascii.ascii) (s : String.string) :
  ~ In sep (String.list_ascii_of_string s) -> str_split sep s = [s].
Proof.
  induction s as [|c rest IH]; intros Hno; [reflexivity |].
  simpl in *. destruct (Ascii.eqb c sep) eqn:E.
  - apply Ascii.eqb_eq in E. exfalso. apply Hno. now left.
  - rewrite IH; [reflexivity |]. intros Hin. apply Hno. now right.
Qed.

(** X22.  The names the main loop processes are all names of the store,
    so that looking them up cannot fail.  A non-empty piece of a token of
    the command line, cut at the commas, is processed when it is a name of
    the store; so is a name of the store without a comma that is given as
    a token of its own (a name with a comma is cut up and not found).
    When no piece of a token is a non-empty name of the store, or no token
    is given, every polygon of the store is processed. *)
Theorem include_valid (polygon_args : option (list String.string))
    (valid_names : list String.string) :
  Forall (fun n => In n valid_names) (include polygon_args valid_names) /\
  (forall toks tok n,
      polygon_args = Some toks -> In tok toks -> In n (str_split ","%char tok) ->
      n <> String.EmptyString -> In n valid_names ->
      In n (include polygon_args valid_names)) /\
  (forall toks n,
      polygon_args = Some toks -> In n toks ->
      ~ In ","%char (String.list_ascii_of_string n) ->
      n <> String.EmptyString -> In n valid_names ->
      In n (include polygon_args valid_names)) /\
  ((forall toks tok n,
       polygon_args = Some toks -> In tok toks -> In n (str_split ","%char tok) ->
       n = String.EmptyString \/ ~ In n valid_names) ->
   include polygon_args valid_names = valid_names).
Proof.
  assert (Hwhole :
    (forall toks tok n,
        polygon_args = Some toks -> In tok toks -> In n (str_split ","%char tok) ->
        n <> String.EmptyString -> In n valid_names ->
        In n (include polygon_args valid_names)) ->
    forall toks n,
      polygon_args = Some toks -> In n toks ->
      ~ In ","%char (String.list_ascii_of_string n) ->
      n <> String.EmptyString -> In n valid_names ->
      In n (include polygon_args valid_names)).
  { intros Hpiece toks n Hargs Hn Hno Hne Hvalid.
    apply (Hpiece toks n n Hargs Hn); [ | exact Hne | exact Hvalid].
    rewrite (str_split_no_sep _ _ Hno). now left. }
  cut (Forall (fun n => In n valid_names) (include polygon_args valid_names) /\
       (forall toks tok n,
           polygon_args = Some toks -> In tok toks -> In n (str_split ","%char tok) ->
           n <> String.EmptyString -> In n valid_names ->
           In n (include polygon_args valid_names)) /\
       ((forall toks tok n,
            polygon_args = Some toks -> In tok toks -> In n (str_split ","%char tok) ->
            n = String.EmptyString \/ ~ In n valid_names) ->
        include polygon_args valid_names = valid_names)).
  { intros (H1 & H2 & H3).
    split; [exact H1 | split; [exact H2 | split; [exact (Hwhole H2) | exact H3]]]. }
  clear Hwhole.
  assert (Hall : Forall (fun n => In n valid_names) valid_names).
  { apply List.Forall_forall. auto. }
  destruct polygon_args as [[|tok0 toks0]|].
  1, 3: split; [exact Hall | split; [ | reflexivity]].
  1, 2: intros toks tok n H; try discriminate H; injection H as <-; contradiction.
  unfold include.
  set (named :=
         flat_map
           (fun tok =>
              List.filter (fun x => negb (String.eqb x String.EmptyString))
                          (str_split ","%char tok))
           (tok0 :: toks0)).
  cbv zeta.
  assert (Hnamed : forall n,
             In n (List.filter (fun n => name_in n valid_names) named) <->
             (exists tok, In tok (tok0 :: toks0) /\ In n (str_split ","%char tok)) /\
             n <> String.EmptyString /\ In n valid_names).
  { intros n. rewrite List.filter_In, name_in_spec. subst named.
    rewrite in_flat_map. split.
    - intros [(tok & Htok & Hn) Hvalid]. apply List.filter_In in Hn as [Hn Hne].
      split; [eauto |]. split; [ | exact Hvalid].
      intros ->. discriminate Hne.
    - intros [(tok & Htok & Hn) [Hne Hvalid]]. split; [ | exact Hvalid].
      exists tok. split; [exact Htok |]. apply List.filter_In. split; [exact Hn |].
      apply negb_true_iff, String.eqb_neq. exact Hne. }
  destruct (List.filter (fun n => name_in n valid_names) named) as [|n0 rest] eqn:Hsel;
    cbn [null].
  - split; [exact Hall |]. split; [ | reflexivity].
    intros toks tok n H Htok Hn Hne Hvalid. injection H as <-.
    exfalso. apply (proj2 (Hnamed n)). split; eauto.
  - split; [ | split].
    + apply List.Forall_forall. intros n Hn. now apply Hnamed in Hn.
    + intros toks tok n H Htok Hn Hne Hvalid. injection H as <-.
      apply Hnamed. split; eauto.
    + intros Hnone. exfalso.
      destruct (proj1 (Hnamed n0) ltac:(now left)) as [(tok & Htok & Hn) [Hne Hvalid]].
      destruct (Hnone _ tok n0 eq_refl Htok Hn); contradiction.
Qed.

(** * The further properties on concrete inputs *)

(** The sweep of the 2 by 2 block repeats no point. *)
Lemma compute_sweep_path_perm_witness :
  List.NoDup (compute_sweep_path four_waypoints 0 1 false false).
Proof.
  apply (proj2 (proj2 (proj2 (compute_sweep_path_perm four_waypoints 0 1 false false)))).
  unfold four_waypoints.
  repeat (apply List.NoDup_cons; [simpl; intuition discriminate |]).
  apply List.NoDup_nil.
Defined.

Lemma candidates_cover_waypoints_witness :
  (length (@get_candidate_options grid_libm rect_kernel four_waypoints None) = 4 \/
   length (@get_candidate_options grid_libm rect_kernel four_waypoints None) = 8)%nat /\
  Forall (fun c => exists p, @candidate_of grid_libm c p /\ Permutation p four_waypoints)
         (@get_candidate_options grid_libm rect_kernel four_waypoints None).
Proof.
  apply (proj2 (@candidates_cover_waypoints grid_libm rect_kernel four_waypoints None)).
  discriminate.
Defined.

(** A single segment has no turn. *)
Lemma count_turns_bounds_witness :
  @count_turns grid_libm [(0, 0); (1, 0)] = 0%Z.
Proof.
  apply (proj2 (@count_turns_bounds grid_libm [(0, 0); (1, 0)])).
  simpl. lia.
Defined.

(** The "U" is not troublesome for vertical sweeps, and has no vertical
    gap. *)
Lemma quantifier_agrees_with_analyzer_witness :
  vertical_union (@quantify_gap_severity rect_kernel u_shape 1 Exterior) = None /\
  total_vertical_gap (@quantify_gap_severity rect_kernel u_shape 1 Exterior) = 0 /\
  max_vertical_gap (@quantify_gap_severity rect_kernel u_shape 1 Exterior) = 0.
Proof.
  apply (proj2 (@quantifier_agrees_with_analyzer rect_kernel u_shape 1 Exterior
                  (or_intror eq_refl))).
  vm_compute. reflexivity.
Defined.

(** The square with a hole: one pass is recorded, at depth 0. *)
Lemma greedy_passes_recorded_witness :
  exists pieces passes,
    @greedy_partition rect_kernel square_with_hole 40 1 = Some (pieces, passes) /\
    passes <> [] /\
    Forall (@pass_ok rect_kernel 1 0 40) passes.
Proof.
  eexists _, _. split; [vm_compute; reflexivity |]. split; [discriminate |].
  refine (proj1 (@greedy_passes_recorded rect_kernel square_with_hole 40 1 _ _ _)).
  vm_compute. reflexivity.
Defined.

(** The notched square is cut once; both pieces come from that cut. *)
Lemma greedy_pieces_provenance_witness :
  exists pieces passes,
    @greedy_partition rect_kernel notched_square 40 1 = Some (pieces, passes) /\
    length pieces = 2%nat /\
    Forall (fun piece => piece = notched_square \/ @from_split rect_kernel passes piece)
           pieces.
Proof.
  eexists _, _. split; [vm_compute; reflexivity |]. split; [reflexivity |].
  refine (@greedy_pieces_provenance rect_kernel notched_square 40 1 _ _ _).
  vm_compute. reflexivity.
Defined.

(** The two squares side by side are merged into one rectangle. *)
Lemma merge_partitions_length_witness :
  (length [rectangle 0 0 6 3] <= length [left_square; right_square])%nat /\
  ([left_square; right_square] <> [] -> [rectangle 0 0 6 3] <> []).
Proof.
  apply (proj1 (@merge_partitions_length rect_kernel [left_square; right_square]
                  (1 # 1000000))).
  vm_compute. reflexivity.
Defined.

(** Two squares that are apart stay apart. *)
Lemma merge_partitions_unmergeable_witness :
  @unmergeable rect_kernel (1 # 1000000) [left_square; far_square].
Proof.
  apply (@merge_partitions_unmergeable rect_kernel [left_square; far_square]).
  vm_compute. reflexivity.
Defined.

Lemma raster_error_and_empty_witness :
  cells_inside_polygon_ids rect_intersects (Some square_2x2) 0 = None /\
  cells_inside_polygon_ids rect_intersects None 1 = Some [].
Proof.
  split.
  - apply (proj1 (raster_error_and_empty rect_intersects (Some square_2x2) 0)).
    apply Qle_refl.
  - apply (proj2 (raster_error_and_empty rect_intersects None 1)).
    + reflexivity.
    + left. reflexivity.
Defined.

Lemma raster_cells_witness :
  exists cells,
    cells_inside_polygon_ids rect_intersects (Some square_2x2) 1 = Some cells /\
    List.NoDup cells /\
    forall cell,
      In cell cells <->
      cell_meets_box 1 (bounds square_2x2) cell /\
      rect_intersects (get_cell_polygon cell 1) square_2x2 = true.
Proof.
  apply (raster_cells rect_intersects square_2x2). reflexivity.
Defined.


Lemma distribute_structure_witness :
  sublist [(0, 0); (1, 2)]%Z some_cells /\
  (List.NoDup some_cells -> List.NoDup [(0, 0); (1, 2)]%Z).
Proof.
  apply (proj2 (@distribute_structure rect_kernel some_cells 1 [left_square; right_square])
               0%nat).
  vm_compute. reflexivity.
Defined.

(** The connector between the two subclusters leads from the end of the
    block to the first of the two cells. *)
Lemma assemble_connectors_witness :
  exists global_path global_connectors,
    assemble_global_path (@path_options_of grid_libm rect_kernel two_subclusters)
      (Some [(0, 1); (1, 0)]%nat)
    = Some (global_path, global_connectors) /\
    length global_connectors = 1%nat.
Proof.
  eexists _, _. split; [vm_compute; reflexivity |].
  refine (proj1 (assemble_connectors
                   (@path_options_of grid_libm rect_kernel two_subclusters)
                   [(0, 1); (1, 0)]%nat _ _ _)).
  vm_compute. reflexivity.
Defined.

Lemma pipeline_assembly_witness :
  exists global_path global_connectors,
    assemble_global_path (@path_options_of grid_libm rect_kernel two_subclusters)
      (snd (@held_karp grid_libm (@path_options_of grid_libm rect_kernel two_subclusters)))
    = Some (global_path, global_connectors) /\
    global_path <> [] /\
    length global_connectors
    = (length (@path_options_of grid_libm rect_kernel two_subclusters) - 1)%nat.
Proof.
  apply (proj2 (pipeline_assembly grid_libm
                  (@path_options_of grid_libm rect_kernel two_subclusters))).
  - discriminate.
  - vm_compute.
    repeat first
      [ apply List.Forall_nil
      | apply List.Forall_cons
      | (eexists _, _; reflexivity)
      | split
      | discriminate ].
Defined.

(** The candidate with two turns keeps its cost of 5. *)
Lemma adjust_keeps_least_turns_witness :
  cost (adjust_candidate 1 adjust_tol
          [mkCandidateOption (0, 0) (1, 1) 5 2 None;
           mkCandidateOption (0, 1) (1, 0) 5 4 None]
          (mkCandidateOption (0, 0) (1, 1) 5 2 None))
  == 5.
Proof.
  apply (adjust_keeps_least_turns 1 adjust_tol
           [mkCandidateOption (0, 0) (1, 1) 5 2 None;
            mkCandidateOption (0, 1) (1, 0) 5 4 None]
           (mkCandidateOption (0, 0) (1, 1) 5 2 None)).
  - reflexivity.
  - left. reflexivity.
  - intros c [<- | [<- | []]] _; simpl; lia.
Defined.

Lemma strip_closure_round_trip_witness :
  _strip_closure [(0, 0)] = [(0, 0)].
Proof.
  apply (proj2 (proj2 (strip_closure_round_trip (0, 0) [] [(0, 0)]))).
  simpl. lia.
Defined.

(** The 2 by 2 square: one partition, four cells, and a path through the
    four of them. *)
Lemma run_pipeline_covers_witness :
  exists global_path,
    @run_pipeline grid_libm rect_kernel rect_intersects square_2x2 = Some global_path /\
    forall idx cell,
      assigned
        (@distribute_cells_to_subclusters rect_kernel [(0, 0); (0, 1); (1, 0); (1, 1)]%Z 1
           [square_2x2])
        idx cell ->
      visits global_path (cell_point cell).
Proof.
  apply (proj1 (@run_pipeline_covers grid_libm rect_kernel rect_intersects square_2x2
                  [square_2x2] [square_2x2] [] [(0, 0); (0, 1); (1, 0); (1, 1)]%Z
                  eq_refl eq_refl eq_refl)).
  exists 0%nat, (0, 0)%Z. eexists. split; [vm_compute; reflexivity | now left].
Defined.

Lemma held_karp_single_partition_witness :
  exists (k : nat) (c : CandidateOption),
    map (adjust_candidate 1 adjust_tol
           [mkCandidateOption (0, 0) (1, 1) 5 2 None;
            mkCandidateOption (0, 1) (1, 0) 5 4 None])
        [mkCandidateOption (0, 0) (1, 1) 5 2 None;
         mkCandidateOption (0, 1) (1, 0) 5 4 None] !! k = Some c /\
    @held_karp grid_libm
      [[mkCandidateOption (0, 0) (1, 1) 5 2 None;
        mkCandidateOption (0, 1) (1, 0) 5 4 None]]
    = (Finite (cost c + 0), Some [(0%nat, k)]) /\
    (forall k' c',
        map (adjust_candidate 1 adjust_tol
               [mkCandidateOption (0, 0) (1, 1) 5 2 None;
                mkCandidateOption (0, 1) (1, 0) 5 4 None])
            [mkCandidateOption (0, 0) (1, 1) 5 2 None;
             mkCandidateOption (0, 1) (1, 0) 5 4 None] !! k' = Some c' ->
        cost c <= cost c' /\ ((k' < k)%nat -> cost c < cost c')).
Proof.
  apply (held_karp_single_partition grid_libm
           [mkCandidateOption (0, 0) (1, 1) 5 2 None;
            mkCandidateOption (0, 1) (1, 0) 5 4 None]).
  discriminate.
Defined.

(** [-p P1,P9 P2] on a store with P1, P2 and P3 selects P1 and P2. *)
Lemma include_valid_witness :
  In "P1"%string
     (include (Some ["P1,P9"; "P2"]%string) ["P1"; "P2"; "P3"]%string) /\
  In "P2"%string
     (include (Some ["P1,P9"; "P2"]%string) ["P1"; "P2"; "P3"]%string).
Proof.
  split.
  - apply (proj1 (proj2 (include_valid (Some ["P1,P9"; "P2"]%string)
                           ["P1"; "P2"; "P3"]%string))
             ["P1,P9"; "P2"]%string "P1,P9"%string "P1"%string).
    + reflexivity.
    + now left.
    + now left.
    + discriminate.
    + now left.
  - apply (proj1 (proj2 (proj2 (include_valid (Some ["P1,P9"; "P2"]%string)
                                  ["P1"; "P2"; "P3"]%string)))
             ["P1,P9"; "P2"]%string "P2"%string).
    + reflexivity.
    + right. now left.
    + simpl. intros [H | [H | []]]; discriminate H.
    + discriminate.
    + right. now left.
Defined.

(** The square with a hole is exported with its five-point rings opened. *)
Lemma outer_holes_round_trip_witness :
  shapely_to_outer_holes square_with_hole
  = ([(0, 0); (10, 0); (10, 10); (0, 10)], [[(1, 1); (1, 2); (2, 2); (2, 1)]]).
Proof.
  apply (outer_holes_round_trip (0, 0) [(10, 0); (10, 10); (0, 10)]
           [[(1, 1); (1, 2); (2, 2); (2, 1)]]).
  repeat constructor. discriminate.
Defined.
